(** * LU factorisation and solve of the CircuitJS1 WASM matrix solver

    Shallow embedding of [src/wasm/matrix_solver.c] (module [Scalar]) and
    [src/wasm/matrix_solver_simd.c] (module [Simd]).

    - C [int] values are [Z].  Indices [i * n + j] stay below [n * n], the
      size of the caller's buffer, so no [int] overflow is modelled;
      [lu_solve] computes [n - 1] for every [n], and what is stated of it
      at [n <= 0] assumes [INT_MIN < n].
    - A buffer ([double*], [int*]) is a [list]; a read or a write outside
      the buffer has no defined behaviour in C and is an error here
      ([None]), as is an exact division by zero.
    - [double] arithmetic is an interface [Arith] with two instances:
      [Exact] (rationals [Qc], no rounding, division by zero refused) and
      [Binary64] (IEEE 754 binary64, the kernel's primitive floats).
      Properties that do not depend on rounding are proved for any
      arithmetic, some from the laws [ArithLaws] and [division_guarded],
      which both instances satisfy.
    - [lu_factor] returns its [int] together with the [return] statement
      it left from and the two buffers as they are at that point.
    - The two loops of [lu_solve] that exchange entries of [b] carry a
      ghost trace of the exchanges they do; the code does not read it.
    - A [double*] argument that points into a buffer ([&a[j * n]]) is the
      buffer and the index it points at.
    - [dot_product_simd] and [scale_column_simd] of the SIMD file are
      called by neither [lu_factor] nor [lu_solve]; they are embedded and
      specified on their own.
    - [wasm_malloc], [wasm_free] and the [sizeof] getters belong to the
      allocator and the ABI and are left out. *)

From Stdlib Require Import ZArith QArith Qcanon Qcabs Lia Floats.
From stdpp Require Import base option list.

Local Open Scope Z_scope.

(** ** Arithmetic on [double] *)

Class Arith (F : Type) := {
  f0 : F;                       (* 0.0 *)
  f1 : F;                       (* 1.0 *)
  fadd : F -> F -> F;
  fsub : F -> F -> F;
  fmul : F -> F -> F;
  fdiv : F -> F -> option F;
  fabs : F -> F;                (* fabs(x) *)
  feqb : F -> F -> bool;        (* x == y; (x != y) is its negation *)
  fgeb : F -> F -> bool         (* x >= y *)
}.

#[export] Instance Exact : Arith Qc := {
  f0 := 0%Qc;
  f1 := 1%Qc;
  fadd := Qcplus;
  fsub := Qcminus;
  fmul := Qcmult;
  fdiv x y := if decide (y = 0%Qc) then None else Some (x / y)%Qc;
  fabs := Qcabs;
  feqb x y := bool_decide (x = y);
  fgeb x y := bool_decide (y <= x)%Qc
}.

#[export] Instance Binary64 : Arith float := {
  f0 := PrimFloat.zero;
  f1 := PrimFloat.one;
  fadd := PrimFloat.add;
  fsub := PrimFloat.sub;
  fmul := PrimFloat.mul;
  fdiv x y := Some (PrimFloat.div x y);
  fabs := PrimFloat.abs;
  feqb := PrimFloat.eqb;
  fgeb x y := PrimFloat.leb y x
}.

(** The laws of [>=], [==] and [fabs] that the pivot search relies on. *)
Class ArithLaws (F : Type) `{Arith F} : Prop := {
  fgeb_zero : fgeb f0 f0 = true;
  fgeb_comparable (x y : F) : fgeb x y = true -> fgeb x x = true;
  fgeb_trans (x y z : F) :
    fgeb x y = true -> fgeb y z = true -> fgeb x z = true;
  fgeb_total (x y : F) :
    fgeb x x = true -> fgeb y y = true -> fgeb x y = false -> fgeb y x = true;
  fabs_zero (x : F) : fabs x = f0 -> feqb x f0 = true
}.

(** ** Buffers and loops *)

(** [m[z]] as an rvalue. *)
Definition load {A} (m : list A) (z : Z) : option A :=
  if z <? 0 then None else m !! Z.to_nat z.

(** [m[z] = v]. *)
Definition store {A} (m : list A) (z : Z) (v : A) : option (list A) :=
  if z <? 0 then None
  else if (Z.to_nat z <? length m)%nat then Some (<[Z.to_nat z := v]> m)
  else None.

(** [cnt] iterations of [body], the counter going up from [i]. *)
Fixpoint for_ {T} (i : Z) (cnt : nat) (body : Z -> T -> option T) (s : T)
  : option T :=
  match cnt with
  | O => Some s
  | S c => s' ← body i s; for_ (i + 1) c body s'
  end.

(** [for (i = lo; i < hi; i++) body] *)
Definition for_range {T} (lo hi : Z) (body : Z -> T -> option T) (s : T)
  : option T :=
  for_ lo (Z.to_nat (hi - lo)) body s.

(** [cnt] iterations of [body], the counter going down from [i]. *)
Fixpoint for_down_ {T} (i : Z) (cnt : nat) (body : Z -> T -> option T) (s : T)
  : option T :=
  match cnt with
  | O => Some s
  | S c => s' ← body i s; for_down_ (i - 1) c body s'
  end.

(** [for (i = hi - 1; i >= 0; i--) body] *)
Definition for_down {T} (hi : Z) (body : Z -> T -> option T) (s : T)
  : option T :=
  for_down_ (hi - 1) (Z.to_nat hi) body s.

(** [cnt] iterations of [body], the counter going up from [i] in steps of
    two; the final counter is returned with the state. *)
Fixpoint for2_ {T} (i : Z) (cnt : nat) (body : Z -> T -> option T) (s : T)
  : option (Z * T) :=
  match cnt with
  | O => Some (i, s)
  | S c => s' ← body i s; for2_ (i + 2) c body s'
  end.

(** [for (i = lo; i + 1 < hi; i += 2) body]: it runs [(hi - lo) / 2]
    times when [lo <= hi], and not at all otherwise. *)
Definition for_pairs {T} (lo hi : Z) (body : Z -> T -> option T) (s : T)
  : option (Z * T) :=
  for2_ lo (Z.to_nat ((hi - lo) / 2)) body s.

(** The [return] statements of [lu_factor], in source order. *)
Inductive site := ZeroRow | NoPivot | ZeroDiag | Success.

(** What a call of [lu_factor] leaves: the statement it returned from, the
    [int] it returned, and the two buffers. *)
Record result (F : Type) := Result {
  exit : site;
  value : Z;
  matrix : list F;
  pivots : list Z
}.
Arguments Result {F}.
Arguments exit {F}.
Arguments value {F}.
Arguments matrix {F}.
Arguments pivots {F}.

(** One pass of the column loop either returns from [lu_factor] or goes
    on to the next column. *)
Inductive flow (F : Type) :=
  | Return (r : result F)
  | Next (a : list F) (ipvt : list Z).
Arguments Return {F}.
Arguments Next {F}.

(** ** matrix_solver.c *)

Module Scalar.
Section Code.
Context {F : Type} `{Arith F}.

(** Lines 31-36: is row [i] zero from column [j] on ([cnt] columns left)? *)
Fixpoint row_all_zeros (a : list F) (n i j : Z) (cnt : nat) : option bool :=
  match cnt with
  | O => Some true
  | S c =>
      x ← load a (i * n + j);
      if negb (feqb x f0) then Some false
      else row_all_zeros a n i (j + 1) c
  end.

(** Lines 29-40: [Some i] when the loop returns [i], [None] when it ends. *)
Fixpoint zero_row_check (a : list F) (n i : Z) (cnt : nat)
  : option (option Z) :=
  match cnt with
  | O => Some None
  | S c =>
      z ← row_all_zeros a n i 0 (Z.to_nat n);
      if z : bool then Some (Some i) else zero_row_check a n (i + 1) c
  end.

(** Lines 48-50 and 59-61: [for (k = 0; k < hi; k++) q -= a[i*n+k] * a[k*n+j]]. *)
Definition reduce (a : list F) (n i j hi : Z) (q : F) : option F :=
  for_range 0 hi (fun k q =>
    x ← load a (i * n + k);
    y ← load a (k * n + j);
    Some (fsub q (fmul x y))) q.

(** Lines 46-52. *)
Definition upper_part (a : list F) (n j : Z) : option (list F) :=
  for_range 0 j (fun i a =>
    q ← load a (i * n + j);
    q ← reduce a n i j i q;
    store a (i * n + j) q) a.

(** Lines 55-68; the state is [(a, largest, largestRow)]. *)
Definition lower_part (a : list F) (n j : Z) : option (list F * F * Z) :=
  for_range j n (fun i '(a, largest, largestRow) =>
    q ← load a (i * n + j);
    q ← reduce a n i j j q;
    a ← store a (i * n + j) q;
    let x := fabs q in
    if fgeb x largest then Some (a, x, i)
    else Some (a, largest, largestRow)) (a, f0, -1).

(** Lines 76-80. *)
Definition swap_rows (a : list F) (n largestRow j : Z) : option (list F) :=
  for_range 0 n (fun k a =>
    x ← load a (largestRow * n + k);
    y ← load a (j * n + k);
    a ← store a (largestRow * n + k) y;
    store a (j * n + k) x) a.

(** Lines 94-96. *)
Definition scale_column (a : list F) (n j : Z) (mult : F) : option (list F) :=
  for_range (j + 1) n (fun i a =>
    x ← load a (i * n + j);
    store a (i * n + j) (fmul x mult)) a.

(** Lines 84-97, after the pivot row is in place. *)
Definition finish_column (a : list F) (n : Z) (ipvt : list Z)
    (j largestRow : Z) : option (flow F) :=
  ipvt ← store ipvt j largestRow;
  d ← load a (j * n + j);
  if feqb d f0 then Some (Return (Result ZeroDiag j a ipvt))
  else if decide (j ≠ n - 1) then
    mult ← fdiv f1 d;
    a ← scale_column a n j mult;
    Some (Next a ipvt)
  else Some (Next a ipvt).

(** Lines 71-97. *)
Definition pivot_column (a : list F) (n : Z) (ipvt : list Z)
    (j largestRow : Z) : option (flow F) :=
  if decide (j ≠ largestRow) then
    if decide (largestRow = -1) then Some (Return (Result NoPivot j a ipvt))
    else
      a ← swap_rows a n largestRow j;
      finish_column a n ipvt j largestRow
  else finish_column a n ipvt j largestRow.

(** Lines 44-97: the body of the column loop. *)
Definition lu_column (a : list F) (n : Z) (ipvt : list Z) (j : Z)
  : option (flow F) :=
  a ← upper_part a n j;
  '(a, _, largestRow) ← lower_part a n j;
  pivot_column a n ipvt j largestRow.

(** Lines 43-98: [cnt] columns from [j] on, unless one returns. *)
Fixpoint lu_columns (a : list F) (n : Z) (ipvt : list Z) (j : Z) (cnt : nat)
  : option (flow F) :=
  match cnt with
  | O => Some (Next a ipvt)
  | S c =>
      o ← lu_column a n ipvt j;
      match o with
      | Return r => Some (Return r)
      | Next a ipvt => lu_columns a n ipvt (j + 1) c
      end
  end.

(** Lines 25-101. *)
Definition lu_factor (a : list F) (n : Z) (ipvt : list Z)
  : option (result F) :=
  z ← zero_row_check a n 0 (Z.to_nat n);
  match z with
  | Some i => Some (Result ZeroRow i a ipvt)
  | None =>
      o ← lu_columns a n ipvt 0 (Z.to_nat n);
      match o with
      | Return r => Some r
      | Next a ipvt => Some (Result Success (-1) a ipvt)
      end
  end.

(** Lines 118-121 and 131-133: [b[row] = b[i]], handing back the old
    [b[row]]. *)
Definition exchange (ipvt : list Z) (b : list F) (i : Z)
  : option (Z * F * list F) :=
  row ← load ipvt i;
  swap ← load b row;
  x ← load b i;
  b ← store b row x;
  Some (row, swap, b).

(** Lines 116-127: the result is [(bi, i, b)] as the loop leaves them.
    [tr] is a ghost trace: the [(i, row)] of every exchange done so far. *)
Fixpoint permute_scan (ipvt : list Z) (b : list F) (i : Z) (cnt : nat)
    (tr : list (Z * Z)) : option (Z * Z * list F * list (Z * Z)) :=
  match cnt with
  | O => Some (0, i, b, tr)
  | S c =>
      '(row, swap, b) ← exchange ipvt b i;
      b ← store b i swap;
      if negb (feqb swap f0) then Some (i, i + 1, b, tr ++ [(i, row)])
      else permute_scan ipvt b (i + 1) c (tr ++ [(i, row)])
  end.

(** Lines 134-136 and 143-145: [for (j = lo; j < hi; j++) tot -= a[i*n+j] * b[j]]. *)
Definition subtract_dot (a : list F) (n : Z) (b : list F) (i lo hi : Z)
    (tot : F) : option F :=
  for_range lo hi (fun j tot =>
    x ← load a (i * n + j);
    y ← load b j;
    Some (fsub tot (fmul x y))) tot.

(** Lines 130-138, from the [i] the scan stopped at. *)
Definition forward (a : list F) (n : Z) (ipvt : list Z) (bi i : Z)
    (b : list F) (tr : list (Z * Z)) : option (list F * list (Z * Z)) :=
  for_range i n (fun i '(b, tr) =>
    '(row, tot, b) ← exchange ipvt b i;
    tot ← subtract_dot a n b i bi i tot;
    b ← store b i tot;
    Some (b, tr ++ [(i, row)])) (b, tr).

(** Lines 141-147. *)
Definition backward (a : list F) (n : Z) (b : list F) : option (list F) :=
  for_down n (fun i b =>
    tot ← load b i;
    tot ← subtract_dot a n b i (i + 1) n tot;
    d ← load a (i * n + i);
    x ← fdiv tot d;
    store b i x) b.

(** Lines 116-138 with the ghost trace of the exchanges. *)
Definition lu_forward (a : list F) (n : Z) (ipvt : list Z) (b : list F)
  : option (Z * list F * list (Z * Z)) :=
  '(bi, i, b, tr) ← permute_scan ipvt b 0 (Z.to_nat n) [];
  '(b, tr) ← forward a n ipvt bi i b tr;
  Some (bi, b, tr).

(** Lines 112-148: the final [b]. *)
Definition lu_solve (a : list F) (n : Z) (ipvt : list Z) (b : list F)
  : option (list F) :=
  '(_, b, _) ← lu_forward a n ipvt b;
  backward a n b.

End Code.
End Scalar.

(** ** matrix_solver_simd.c *)

Module Simd.
Section Code.
Context {F : Type} `{Arith F}.

(** [v128_t] holding two [double] lanes. *)
Definition v128 : Type := F * F.

Definition f64x2_splat (x : F) : v128 := (x, x).
Definition f64x2_make (x y : F) : v128 := (x, y).
Definition f64x2_mul (u v : v128) : v128 := (fmul u.1 v.1, fmul u.2 v.2).
Definition f64x2_add (u v : v128) : v128 := (fadd u.1 v.1, fadd u.2 v.2).
Definition f64x2_extract_lane (v : v128) (lane : Z) : F :=
  if decide (lane = 0) then v.1 else v.2.

(** [wasm_v128_load(&m[z])] *)
Definition v128_load (m : list F) (z : Z) : option v128 :=
  x ← load m z;
  y ← load m (z + 1);
  Some (x, y).

(** [wasm_v128_store(&m[z], v)] *)
Definition v128_store (m : list F) (z : Z) (v : v128) : option (list F) :=
  m ← store m z v.1;
  store m (z + 1) v.2.

(** Lines 21-42, with [a = &ma[a]] and [b = &mb[b]]. *)
Definition dot_product_simd (ma : list F) (a : Z) (mb : list F) (b : Z)
    (n : Z) : option F :=
  '(i, sum) ← for_pairs 0 n (fun i sum =>
    va ← v128_load ma (a + i);
    vb ← v128_load mb (b + i);
    let prod := f64x2_mul va vb in
    Some (f64x2_add sum prod)) (f64x2_splat f0);
  let result := fadd (f64x2_extract_lane sum 0) (f64x2_extract_lane sum 1) in
  if i <? n then
    x ← load ma (a + i);
    y ← load mb (b + i);
    Some (fadd result (fmul x y))
  else Some result.

(** Lines 48-65, called with [row1 = &a[r1]] and [row2 = &a[r2]]. *)
Definition swap_rows_simd (a : list F) (r1 r2 n : Z) : option (list F) :=
  '(i, a) ← for_pairs 0 n (fun i a =>
    v1 ← v128_load a (r1 + i);
    v2 ← v128_load a (r2 + i);
    a ← v128_store a (r1 + i) v2;
    v128_store a (r2 + i) v1) a;
  if i <? n then
    temp ← load a (r1 + i);
    y ← load a (r2 + i);
    a ← store a (r1 + i) y;
    store a (r2 + i) temp
  else Some a.

(** Lines 70-79, with [a = &m[a]]; the splat of line 71 is not used. *)
Definition scale_column_simd (m : list F) (a : Z) (start end_ stride : Z)
    (scale : F) : option (list F) :=
  let vscale := f64x2_splat scale in
  for_range start end_ (fun i m =>
    x ← load m (a + i * stride);
    store m (a + i * stride) (fmul x scale)) m.

(** Lines 117-119: [for (k = 0; k < hi; k++) q -= a[i*n+k] * a[k*n+j]]. *)
Definition reduce (a : list F) (n i j lo hi : Z) (q : F) : option F :=
  for_range lo hi (fun k q =>
    x ← load a (i * n + k);
    y ← load a (k * n + j);
    Some (fsub q (fmul x y))) q.

(** Lines 111-122. *)
Definition upper_part (a : list F) (n j : Z) : option (list F) :=
  for_range 0 j (fun i a =>
    q ← load a (i * n + j);
    q ← (if 0 <? i then reduce a n i j 0 i q else Some q);
    store a (i * n + j) q) a.

(** Lines 130-155: the reduction of [a[i*n+j]] in the lower part. *)
Definition reduce_lower (a : list F) (n i j : Z) (q : F) : option F :=
  if 1 <? j then
    '(k2, sum) ← for_pairs 0 j (fun k2 sum =>
      a_ik0 ← load a (i * n + k2);
      a_ik1 ← load a (i * n + k2 + 1);
      a_kj0 ← load a (k2 * n + j);
      a_kj1 ← load a ((k2 + 1) * n + j);
      let va := f64x2_make a_ik0 a_ik1 in
      let vb := f64x2_make a_kj0 a_kj1 in
      let prod := f64x2_mul va vb in
      Some (f64x2_add sum prod)) (f64x2_splat f0);
    let q := fsub q (fadd (f64x2_extract_lane sum 0)
                          (f64x2_extract_lane sum 1)) in
    reduce a n i j k2 j q
  else reduce a n i j 0 j q.

(** Lines 125-162; the state is [(a, largest, largestRow)]. *)
Definition lower_part (a : list F) (n j : Z) : option (list F * F * Z) :=
  for_range j n (fun i '(a, largest, largestRow) =>
    q ← load a (i * n + j);
    q ← reduce_lower a n i j q;
    a ← store a (i * n + j) q;
    let x := fabs q in
    if fgeb x largest then Some (a, x, i)
    else Some (a, largest, largestRow)) (a, f0, -1).

(** Lines 184-186. *)
Definition scale_column (a : list F) (n j : Z) (mult : F) : option (list F) :=
  for_range (j + 1) n (fun i a =>
    x ← load a (i * n + j);
    store a (i * n + j) (fmul x mult)) a.

(** Lines 174-187, after the pivot row is in place. *)
Definition finish_column (a : list F) (n : Z) (ipvt : list Z)
    (j largestRow : Z) : option (flow F) :=
  ipvt ← store ipvt j largestRow;
  d ← load a (j * n + j);
  if feqb d f0 then Some (Return (Result ZeroDiag j a ipvt))
  else if decide (j ≠ n - 1) then
    mult ← fdiv f1 d;
    a ← scale_column a n j mult;
    Some (Next a ipvt)
  else Some (Next a ipvt).

(** Lines 165-187. *)
Definition pivot_column (a : list F) (n : Z) (ipvt : list Z)
    (j largestRow : Z) : option (flow F) :=
  if decide (j ≠ largestRow) then
    if decide (largestRow = -1) then Some (Return (Result NoPivot j a ipvt))
    else
      a ← swap_rows_simd a (largestRow * n) (j * n) n;
      finish_column a n ipvt j largestRow
  else finish_column a n ipvt j largestRow.

(** Lines 109-187: the body of the column loop. *)
Definition lu_column (a : list F) (n : Z) (ipvt : list Z) (j : Z)
  : option (flow F) :=
  a ← upper_part a n j;
  '(a, _, largestRow) ← lower_part a n j;
  pivot_column a n ipvt j largestRow.

(** Lines 108-188: [cnt] columns from [j] on, unless one returns. *)
Fixpoint lu_columns (a : list F) (n : Z) (ipvt : list Z) (j : Z) (cnt : nat)
  : option (flow F) :=
  match cnt with
  | O => Some (Next a ipvt)
  | S c =>
      o ← lu_column a n ipvt j;
      match o with
      | Return r => Some (Return r)
      | Next a ipvt => lu_columns a n ipvt (j + 1) c
      end
  end.

(** Lines 90-191; the zero-row check of lines 94-105 is that of the scalar
    file, statement for statement. *)
Definition lu_factor (a : list F) (n : Z) (ipvt : list Z)
  : option (result F) :=
  z ← Scalar.zero_row_check a n 0 (Z.to_nat n);
  match z with
  | Some i => Some (Result ZeroRow i a ipvt)
  | None =>
      o ← lu_columns a n ipvt 0 (Z.to_nat n);
      match o with
      | Return r => Some r
      | Next a ipvt => Some (Result Success (-1) a ipvt)
      end
  end.

(** Lines 226-246 and 253-274: [tot] less the dot product of
    [a[i*n+lo .. i*n+hi)] and [b[lo .. hi)]. *)
Definition subtract_dot (a : list F) (n : Z) (b : list F) (i lo hi : Z)
    (tot : F) : option F :=
  let len := hi - lo in
  if 2 <=? len then
    '(jj, sum) ← for_pairs lo hi (fun jj sum =>
      x0 ← load a (i * n + jj);
      x1 ← load a (i * n + jj + 1);
      let va := f64x2_make x0 x1 in
      vb ← v128_load b jj;
      let prod := f64x2_mul va vb in
      Some (f64x2_add sum prod)) (f64x2_splat f0);
    let tot := fsub tot (fadd (f64x2_extract_lane sum 0)
                              (f64x2_extract_lane sum 1)) in
    Scalar.subtract_dot a n b i jj hi tot
  else Scalar.subtract_dot a n b i lo hi tot.

(** Lines 220-248, from the [i] the scan stopped at. *)
Definition forward (a : list F) (n : Z) (ipvt : list Z) (bi i : Z)
    (b : list F) (tr : list (Z * Z)) : option (list F * list (Z * Z)) :=
  for_range i n (fun i '(b, tr) =>
    '(row, tot, b) ← Scalar.exchange ipvt b i;
    tot ← subtract_dot a n b i bi i tot;
    b ← store b i tot;
    Some (b, tr ++ [(i, row)])) (b, tr).

(** Lines 251-276. *)
Definition backward (a : list F) (n : Z) (b : list F) : option (list F) :=
  for_down n (fun i b =>
    tot ← load b i;
    tot ← subtract_dot a n b i (i + 1) n tot;
    d ← load a (i * n + i);
    x ← fdiv tot d;
    store b i x) b.

(** Lines 206-248 with the ghost trace of the exchanges; the scan of lines
    206-217 is that of the scalar file, statement for statement. *)
Definition lu_forward (a : list F) (n : Z) (ipvt : list Z) (b : list F)
  : option (Z * list F * list (Z * Z)) :=
  '(bi, i, b, tr) ← Scalar.permute_scan ipvt b 0 (Z.to_nat n) [];
  '(b, tr) ← forward a n ipvt bi i b tr;
  Some (bi, b, tr).

(** Lines 202-277: the final [b]. *)
Definition lu_solve (a : list F) (n : Z) (ipvt : list Z) (b : list F)
  : option (list F) :=
  '(_, b, _) ← lu_forward a n ipvt b;
  backward a n b.

End Code.
End Simd.

(** * Vocabulary of the specifications *)

(** The buffer [a] holds an [n] by [n] matrix. *)
Definition mat_ok {A} (a : list A) (n : Z) : Prop :=
  0 <= n /\ n * n <= Z.of_nat (length a).

(** The buffer [b] holds [n] entries. *)
Definition vec_ok {A} (b : list A) (n : Z) : Prop :=
  n <= Z.of_nat (length b).

(** ** Properties of a run, for any arithmetic *)

(** The least [int], 32 bits wide on the WASM targets. *)
Definition INT_MIN : Z := - 2 ^ 31.

Section Vocabulary.
Context {F : Type} `{Arith F}.
Implicit Types (a : list F) (ipvt : list Z) (n i j : Z).

(** Every entry of row [i] compares equal to [0.0]. *)
Definition zero_row a n i : Prop :=
  forall j, 0 <= j < n ->
    exists x, load a (i * n + j) = Some x /\ feqb x f0 = true.

(** What the pre-check of lines 29-40 finds, rows [i .. i + cnt - 1]. *)
Definition first_zero_row a n i cnt (z : option Z) : Prop :=
  match z with
  | Some r =>
      i <= r < i + Z.of_nat cnt /\ zero_row a n r /\
      forall k, i <= k < r -> ~ zero_row a n k
  | None => forall k, i <= k < i + Z.of_nat cnt -> ~ zero_row a n k
  end.

(** The row [lu_factor] selects as pivot when it processes column [j] in
    the state [(a, ipvt)]: the [largestRow] left by lines 46-68. *)
Definition selected_pivot a n j : option Z :=
  au ← Scalar.upper_part a n j;
  '(_, _, largestRow) ← Scalar.lower_part au n j;
  Some largestRow.

(** The [ipvt] buffer that a pass of the column loop leaves. *)
Definition flow_pivots (o : flow F) : list Z :=
  match o with
  | Return r => pivots r
  | Next _ ipvt => ipvt
  end.

(** The matrix buffer that a pass of the column loop leaves. *)
Definition flow_matrix (o : flow F) : list F :=
  match o with
  | Return r => matrix r
  | Next a _ => a
  end.

(** Two passes of the column loop end alike, whatever they leave in
    [ipvt]. *)
Definition same_but_pivots (o1 o2 : flow F) : Prop :=
  match o1, o2 with
  | Return r1, Return r2 =>
      exit r2 = exit r1 /\ value r2 = value r1 /\ matrix r2 = matrix r1
  | Next a1 _, Next a2 _ => a2 = a1
  | _, _ => False
  end.

(** The column at which the column loop is after the pass that left [o],
    [j] being the next one when it goes on. *)
Definition columns_reached (o : flow F) (j : Z) : Z :=
  match o with
  | Return r => value r
  | Next _ _ => j
  end.

(** Column [j] of the run of [lu_factor] that left [r] was completed:
    the column loop got past it. *)
Definition column_completed (r : result F) (n j : Z) : Prop :=
  match exit r with
  | ZeroRow => False
  | NoPivot | ZeroDiag => 0 <= j < value r
  | Success => 0 <= j < n
  end.

(** [ipvt[i]] *)
Definition pivot_at ipvt i : Z := default 0 (load ipvt i).

(** Every [ipvt[i]], [0 <= i < n], is a row index. *)
Definition pivots_in_range ipvt n : Prop :=
  forall i, 0 <= i < n -> exists row, load ipvt i = Some row /\ 0 <= row < n.

(** The exchanges of rows [0 .. i - 1], each once, in order. *)
Definition exchanges_upto ipvt i : list (Z * Z) :=
  (fun k => (k, pivot_at ipvt k)) <$> seqZ 0 i.




(** Every candidate of column [j] stored in [a] fails [fabs(q) >= 0.0]. *)
Definition no_candidate a n j (hi : Z) : Prop :=
  forall i, j <= i < hi ->
    exists q, load a (i * n + j) = Some q /\ fgeb (fabs q) f0 = false.

End Vocabulary.

(** The arithmetic carries out a division [x / d] whenever [d == 0.0] is
    false; both instances do. *)
Definition division_guarded (F : Type) `{Arith F} : Prop :=
  forall x d : F, feqb d f0 = false -> is_Some (fdiv x d).

(** ** The order of binary64 *)

(** The place of a binary float in the order: none for a NaN. *)
Definition sf_key (x : spec_float) : option (Z * Z * Z) :=
  match x with
  | S754_nan => None
  | S754_zero _ => Some (0, 0, 0)
  | S754_infinity true => Some (-2, 0, 0)
  | S754_infinity false => Some (2, 0, 0)
  | S754_finite false m e => Some (1, e, Z.pos m)
  | S754_finite true m e => Some (-1, - e, - Z.pos m)
  end.

Definition key_le (k1 k2 : Z * Z * Z) : Prop :=
  k1.1.1 < k2.1.1 \/
  k1.1.1 = k2.1.1 /\ (k1.1.2 < k2.1.2 \/ k1.1.2 = k2.1.2 /\ k1.2 <= k2.2).

Definition sf_le (x y : spec_float) : Prop :=
  match sf_key x, sf_key y with
  | Some k1, Some k2 => key_le k1 k2
  | _, _ => False
  end.

(** ** Exact arithmetic: sums, matrices and vectors *)

Fixpoint sum_n (f : nat -> Qc) (c : nat) : Qc :=
  match c with
  | O => 0%Qc
  | S c' => (sum_n f c' + f c')%Qc
  end.

(** The sum of [f k] over [lo <= k < hi]. *)
Definition sumZ (lo hi : Z) (f : Z -> Qc) : Qc :=
  sum_n (fun k => f (lo + Z.of_nat k)) (Z.to_nat (hi - lo)).

(** Entry [(i, j)] of the matrix in [a]. *)
Definition M (a : list Qc) (n i j : Z) : Qc := default 0%Qc (load a (i * n + j)).

(** Entry [i] of the vector in [b]. *)
Definition V (b : list Qc) (i : Z) : Qc := default 0%Qc (load b i).

(** ** Exact arithmetic: the factorisation *)

(** What the pivot search has found once rows [j .. i0 - 1] are reduced. *)
Definition pivot_found (s : list Qc) (n j i0 : Z) (largest : Qc)
    (largestRow : Z) : Prop :=
  (i0 = j -> largestRow = -1 /\ largest = 0%Qc) /\
  (j < i0 ->
     j <= largestRow < i0 /\
     largest = Qcabs (M s n largestRow j) /\
     (forall i, j <= i < i0 -> (Qcabs (M s n i j) <= largest)%Qc) /\
     (forall i, largestRow < i < i0 -> (Qcabs (M s n i j) < largest)%Qc)).

(** The row that ends up at [i] when rows [r1] and [r2] are exchanged. *)
Definition swapped (r1 r2 i : Z) : Z :=
  if decide (i = r1) then r2 else if decide (i = r2) then r1 else i.

(** Row [i] of the upper factor, column [c]: [a[i][c]] is what is left of
    [A i c] once the first [i] terms of the product are taken off. *)
Definition upper_eq (A : Z -> Z -> Qc) (a : list Qc) (n i c : Z) : Prop :=
  (M a n i c + sumZ 0 i (fun k => M a n i k * M a n k c))%Qc = A i c.

(** Row [i] of the lower factor, column [c]: [a[i][c]] is the multiplier. *)
Definition lower_eq (A : Z -> Z -> Qc) (a : list Qc) (n i c : Z) : Prop :=
  (M a n i c * M a n c c + sumZ 0 c (fun k => M a n i k * M a n k c))%Qc
  = A i c.

(** Column [c] below the diagonal before it is scaled. *)
Definition reduced_eq (A : Z -> Z -> Qc) (a : list Qc) (n i c : Z) : Prop :=
  (M a n i c + sumZ 0 c (fun k => M a n i k * M a n k c))%Qc = A i c.

(** [a] holds the factors of the first [j] columns of [A] and the other
    columns of [A] as they are. *)
Definition factored (A : Z -> Z -> Qc) (a : list Qc) (n j : Z) : Prop :=
  mat_ok a n /\
  (forall i c, 0 <= c < j -> 0 <= i <= c -> upper_eq A a n i c) /\
  (forall i c, 0 <= c < j -> c < i < n -> lower_eq A a n i c) /\
  (forall i c, 0 <= i < n -> j <= c < n -> M a n i c = A i c) /\
  (forall c, 0 <= c < j -> M a n c c <> 0%Qc).

(** As [factored], with column [j] reduced but neither pivoted nor scaled. *)
Definition reduced (A : Z -> Z -> Qc) (a : list Qc) (n j : Z) : Prop :=
  mat_ok a n /\
  (forall i c, 0 <= c < j -> 0 <= i <= c -> upper_eq A a n i c) /\
  (forall i c, 0 <= c < j -> c < i < n -> lower_eq A a n i c) /\
  (forall i, 0 <= i < j -> upper_eq A a n i j) /\
  (forall i, j <= i < n -> reduced_eq A a n i j) /\
  (forall i c, 0 <= i < n -> j < c < n -> M a n i c = A i c) /\
  (forall c, 0 <= c < j -> M a n c c <> 0%Qc).

(** The row of the original matrix that is at row [i] once the exchanges
    of columns [0 .. k - 1] are done, [p c] being the pivot row of column
    [c]. *)
Fixpoint origin (p : Z -> Z) (k : nat) (i : Z) : Z :=
  match k with
  | O => i
  | S k' => origin p k' (swapped (Z.of_nat k') (p (Z.of_nat k')) i)
  end.

(** The state of [lu_factor] when the column loop reaches column [j]:
    [a] holds the factors of the first [j] columns of the original matrix
    [a0] with its rows exchanged as [ipvt[0 .. j - 1]] records. *)
Definition columns_done (a0 : list Qc) (n j : Z) (a : list Qc)
    (ipvt : list Z) : Prop :=
  vec_ok ipvt n /\
  length a = length a0 /\
  (forall c, 0 <= c < j -> c <= pivot_at ipvt c < n) /\
  factored (fun i c => M a0 n (origin (pivot_at ipvt) (Z.to_nat j) i) c) a n j.

(** ** Exact arithmetic: the substitutions *)

(** [ipvt] is a pivot vector as [lu_factor] leaves it: the pivot row of
    column [c] is [c] or a later row. *)
Definition pivots_valid (ipvt : list Z) (n : Z) : Prop :=
  vec_ok ipvt n /\ forall c, 0 <= c < n -> c <= pivot_at ipvt c < n.

(** Rows [0 .. i - 1] of [b] are forward-substituted and the others are
    those of [b0] with the exchanges of rows [0 .. i - 1] done. *)
Definition forward_done (a : list Qc) (n : Z) (p : Z -> Z) (b0 : list Qc)
    (i : Z) (b : list Qc) : Prop :=
  vec_ok b n /\
  (forall k, i <= k < n -> V b k = V b0 (origin p (Z.to_nat i) k)) /\
  (forall k, 0 <= k < i ->
     (V b k + sumZ 0 k (fun c => M a n k c * V b c))%Qc
     = V b0 (origin p (Z.to_nat i) k)).

(** Rows [i .. n - 1] of [b] are back-substituted and rows [0 .. i - 1]
    are those of [y]. *)
Definition backward_done (a : list Qc) (n : Z) (y : list Qc) (i : Z)
    (b : list Qc) : Prop :=
  vec_ok b n /\
  (forall k, 0 <= k < i -> V b k = V y k) /\
  (forall k, i <= k < n ->
     sumZ k n (fun c => M a n k c * V b c)%Qc = V y k).

(** The unit lower factor held below the diagonal of [a]. *)
Definition Lf (a : list Qc) (n i k : Z) : Qc :=
  if decide (k < i) then M a n i k
  else if decide (k = i) then 1%Qc else 0%Qc.

(** The upper factor held on and above the diagonal of [a]. *)
Definition Uf (a : list Qc) (n k c : Z) : Qc :=
  if decide (k <= c) then M a n k c else 0%Qc.

(** ** Exact arithmetic: singular matrices *)

(** A combination of the rows of [a], not all coefficients zero, is zero. *)
Definition rows_dependent (a : list Qc) (n : Z) : Prop :=
  exists v : Z -> Qc,
    (exists i, 0 <= i < n /\ v i <> 0%Qc) /\
    forall c, 0 <= c < n -> sumZ 0 n (fun i => v i * M a n i c)%Qc = 0%Qc.

(** [a] takes a nonzero vector to zero. *)
Definition null_vector (a : list Qc) (n : Z) : Prop :=
  exists x : Z -> Qc,
    (exists c, 0 <= c < n /\ x c <> 0%Qc) /\
    forall i, 0 <= i < n -> sumZ 0 n (fun c => M a n i c * x c)%Qc = 0%Qc.

(** The matrix in [a] is singular: its rows are dependent, or (what comes
    to the same for a square matrix) its columns are. *)
Definition singular (a : list Qc) (n : Z) : Prop :=
  rows_dependent a n \/ null_vector a n.

(** The [i0]-th unit vector of length [n]. *)
Definition unit_vector (n i0 : Z) : list Qc :=
  <[Z.to_nat i0 := 1%Qc]> (replicate (Z.to_nat n) 0%Qc).

(** ** Exact arithmetic: the loops of the SIMD build *)

(** [q] less the term of index [k]. *)
Definition sub_term (term : Z -> option Qc) (k : Z) (q : Qc) : option Qc :=
  t ← term k; Some (q - t)%Qc.

(** The two lanes of [s] plus the terms of indices [k] and [k + 1]. *)
Definition add_pair (term : Z -> option Qc) (k : Z) (s : Qc * Qc)
  : option (Qc * Qc) :=
  t0 ← term k; t1 ← term (k + 1); Some (s.1 + t0, s.2 + t1)%Qc.

(** Lines 76-80 of the scalar file, the body of the loop. *)
Definition swap_entry (n largestRow j k : Z) (a : list Qc)
  : option (list Qc) :=
  x ← load a (largestRow * n + k);
  y ← load a (j * n + k);
  a ← store a (largestRow * n + k) y;
  store a (j * n + k) x.

(** ** Any arithmetic: the exchange of two entries *)

(** The body of the exchange loops: [m[r1 + k]] and [m[r2 + k]] change
    places. *)
Definition swap_at {A} (r1 r2 k : Z) (m : list A) : option (list A) :=
  x ← load m (r1 + k);
  y ← load m (r2 + k);
  m ← store m (r1 + k) y;
  store m (r2 + k) x.

(** ** Concrete inputs *)

(** The rational [z]. *)
Definition qc (z : Z) : Qc := Q2Qc (inject_Z z).

(** [[4 3; 6 3]] *)
Definition a_2x2 : list Qc := map qc [4; 3; 6; 3].

(** [[1 1; 1 1]], two identical rows. *)
Definition a_twin : list Qc := map qc [1; 1; 1; 1].

(** [[2 1; -2 3]] in binary64, a tie in column 0. *)
Definition a_tie : list float := [2; 1; -2; 3]%float.

(** [[2^-1074 1; 0 1]] in binary64: no entry is NaN, and the second
    column reduces to NaN. *)
Definition a_subnormal : list float := [0x1p-1074; 1; 0; 1]%float.

(** * Buffers and loops: basic facts *)

Section Buffers.
Context {A : Type}.
Implicit Types (m : list A) (z : Z) (v : A).

Lemma load_Some m z v :
  load m z = Some v <-> 0 <= z /\ m !! Z.to_nat z = Some v.
Proof.
  unfold load. destruct (Z.ltb_spec z 0); split.
  - discriminate.
  - intros [? _]; lia.
  - auto.
  - intros [_ ?]; auto.
Qed.

Lemma load_in_range m z :
  0 <= z < Z.of_nat (length m) -> exists v, load m z = Some v.
Proof.
  intros Hz. destruct (lookup_lt_is_Some_2 m (Z.to_nat z)) as [v Hv]; [lia|].
  exists v. apply load_Some. split; [lia | done].
Qed.

Lemma load_range m z v : load m z = Some v -> 0 <= z < Z.of_nat (length m).
Proof.
  intros [? Hl]%load_Some. apply lookup_lt_Some in Hl. lia.
Qed.

Lemma store_Some m z v m' :
  store m z v = Some m' <->
  0 <= z < Z.of_nat (length m) /\ m' = <[Z.to_nat z := v]> m.
Proof.
  unfold store. destruct (Z.ltb_spec z 0).
  - split; [discriminate | lia].
  - destruct (Nat.ltb_spec (Z.to_nat z) (length m)); split.
    + intros [= <-]. split; [lia | done].
    + intros [_ ->]. done.
    + discriminate.
    + lia.
Qed.

Lemma store_in_range m z v :
  0 <= z < Z.of_nat (length m) -> store m z v = Some (<[Z.to_nat z := v]> m).
Proof. intros. by apply store_Some. Qed.

Lemma store_length m z v m' : store m z v = Some m' -> length m' = length m.
Proof. intros [_ ->]%store_Some. apply length_insert. Qed.

Lemma load_store_eq m z v m' : store m z v = Some m' -> load m' z = Some v.
Proof.
  intros [? ->]%store_Some. apply load_Some. split; [lia|].
  apply list_lookup_insert_eq. lia.
Qed.

Lemma load_store_ne m z v m' z' :
  store m z v = Some m' -> z <> z' -> load m' z' = load m z'.
Proof.
  intros [? ->]%store_Some Hne. unfold load.
  destruct (Z.ltb_spec z' 0); [done|].
  apply list_lookup_insert_ne. lia.
Qed.

End Buffers.

Section Loops.
Context {T : Type}.
Implicit Types (body : Z -> T -> option T) (s : T).

(** Total correctness of a counting loop from an invariant. *)
Lemma for_invariant (I : Z -> T -> Prop) body lo cnt s :
  I lo s ->
  (forall i s, lo <= i < lo + Z.of_nat cnt -> I i s ->
     exists s', body i s = Some s' /\ I (i + 1) s') ->
  exists s', for_ lo cnt body s = Some s' /\ I (lo + Z.of_nat cnt) s'.
Proof.
  revert lo s. induction cnt as [|c IH]; intros lo s H0 Hstep; simpl.
  - exists s. split; [done|]. by replace (lo + Z.of_nat 0) with lo by lia.
  - destruct (Hstep lo s) as (s1 & -> & H1); [lia | done |]. simpl.
    destruct (IH (lo + 1) s1) as (s' & Hs' & HI); [done | |].
    + intros i s2 Hi. apply Hstep. lia.
    + exists s'. split; [done|].
      by replace (lo + Z.of_nat (S c)) with (lo + 1 + Z.of_nat c) by lia.
Qed.

Lemma for_range_invariant (I : Z -> T -> Prop) body lo hi s :
  lo <= hi ->
  I lo s ->
  (forall i s, lo <= i < hi -> I i s ->
     exists s', body i s = Some s' /\ I (i + 1) s') ->
  exists s', for_range lo hi body s = Some s' /\ I hi s'.
Proof.
  intros Hle H0 Hstep.
  destruct (for_invariant I body lo (Z.to_nat (hi - lo)) s) as (s' & ? & HI);
    [done | |].
  - intros i s1 Hi. apply Hstep. lia.
  - exists s'. split; [done|].
    by replace (lo + Z.of_nat (Z.to_nat (hi - lo))) with hi in HI by lia.
Qed.

(** What a counting loop returns satisfies every invariant of its body. *)
Lemma for_returned (I : Z -> T -> Prop) body lo cnt s s' :
  for_ lo cnt body s = Some s' ->
  I lo s ->
  (forall i s s', lo <= i < lo + Z.of_nat cnt -> I i s ->
     body i s = Some s' -> I (i + 1) s') ->
  I (lo + Z.of_nat cnt) s'.
Proof.
  revert lo s. induction cnt as [|c IH]; intros lo s Hrun H0 Hstep; simpl in *.
  - injection Hrun as <-. by replace (lo + Z.of_nat 0) with lo by lia.
  - destruct (body lo s) as [s1|] eqn:Hb; [|discriminate]. simpl in Hrun.
    replace (lo + Z.of_nat (S c)) with (lo + 1 + Z.of_nat c) by lia.
    apply (IH (lo + 1) s1); [done | |].
    + apply (Hstep lo s); [lia | done | done].
    + intros i s2 s3 Hi. apply Hstep. lia.
Qed.

Lemma for_range_returned (I : Z -> T -> Prop) body lo hi s s' :
  for_range lo hi body s = Some s' ->
  lo <= hi ->
  I lo s ->
  (forall i s s', lo <= i < hi -> I i s ->
     body i s = Some s' -> I (i + 1) s') ->
  I hi s'.
Proof.
  intros Hrun Hle H0 Hstep.
  replace hi with (lo + Z.of_nat (Z.to_nat (hi - lo))) by lia.
  apply (for_returned I body lo _ s); [done | done |].
  intros i s1 s2 Hi. apply Hstep. lia.
Qed.

Lemma for_range_empty body lo hi s : hi <= lo -> for_range lo hi body s = Some s.
Proof. intros. unfold for_range. by replace (Z.to_nat (hi - lo)) with O by lia. Qed.

Lemma for_split body lo c1 c2 s :
  for_ lo (c1 + c2) body s = s' ← for_ lo c1 body s; for_ (lo + Z.of_nat c1) c2 body s'.
Proof.
  revert lo s. induction c1 as [|c1 IH]; intros lo s; simpl.
  - by replace (lo + Z.of_nat 0) with lo by lia.
  - destruct (body lo s) as [s1|]; simpl; [|done].
    rewrite IH. by replace (lo + 1 + Z.of_nat c1) with (lo + Z.of_nat (S c1)) by lia.
Qed.

Lemma for_ext body1 body2 lo cnt s :
  (forall i s, lo <= i < lo + Z.of_nat cnt -> body1 i s = body2 i s) ->
  for_ lo cnt body1 s = for_ lo cnt body2 s.
Proof.
  revert lo s. induction cnt as [|c IH]; intros lo s Hb; simpl; [done|].
  rewrite Hb by lia. destruct (body2 lo s) as [s1|]; simpl; [|done].
  apply IH. intros. apply Hb. lia.
Qed.

Lemma for_down_count_invariant (I : Z -> T -> Prop) body c s :
  I (Z.of_nat c) s ->
  (forall i s, 0 <= i < Z.of_nat c -> I (i + 1) s ->
     exists s', body i s = Some s' /\ I i s') ->
  exists s', for_down_ (Z.of_nat c - 1) c body s = Some s' /\ I 0 s'.
Proof.
  revert s. induction c as [|c IH]; intros s H0 Hstep.
  - exists s. done.
  - destruct (Hstep (Z.of_nat (S c) - 1) s) as (s1 & Hb & H1); [lia | |].
    { by replace (Z.of_nat (S c) - 1 + 1) with (Z.of_nat (S c)) by lia. }
    simpl for_down_. rewrite Hb. simpl.
    replace (Z.of_nat (S c) - 1 - 1) with (Z.of_nat c - 1) by lia.
    apply IH.
    + by replace (Z.of_nat c) with (Z.of_nat (S c) - 1) by lia.
    + intros i s2 Hi. apply Hstep. lia.
Qed.

Lemma for_down_invariant (I : Z -> T -> Prop) body hi s :
  0 <= hi ->
  I hi s ->
  (forall i s, 0 <= i < hi -> I (i + 1) s ->
     exists s', body i s = Some s' /\ I i s') ->
  exists s', for_down hi body s = Some s' /\ I 0 s'.
Proof.
  unfold for_down. intros Hhi H0 Hstep.
  replace (hi - 1) with (Z.of_nat (Z.to_nat hi) - 1) by lia.
  apply for_down_count_invariant.
  - by replace (Z.of_nat (Z.to_nat hi)) with hi by lia.
  - intros i s1 Hi. apply Hstep. lia.
Qed.

End Loops.

(** * Properties that hold for any arithmetic *)

Lemma index_in_range n i j :
  0 <= i < n -> 0 <= j < n -> 0 <= i * n + j < n * n.
Proof.
  intros Hi Hj.
  assert (0 <= i * n) by (apply Z.mul_nonneg_nonneg; lia).
  assert (i * n <= (n - 1) * n) by (apply Z.mul_le_mono_nonneg_r; lia).
  lia.
Qed.

Lemma index_inj n i j i' j' :
  0 <= j < n -> 0 <= j' < n -> i * n + j = i' * n + j' -> i = i' /\ j = j'.
Proof.
  intros Hj Hj' Heq.
  assert (i = i') as ->; [|lia].
  destruct (Z.lt_trichotomy i i') as [Hlt|[->|Hlt]]; [|done|]; exfalso.
  - assert ((i + 1) * n <= i' * n) by (apply Z.mul_le_mono_nonneg_r; lia). lia.
  - assert ((i' + 1) * n <= i * n) by (apply Z.mul_le_mono_nonneg_r; lia). lia.
Qed.

Lemma mat_load {A} (a : list A) n i j :
  mat_ok a n -> 0 <= i < n -> 0 <= j < n -> exists x, load a (i * n + j) = Some x.
Proof.
  intros [? ?] Hi Hj. apply load_in_range.
  pose proof (index_in_range n i j Hi Hj). lia.
Qed.

Section AnyArith.
Context {F : Type} `{Arith F}.
Implicit Types (a : list F) (ipvt : list Z) (n i j : Z).

Lemma row_all_zeros_spec a n i j cnt :
  (forall k, j <= k < j + Z.of_nat cnt -> exists x, load a (i * n + k) = Some x) ->
  exists z, Scalar.row_all_zeros a n i j cnt = Some z /\
    (z = true <->
     forall k, j <= k < j + Z.of_nat cnt ->
       exists x, load a (i * n + k) = Some x /\ feqb x f0 = true).
Proof.
  revert j. induction cnt as [|c IH]; intros j Hrd; simpl.
  - exists true. split; [done|]. split; [|done]. intros _ k ?. lia.
  - destruct (Hrd j) as [x Hx]; [lia|]. rewrite Hx. simpl.
    destruct (feqb x f0) eqn:Hz; simpl.
    + destruct (IH (j + 1)) as (z & -> & Hiff); [intros; apply Hrd; lia|].
      exists z. split; [done|]. rewrite Hiff. split.
      * intros Hall k Hk. destruct (decide (k = j)) as [->|]; [eauto|].
        apply Hall. lia.
      * intros Hall k Hk. apply Hall. lia.
    + exists false. split; [done|]. split; [done|].
      intros Hall. destruct (Hall j) as (x' & Hx' & Hz'); [lia|]. congruence.
Qed.

Lemma row_all_zeros_decides a n i :
  mat_ok a n -> 0 <= i < n ->
  exists z, Scalar.row_all_zeros a n i 0 (Z.to_nat n) = Some z /\
    (z = true <-> zero_row a n i).
Proof.
  intros Hok Hi.
  destruct (row_all_zeros_spec a n i 0 (Z.to_nat n)) as (z & Hz & Hiff).
  - intros k Hk. apply mat_load; [done | done | lia].
  - exists z. split; [done|]. rewrite Hiff. unfold zero_row.
    split; intros Hall k Hk; apply Hall; lia.
Qed.

Lemma zero_row_check_spec a n i cnt :
  mat_ok a n -> 0 <= i -> i + Z.of_nat cnt <= n ->
  exists z, Scalar.zero_row_check a n i cnt = Some z /\
    first_zero_row a n i cnt z.
Proof.
  intros Hok. revert i. induction cnt as [|c IH]; intros i Hi Hn.
  - exists None. split; [done|]. simpl. intros; lia.
  - simpl. destruct (row_all_zeros_decides a n i) as (z & -> & Hiff);
      [done | lia |]. simpl.
    destruct z.
    + exists (Some i). split; [done|]. simpl. split; [lia|].
      split; [by apply Hiff | intros; lia].
    + destruct (IH (i + 1)) as (z & -> & Hz); [lia | lia |].
      exists z. split; [done|].
      assert (~ zero_row a n i) as Hni.
      { intros Hzr. apply Hiff in Hzr. discriminate. }
      destruct z as [r|]; simpl in *.
      * destruct Hz as (Hr & Hzr & Hfirst). split; [lia|]. split; [done|].
        intros k Hk. destruct (decide (k = i)) as [->|]; [done|].
        apply Hfirst. lia.
      * intros k Hk. destruct (decide (k = i)) as [->|]; [done|].
        apply Hz. lia.
Qed.

(** C3: when row [r] is the first all-zero row of the matrix, [lu_factor]
    returns [r] from the pre-check, before any column is processed, and
    leaves the matrix buffer and [ipvt] exactly as they were passed. *)
Theorem lu_factor_zero_row a n ipvt r :
  mat_ok a n ->
  0 <= r < n ->
  zero_row a n r ->
  (forall i, 0 <= i < r -> ~ zero_row a n i) ->
  Scalar.lu_factor a n ipvt = Some (Result ZeroRow r a ipvt).
Proof.
  intros Hok Hr Hz Hfirst. unfold Scalar.lu_factor.
  destruct (zero_row_check_spec a n 0 (Z.to_nat n)) as (z & -> & Hspec);
    [done | lia | lia |]. simpl.
  destruct z as [r'|]; simpl in Hspec.
  - destruct Hspec as (Hr' & Hz' & Hfirst').
    destruct (Z.lt_trichotomy r r') as [Hlt|[->|Hlt]]; [|done|].
    + exfalso. apply (Hfirst' r); [lia | done].
    + exfalso. apply (Hfirst r'); [lia | done].
  - exfalso. apply (Hspec r); [lia | done].
Qed.

(** ** The pivot vector *)

Lemma finish_column_pivots a n ipvt j lr o :
  Scalar.finish_column a n ipvt j lr = Some o ->
  store ipvt j lr = Some (flow_pivots o) /\
  match o with
  | Return r => exit r = ZeroDiag /\ value r = j
  | Next _ _ => True
  end.
Proof.
  unfold Scalar.finish_column. intros Hrun.
  destruct (store ipvt j lr) as [ipvt'|]; [|discriminate]. simpl in Hrun.
  destruct (load a (j * n + j)) as [d|]; [|discriminate]. simpl in Hrun.
  destruct (feqb d f0).
  - injection Hrun as <-. done.
  - destruct (decide (j ≠ n - 1)).
    + destruct (fdiv f1 d) as [mult|]; [|discriminate]. simpl in Hrun.
      destruct (Scalar.scale_column a n j mult); [|discriminate].
      injection Hrun as <-. done.
    + injection Hrun as <-. done.
Qed.

Lemma lu_column_pivots a n ipvt j o :
  Scalar.lu_column a n ipvt j = Some o ->
  exists lr, selected_pivot a n j = Some lr /\
  match o with
  | Next _ ipvt' => store ipvt j lr = Some ipvt'
  | Return r =>
      value r = j /\
      (exit r = NoPivot /\ pivots r = ipvt \/
       exit r = ZeroDiag /\ store ipvt j lr = Some (pivots r))
  end.
Proof.
  unfold Scalar.lu_column, selected_pivot. intros Hrun.
  destruct (Scalar.upper_part a n j) as [au|]; [|discriminate]. simpl in *.
  destruct (Scalar.lower_part au n j) as [[[a1 largest] lr]|]; [|discriminate].
  simpl in *. exists lr. split; [done|].
  unfold Scalar.pivot_column in Hrun.
  assert (forall a2, Scalar.finish_column a2 n ipvt j lr = Some o ->
    match o with
    | Next _ ipvt' => store ipvt j lr = Some ipvt'
    | Return r =>
        value r = j /\
        (exit r = NoPivot /\ pivots r = ipvt \/
         exit r = ZeroDiag /\ store ipvt j lr = Some (pivots r))
    end) as Hfin.
  { intros a2 [Hst Ho]%finish_column_pivots. destruct o; simpl in *; [|done].
    destruct Ho. auto. }
  destruct (decide (j ≠ lr)); [|by eapply Hfin].
  destruct (decide (lr = -1)).
  - injection Hrun as <-. simpl. auto.
  - destruct (Scalar.swap_rows a1 n lr j) as [a2|]; [|discriminate].
    by eapply Hfin.
Qed.

Lemma lu_columns_keeps a n ipvt j0 cnt o j :
  Scalar.lu_columns a n ipvt j0 cnt = Some o ->
  j < j0 ->
  load (flow_pivots o) j = load ipvt j.
Proof.
  revert a ipvt j0. induction cnt as [|c IH]; intros a ipvt j0 Hrun Hj.
  - by injection Hrun as <-.
  - simpl in Hrun.
    destruct (Scalar.lu_column a n ipvt j0) as [o1|] eqn:Hcol; [|discriminate].
    simpl in Hrun. apply lu_column_pivots in Hcol as (lr & _ & Ho1).
    destruct o1 as [r1|a1 ipvt1].
    + injection Hrun as <-. simpl. destruct Ho1 as [_ [[_ ->]|[_ Hst]]]; [done|].
      eapply load_store_ne; [done | lia].
    + rewrite (IH _ _ _ Hrun) by lia. eapply load_store_ne; [done | lia].
Qed.

Lemma lu_columns_pivots a n ipvt j0 cnt o :
  Scalar.lu_columns a n ipvt j0 cnt = Some o ->
  let stop := match o with
              | Return r => value r
              | Next _ _ => j0 + Z.of_nat cnt
              end in
  j0 <= stop <= j0 + Z.of_nat cnt /\
  match o with
  | Return r => exit r = NoPivot \/ exit r = ZeroDiag
  | Next _ _ => True
  end /\
  forall j, j0 <= j < stop ->
    exists aj ipvtj lr ipvt',
      Scalar.lu_columns a n ipvt j0 (Z.to_nat (j - j0)) = Some (Next aj ipvtj) /\
      selected_pivot aj n j = Some lr /\
      store ipvtj j lr = Some ipvt' /\
      load (flow_pivots o) j = Some lr.
Proof.
  revert a ipvt j0. induction cnt as [|c IH]; intros a ipvt j0 Hrun.
  - injection Hrun as <-. simpl. split; [lia|]. split; [done|]. intros; lia.
  - simpl in Hrun.
    destruct (Scalar.lu_column a n ipvt j0) as [o1|] eqn:Hcol; [|discriminate].
    simpl in Hrun. pose proof Hcol as (lr & Hsel & Ho1)%lu_column_pivots.
    destruct o1 as [r1|a1 ipvt1].
    + injection Hrun as <-. simpl. destruct Ho1 as [-> Hex].
      split; [lia|]. split; [tauto|]. intros; lia.
    + pose proof (IH _ _ _ Hrun) as (Hstop & Hexit & Hcols). simpl in *.
      set (stop := match o with Return r => value r | Next _ _ => _ end) in *.
      replace (j0 + Z.of_nat (S c)) with (j0 + 1 + Z.of_nat c) by lia.
      split; [lia|]. split; [done|].
      intros j Hj. destruct (decide (j = j0)) as [->|Hne].
      * exists a, ipvt, lr, ipvt1. replace (Z.to_nat (j0 - j0)) with O by lia.
        split; [done|]. split; [done|]. split; [done|].
        rewrite (lu_columns_keeps _ _ _ _ _ _ j0 Hrun) by lia.
        by eapply load_store_eq.
      * destruct (Hcols j) as (aj & ipvtj & lrj & ipvt' & Hpre & Hrest); [lia|].
        exists aj, ipvtj, lrj, ipvt'. split; [|done].
        replace (Z.to_nat (j - j0)) with (S (Z.to_nat (j - (j0 + 1)))) by lia.
        simpl. by rewrite Hcol.
Qed.

(** C7: for every column [j] that [lu_factor] completes, [ipvt[j]] is
    written with the pivot row [largestRow] selected for that column, and
    the pivot vector that [lu_factor] leaves still holds it; with no row
    swap ([largestRow = j]) the entry written is [j]. *)
Theorem lu_factor_records_pivot a n ipvt r j :
  Scalar.lu_factor a n ipvt = Some r ->
  column_completed r n j ->
  exists aj ipvtj largestRow ipvt',
    Scalar.lu_columns a n ipvt 0 (Z.to_nat j) = Some (Next aj ipvtj) /\
    selected_pivot aj n j = Some largestRow /\
    store ipvtj j largestRow = Some ipvt' /\
    load (pivots r) j = Some largestRow /\
    (largestRow = j -> load (pivots r) j = Some j).
Proof.
  unfold Scalar.lu_factor, column_completed. intros Hrun Hdone.
  destruct (Scalar.zero_row_check a n 0 (Z.to_nat n)) as [[i|]|];
    simpl in Hrun; [by injection Hrun as <- | | discriminate].
  destruct (Scalar.lu_columns a n ipvt 0 (Z.to_nat n)) as [o|] eqn:Hcols;
    [|discriminate]. simpl in Hrun.
  pose proof (lu_columns_pivots _ _ _ _ _ _ Hcols) as (Hstop & Hexit & Hall).
  simpl in *.
  assert (exists aj ipvtj lr ipvt',
    Scalar.lu_columns a n ipvt 0 (Z.to_nat j) = Some (Next aj ipvtj) /\
    selected_pivot aj n j = Some lr /\
    store ipvtj j lr = Some ipvt' /\ load (pivots r) j = Some lr)
    as (aj & ipvtj & lr & ipvt' & Hpre & Hsel & Hst & Hld).
  { destruct o as [r'|a' ipvt']; injection Hrun as <-.
    - destruct (Hall j) as (aj & ipvtj & lr & ipvt' & Hpre & ?).
      { destruct Hexit as [He|He]; rewrite He in Hdone; lia. }
      exists aj, ipvtj, lr, ipvt'.
      by replace (Z.to_nat j) with (Z.to_nat (j - 0)) by lia.
    - simpl in Hdone.
      destruct (Hall j) as (aj & ipvtj & lr & ipvt'' & Hpre & ?); [lia|].
      exists aj, ipvtj, lr, ipvt''.
      by replace (Z.to_nat j) with (Z.to_nat (j - 0)) by lia. }
  exists aj, ipvtj, lr, ipvt'. repeat (split; [done|]). by intros <-.
Qed.

(** ** The exchanges of [lu_solve] *)

Lemma exchanges_upto_snoc ipvt i :
  0 <= i ->
  exchanges_upto ipvt (i + 1) = exchanges_upto ipvt i ++ [(i, pivot_at ipvt i)].
Proof.
  intros Hi. unfold exchanges_upto.
  rewrite seqZ_app by lia. rewrite fmap_app. f_equal.
Qed.

Lemma exchange_total ipvt (b : list F) n i :
  pivots_in_range ipvt n -> vec_ok b n -> 0 <= i < n ->
  exists swap x b',
    Scalar.exchange ipvt b i = Some (pivot_at ipvt i, swap, b') /\
    0 <= pivot_at ipvt i < n /\
    load b (pivot_at ipvt i) = Some swap /\
    load b i = Some x /\
    store b (pivot_at ipvt i) x = Some b' /\
    length b' = length b.
Proof.
  intros Hp Hb Hi. unfold Scalar.exchange, pivot_at, vec_ok in *.
  destruct (Hp i Hi) as (row & -> & Hrow). simpl.
  destruct (load_in_range b row) as [swap Hsw]; [lia|].
  destruct (load_in_range b i) as [x Hx]; [lia|].
  rewrite Hsw, Hx. simpl. rewrite store_in_range by lia. simpl.
  exists swap, x, (<[Z.to_nat row := x]> b).
  rewrite length_insert. repeat split; try done; try lia.
  apply store_in_range. lia.
Qed.

Lemma subtract_dot_total a n (b : list F) i lo hi tot :
  mat_ok a n -> vec_ok b n -> 0 <= i < n -> 0 <= lo -> hi <= n ->
  exists t, Scalar.subtract_dot a n b i lo hi tot = Some t.
Proof.
  intros Ha Hb Hi Hlo Hhi. unfold Scalar.subtract_dot.
  destruct (Z.le_gt_cases lo hi) as [Hle|Hgt].
  - destruct (for_range_invariant (fun _ _ => True)
      (fun j tot => x ← load a (i * n + j); y ← load b j;
                    Some (fsub tot (fmul x y))) lo hi tot) as (t & Ht & _);
      [done | done | | by exists t].
    intros j t Hj _.
    destruct (mat_load a n i j) as [x ->]; [done | done | lia |].
    destruct (load_in_range b j) as [y ->]; [unfold vec_ok in Hb; lia|].
    simpl. eauto.
  - rewrite for_range_empty by lia. eauto.
Qed.

Lemma permute_scan_spec ipvt (b : list F) n i cnt :
  pivots_in_range ipvt n -> vec_ok b n ->
  0 <= i -> i + Z.of_nat cnt = n ->
  exists bi i0 b1,
    Scalar.permute_scan ipvt b i cnt (exchanges_upto ipvt i)
      = Some (bi, i0, b1, exchanges_upto ipvt i0) /\
    length b1 = length b /\
    (bi = 0 /\ i0 = n \/
     i <= bi < n /\ i0 = bi + 1 /\
       exists swap, load b1 bi = Some swap /\ feqb swap f0 = false).
Proof.
  intros Hp. revert b i. induction cnt as [|c IH]; intros b i Hb Hi Hn.
  - exists 0, i, b. simpl. split; [done|]. split; [done|]. left. lia.
  - simpl.
    destruct (exchange_total ipvt b n i) as (swap & x & b' & -> & Hrow & _ & _ & Hst & Hlen);
      [done | done | lia |]. simpl.
    assert (vec_ok b' n) as Hb' by (unfold vec_ok in *; lia).
    rewrite store_in_range by (unfold vec_ok in *; lia). simpl.
    rewrite <- exchanges_upto_snoc by done.
    destruct (feqb swap f0) eqn:Hz; simpl.
    + destruct (IH (<[Z.to_nat i := swap]> b') (i + 1))
        as (bi & i0 & b1 & -> & Hlen1 & Hcase).
      * unfold vec_ok in *. rewrite length_insert. lia.
      * lia.
      * lia.
      * exists bi, i0, b1. split; [done|].
        rewrite length_insert in Hlen1. split; [lia|].
        destruct Hcase as [?|(? & ? & ?)]; [by left|right].
        split; [lia | done].
    + exists i, (i + 1), (<[Z.to_nat i := swap]> b').
      split; [done|]. rewrite length_insert. split; [done|]. right.
      split; [lia|]. split; [done|]. exists swap. split; [|done].
      apply load_Some. split; [lia|]. apply list_lookup_insert_eq.
      unfold vec_ok in *. lia.
Qed.

Lemma forward_spec a n ipvt bi i0 (b1 : list F) :
  mat_ok a n -> pivots_in_range ipvt n -> vec_ok b1 n ->
  0 <= bi -> 0 <= i0 <= n ->
  exists b',
    Scalar.forward a n ipvt bi i0 b1 (exchanges_upto ipvt i0)
      = Some (b', exchanges_upto ipvt n) /\
    length b' = length b1.
Proof.
  intros Ha Hp Hb Hbi Hi0. unfold Scalar.forward.
  destruct (for_range_invariant
    (fun i '(b, tr) => length b = length b1 /\ tr = exchanges_upto ipvt i)
    (fun i '(b, tr) =>
       '(row, tot, b) ← Scalar.exchange ipvt b i;
       tot ← Scalar.subtract_dot a n b i bi i tot;
       b ← store b i tot;
       Some (b, tr ++ [(i, row)])) i0 n (b1, exchanges_upto ipvt i0))
    as ([b' tr'] & Hrun & Hlen & ->); [lia | done | | by exists b'].
  intros i [b tr] Hi [Hlen ->].
  assert (vec_ok b n) as Hbn by (unfold vec_ok in *; lia).
  destruct (exchange_total ipvt b n i) as (swap & x & b2 & -> & _ & _ & _ & _ & Hlen2);
    [done | done | lia |]. simpl.
  assert (vec_ok b2 n) as Hb2 by (unfold vec_ok in *; lia).
  destruct (subtract_dot_total a n b2 i bi i swap) as [t ->];
    [done | done | lia | done | lia |]. simpl.
  rewrite store_in_range by (unfold vec_ok in *; lia). simpl.
  eexists (_, _). split; [done|]. rewrite length_insert.
  split; [lia|]. rewrite exchanges_upto_snoc by lia. done.
Qed.











End AnyArith.

(** ** The no-candidate return *)

Section NoCandidate.
Context {F : Type} `{Arith F}.
Implicit Types (a : list F) (ipvt : list Z) (n i j : Z).

Lemma index_row_ne n i i' j : 0 <= j < n -> i <> i' -> i * n + j <> i' * n + j.
Proof.
  intros Hj Hne Heq. apply index_inj in Heq; [|done|done]. lia.
Qed.

(** The pivot search of either build, whatever reduction [red] it runs on
    [a[i][j]]: it leaves [largestRow = -1] only if no candidate passed the
    test [fabs(q) >= largest], [largest] still being [0.0]. *)
Lemma pivot_search_no_candidate (red : list F -> Z -> F -> option F)
    a n j a' largest largestRow :
  0 <= j < n ->
  for_range j n (fun i '(a, largest, largestRow) =>
    q ← load a (i * n + j);
    q ← red a i q;
    a ← store a (i * n + j) q;
    let x := fabs q in
    if fgeb x largest then Some (a, x, i)
    else Some (a, largest, largestRow)) (a, f0, -1)
  = Some (a', largest, largestRow) ->
  largestRow = -1 ->
  no_candidate a' n j n.
Proof.
  intros Hj Hrun.
  apply (for_range_returned
    (fun i0 '(s, lg, lr) =>
       (lr = -1 \/ j <= lr) /\
       (lr = -1 -> lg = f0 /\ no_candidate s n j i0)) _ _ _ _ _ Hrun);
    [lia | | ].
  - split; [by left|]. intros _. split; [done|]. intros i Hi. lia.
  - intros i [[s lg] lr] [[s' lg'] lr'] Hi [Hlr Hnone] Hbody.
    destruct (load s (i * n + j)) as [q0|]; [|discriminate]. simpl in Hbody.
    destruct (red s i q0) as [q|]; [|discriminate].
    simpl in Hbody.
    destruct (store s (i * n + j) q) as [s1|] eqn:Hst; [|discriminate].
    simpl in Hbody.
    destruct (fgeb (fabs q) lg) eqn:Hge; injection Hbody as <- <- <-.
    + split; [right; lia|]. intros ->. lia.
    + split; [done|]. intros Hm1. destruct (Hnone Hm1) as [-> Hprev].
      split; [done|]. intros i' Hi'. destruct (decide (i' = i)) as [->|Hne].
      * exists q. split; [by eapply load_store_eq | done].
      * destruct (Hprev i') as (q' & Hq' & Hge'); [lia|].
        exists q'. split; [|done].
        rewrite <- Hq'. eapply load_store_ne; [done|].
        by apply index_row_ne.
Qed.

Lemma lu_column_no_pivot a n ipvt j r :
  0 <= j < n ->
  Scalar.lu_column a n ipvt j = Some (Return r) -> exit r = NoPivot ->
  value r = j /\ no_candidate (matrix r) n j n.
Proof.
  intros Hj Hrun Hexit. unfold Scalar.lu_column in Hrun.
  destruct (Scalar.upper_part a n j) as [au|]; [|discriminate]. simpl in Hrun.
  destruct (Scalar.lower_part au n j) as [[[a1 lg] lr]|] eqn:Hlow;
    [|discriminate]. simpl in Hrun.
  assert (forall a2, Scalar.finish_column a2 n ipvt j lr = Some (Return r) ->
    False) as Hfin.
  { intros a2 [_ [Hex _]]%finish_column_pivots. congruence. }
  unfold Scalar.pivot_column in Hrun.
  destruct (decide (j ≠ lr)); [|by apply Hfin in Hrun].
  destruct (decide (lr = -1)) as [Hm1|].
  - injection Hrun as <-. simpl. split; [done|].
    by eapply (pivot_search_no_candidate
                 (fun a i q => Scalar.reduce a n i j j q)).
  - destruct (Scalar.swap_rows a1 n lr j); [|discriminate].
    by apply Hfin in Hrun.
Qed.

Lemma simd_lu_column_no_pivot a n ipvt j r :
  0 <= j < n ->
  Simd.lu_column a n ipvt j = Some (Return r) -> exit r = NoPivot ->
  value r = j /\ no_candidate (matrix r) n j n.
Proof.
  intros Hj Hrun Hexit. unfold Simd.lu_column in Hrun.
  destruct (Simd.upper_part a n j) as [au|]; [|discriminate]. simpl in Hrun.
  destruct (Simd.lower_part au n j) as [[[a1 lg] lr]|] eqn:Hlow;
    [|discriminate]. simpl in Hrun.
  assert (forall a2, Simd.finish_column a2 n ipvt j lr = Some (Return r) ->
    False) as Hfin.
  { intros a2 Hf. change (Scalar.finish_column a2 n ipvt j lr = Some (Return r)) in Hf.
    apply finish_column_pivots in Hf as [_ [Hex _]]. congruence. }
  unfold Simd.pivot_column in Hrun.
  destruct (decide (j ≠ lr)); [|by apply Hfin in Hrun].
  destruct (decide (lr = -1)) as [Hm1|].
  - injection Hrun as <-. simpl. split; [done|].
    by eapply (pivot_search_no_candidate
                 (fun a i q => Simd.reduce_lower a n i j q)).
  - destruct (Simd.swap_rows_simd a1 (lr * n) (j * n) n); [|discriminate].
    by apply Hfin in Hrun.
Qed.

(** The column loop of either build, [column] being its body. *)
Lemma lu_columns_no_pivot
    (column : list F -> Z -> list Z -> Z -> option (flow F))
    (columns : list F -> Z -> list Z -> Z -> nat -> option (flow F)) n :
  (forall a ipvt j cnt,
     columns a n ipvt j (S cnt)
     = o ← column a n ipvt j;
       match o with
       | Return r => Some (Return r)
       | Next a ipvt => columns a n ipvt (j + 1) cnt
       end) ->
  (forall a ipvt j, columns a n ipvt j O = Some (Next a ipvt)) ->
  (forall a ipvt j r, 0 <= j < n ->
     column a n ipvt j = Some (Return r) -> exit r = NoPivot ->
     value r = j /\ no_candidate (matrix r) n j n) ->
  forall cnt a ipvt j r,
    0 <= j -> j + Z.of_nat cnt <= n ->
    columns a n ipvt j cnt = Some (Return r) -> exit r = NoPivot ->
    j <= value r < n /\ no_candidate (matrix r) n (value r) n.
Proof.
  intros Hstep Hend Hcol.
  induction cnt as [|c IH]; intros a ipvt j r Hj Hn Hrun Hexit.
  - rewrite Hend in Hrun. discriminate.
  - rewrite Hstep in Hrun.
    destruct (column a n ipvt j) as [[r1|a1 ipvt1]|] eqn:Hc;
      [| |discriminate]; simpl in Hrun.
    + injection Hrun as ->.
      destruct (Hcol a ipvt j r) as [-> Hnone]; [lia | done | done |].
      split; [lia | done].
    + destruct (IH a1 ipvt1 (j + 1) r) as [Hv Hnone];
        [lia | lia | done | done |].
      split; [lia | done].
Qed.

(** C10, as the code has it: [lu_factor], in either build, returns from
    the [largestRow == -1] branch, at column [j], only when the reduced
    value [q] of every candidate row of that column fails
    [fabs(q) >= 0.0], that is, is NaN. *)
Theorem no_pivot_only_without_candidates a n ipvt r :
  Scalar.lu_factor a n ipvt = Some r \/ Simd.lu_factor a n ipvt = Some r ->
  exit r = NoPivot ->
  0 <= value r < n /\ no_candidate (matrix r) n (value r) n.
Proof.
  intros Hrun Hexit.
  assert (exists columns : list F -> Z -> list Z -> Z -> nat -> option (flow F),
    columns a n ipvt 0 (Z.to_nat n) = Some (Return r) /\
    forall cnt a ipvt j r,
      0 <= j -> j + Z.of_nat cnt <= n ->
      columns a n ipvt j cnt = Some (Return r) -> exit r = NoPivot ->
      j <= value r < n /\ no_candidate (matrix r) n (value r) n)
    as (columns & Hcols & Hnone).
  { destruct Hrun as [Hrun|Hrun].
    - exists Scalar.lu_columns. split.
      + unfold Scalar.lu_factor in Hrun.
        destruct (Scalar.zero_row_check a n 0 (Z.to_nat n)) as [[i|]|];
          simpl in Hrun; [| | discriminate].
        { injection Hrun as <-. discriminate. }
        destruct (Scalar.lu_columns a n ipvt 0 (Z.to_nat n))
          as [[r'|a' ipvt']|]; simpl in Hrun; [| |discriminate].
        * by injection Hrun as ->.
        * injection Hrun as <-. discriminate.
      + apply (lu_columns_no_pivot Scalar.lu_column); [done | done |].
        intros a0 ipvt0 j0 r0. apply lu_column_no_pivot.
    - exists Simd.lu_columns. split.
      + unfold Simd.lu_factor in Hrun.
        destruct (Scalar.zero_row_check a n 0 (Z.to_nat n)) as [[i|]|];
          simpl in Hrun; [| | discriminate].
        { injection Hrun as <-. discriminate. }
        destruct (Simd.lu_columns a n ipvt 0 (Z.to_nat n))
          as [[r'|a' ipvt']|]; simpl in Hrun; [| |discriminate].
        * by injection Hrun as ->.
        * injection Hrun as <-. discriminate.
      + apply (lu_columns_no_pivot Simd.lu_column); [done | done |].
        intros a0 ipvt0 j0 r0. apply simd_lu_column_no_pivot. }
  destruct (Z.le_gt_cases 0 n).
  - apply (Hnone (Z.to_nat n) a ipvt 0 r); [lia | lia | done | done].
  - exfalso. destruct Hrun as [Hrun|Hrun].
    + unfold Scalar.lu_factor in Hrun.
      replace (Z.to_nat n) with O in Hrun by lia. simpl in Hrun.
      injection Hrun as <-. discriminate.
    + unfold Simd.lu_factor in Hrun.
      replace (Z.to_nat n) with O in Hrun by lia. simpl in Hrun.
      injection Hrun as <-. discriminate.
Qed.

End NoCandidate.

(** In exact arithmetic [fabs(q) >= 0.0] always holds, so no column
    returns from that branch. *)
Lemma exact_column_never_no_pivot (a : list Qc) n ipvt j r :
  0 <= j < n ->
  Scalar.lu_column a n ipvt j = Some (Return r) -> exit r <> NoPivot.
Proof.
  intros Hj Hrun Hexit.
  destruct (lu_column_no_pivot a n ipvt j r Hj Hrun Hexit) as [_ Hnone].
  destruct (Hnone j) as (q & _ & Hge); [lia|].
  simpl in Hge. apply bool_decide_eq_false in Hge. apply Hge.
  apply Qcabs_nonneg.
Qed.

(** In binary64 only a NaN fails [fabs(q) >= 0.0]. *)
Lemma binary64_not_ge_zero (q : float) :
  fgeb (fabs q) f0 = false <-> PrimFloat.eqb q q = false.
Proof.
  cbn [fgeb fabs f0 Binary64].
  rewrite leb_spec, FloatAxioms.eqb_spec, abs_spec.
  change (Prim2SF PrimFloat.zero) with (S754_zero false).
  destruct (Prim2SF q) as [s|s| |s m e]; try destruct s;
    unfold SFleb, SFeqb; simpl;
    rewrite ?Z.compare_refl, ?Pos.compare_cont_refl; simpl; done.
Qed.

(** ** Safety of [lu_solve] after a successful [lu_factor] *)

Lemma exact_division_guarded : division_guarded Qc.
Proof.
  intros x d Hd. simpl in *. apply bool_decide_eq_false in Hd.
  rewrite decide_False by done. eauto.
Qed.

Lemma binary64_division_guarded : division_guarded float.
Proof. intros x d _. simpl. eauto. Qed.

Lemma index_ne n i c i' c' :
  0 <= c < n -> 0 <= c' < n -> i <> i' \/ c <> c' -> i * n + c <> i' * n + c'.
Proof.
  intros Hc Hc' Hne Heq. apply index_inj in Heq; [|done|done]. lia.
Qed.

Section Safety.
Context {F : Type} `{Arith F}.
Implicit Types (a : list F) (ipvt : list Z) (n i j z : Z).

Lemma upper_part_frame a n j a' :
  0 <= j ->
  Scalar.upper_part a n j = Some a' ->
  length a' = length a /\
  forall z, (forall i, 0 <= i < j -> z <> i * n + j) -> load a' z = load a z.
Proof.
  intros Hj Hrun. unfold Scalar.upper_part in Hrun.
  apply (for_range_returned
    (fun i0 s => length s = length a /\
       forall z, (forall i, 0 <= i < i0 -> z <> i * n + j) ->
         load s z = load a z) _ _ _ _ _ Hrun); [lia | done |].
  intros i s s' Hi [Hlen Hfr] Hbody.
  destruct (load s (i * n + j)) as [q0|]; [|discriminate]. simpl in Hbody.
  destruct (Scalar.reduce s n i j i q0) as [q|]; [|discriminate].
  simpl in Hbody. split; [rewrite <- Hlen; by eapply store_length|].
  intros z Hz. rewrite <- Hfr by (intros; apply Hz; lia).
  eapply load_store_ne; [done|]. intros Heq. by apply (Hz i); [lia|].
Qed.

Lemma lower_part_frame a n j a' largest largestRow :
  j <= n ->
  Scalar.lower_part a n j = Some (a', largest, largestRow) ->
  length a' = length a /\
  (largestRow = -1 \/ j <= largestRow < n) /\
  forall z, (forall i, j <= i < n -> z <> i * n + j) -> load a' z = load a z.
Proof.
  intros Hj Hrun. unfold Scalar.lower_part in Hrun.
  apply (for_range_returned
    (fun i0 '(s, lg, lr) => length s = length a /\
       (lr = -1 \/ j <= lr < i0) /\
       forall z, (forall i, j <= i < i0 -> z <> i * n + j) ->
         load s z = load a z) _ _ _ _ _ Hrun); [lia | by auto |].
  intros i [[s lg] lr] [[s' lg'] lr'] Hi (Hlen & Hlr & Hfr) Hbody.
  destruct (load s (i * n + j)) as [q0|]; [|discriminate]. simpl in Hbody.
  destruct (Scalar.reduce s n i j j q0) as [q|]; [|discriminate].
  simpl in Hbody.
  destruct (store s (i * n + j) q) as [s1|] eqn:Hst; [|discriminate].
  simpl in Hbody.
  assert (length s' = length a /\
    forall z, (forall i0, j <= i0 < i + 1 -> z <> i0 * n + j) ->
      load s' z = load a z) as [Hlen' Hfr'].
  { assert (s' = s1) as -> by (destruct (fgeb (fabs q) lg); congruence).
    split; [rewrite <- Hlen; by eapply store_length|].
    intros z Hz. rewrite <- Hfr by (intros; apply Hz; lia).
    eapply load_store_ne; [done|]. intros Heq. by apply (Hz i); [lia|]. }
  split; [done|]. split; [|done].
  destruct (fgeb (fabs q) lg); injection Hbody as _ _ <-; lia.
Qed.

Lemma swap_rows_frame a n largestRow j a' :
  0 <= n ->
  Scalar.swap_rows a n largestRow j = Some a' ->
  length a' = length a /\
  forall z,
    (forall k, 0 <= k < n -> z <> largestRow * n + k /\ z <> j * n + k) ->
    load a' z = load a z.
Proof.
  intros Hn Hrun. unfold Scalar.swap_rows in Hrun.
  apply (for_range_returned
    (fun k0 s => length s = length a /\
       forall z,
         (forall k, 0 <= k < k0 -> z <> largestRow * n + k /\ z <> j * n + k) ->
         load s z = load a z) _ _ _ _ _ Hrun); [lia | done |].
  intros k s s' Hk [Hlen Hfr] Hbody.
  destruct (load s (largestRow * n + k)) as [x|]; [|discriminate].
  simpl in Hbody.
  destruct (load s (j * n + k)) as [y|]; [|discriminate]. simpl in Hbody.
  destruct (store s (largestRow * n + k) y) as [s1|] eqn:Hst1; [|discriminate].
  simpl in Hbody.
  split.
  - rewrite <- Hlen, <- (store_length _ _ _ _ Hst1). by eapply store_length.
  - intros z Hz. rewrite <- Hfr by (intros; apply Hz; lia).
    destruct (Hz k) as [Hz1 Hz2]; [lia|].
    rewrite (load_store_ne _ _ _ _ z Hbody) by auto.
    eapply load_store_ne; [done | auto].
Qed.

Lemma scale_column_frame a n j mult a' :
  j + 1 <= n ->
  Scalar.scale_column a n j mult = Some a' ->
  length a' = length a /\
  forall z, (forall i, j + 1 <= i < n -> z <> i * n + j) -> load a' z = load a z.
Proof.
  intros Hj Hrun. unfold Scalar.scale_column in Hrun.
  apply (for_range_returned
    (fun i0 s => length s = length a /\
       forall z, (forall i, j + 1 <= i < i0 -> z <> i * n + j) ->
         load s z = load a z) _ _ _ _ _ Hrun); [lia | done |].
  intros i s s' Hi [Hlen Hfr] Hbody.
  destruct (load s (i * n + j)) as [x|]; [|discriminate]. simpl in Hbody.
  split; [rewrite <- Hlen; by eapply store_length|].
  intros z Hz. rewrite <- Hfr by (intros; apply Hz; lia).
  eapply load_store_ne; [done|]. intros Heq. by apply (Hz i); [lia|].
Qed.


Lemma finish_column_safe a n ipvt j largestRow a' ipvt' :
  0 <= j < n ->
  Scalar.finish_column a n ipvt j largestRow = Some (Next a' ipvt') ->
  store ipvt j largestRow = Some ipvt' /\
  length a' = length a /\
  (exists d, load a' (j * n + j) = Some d /\ feqb d f0 = false) /\
  forall i, 0 <= i < j -> load a' (i * n + i) = load a (i * n + i).
Proof.
  intros Hj Hrun. unfold Scalar.finish_column in Hrun.
  destruct (store ipvt j largestRow) as [ipvt1|]; [|discriminate].
  simpl in Hrun.
  destruct (load a (j * n + j)) as [d|] eqn:Hd; [|discriminate].
  simpl in Hrun.
  destruct (feqb d f0) eqn:Hz; [discriminate|].
  destruct (decide (j ≠ n - 1)).
  - destruct (fdiv f1 d) as [mult|]; [|discriminate]. simpl in Hrun.
    destruct (Scalar.scale_column a n j mult) as [a1|] eqn:Hsc; [|discriminate].
    injection Hrun as <- <-.
    destruct (scale_column_frame a n j mult a1) as [Hlen Hfr]; [lia | done |].
    split; [done|]. split; [done|]. split.
    + exists d. split; [|done]. rewrite Hfr; [done|].
      intros i Hi. apply index_ne; lia.
    + intros i Hi. apply Hfr. intros i' Hi'. apply index_ne; lia.
  - injection Hrun as <- <-. split; [done|]. split; [done|].
    split; [by exists d | done].
Qed.

Lemma lu_column_safe a n ipvt j a' ipvt' :
  0 <= j < n ->
  Scalar.lu_column a n ipvt j = Some (Next a' ipvt') ->
  length a' = length a /\
  (exists largestRow,
     j <= largestRow < n /\ store ipvt j largestRow = Some ipvt') /\
  (exists d, load a' (j * n + j) = Some d /\ feqb d f0 = false) /\
  forall i, 0 <= i < j -> load a' (i * n + i) = load a (i * n + i).
Proof.
  intros Hj Hrun. unfold Scalar.lu_column in Hrun.
  destruct (Scalar.upper_part a n j) as [au|] eqn:Hup; [|discriminate].
  simpl in Hrun.
  destruct (Scalar.lower_part au n j) as [[[a1 lg] lr]|] eqn:Hlow;
    [|discriminate]. simpl in Hrun.
  destruct (upper_part_frame a n j au) as [Hlen1 Hfr1]; [lia | done |].
  destruct (lower_part_frame au n j a1 lg lr) as (Hlen2 & Hlr & Hfr2);
    [lia | done |].
  assert (forall i, 0 <= i < j -> load a1 (i * n + i) = load a (i * n + i))
    as Hdiag.
  { intros i Hi. rewrite Hfr2, Hfr1; [done| |];
      intros i' Hi'; apply index_ne; lia. }
  unfold Scalar.pivot_column in Hrun.
  destruct (decide (j ≠ lr)) as [Hne|Heq].
  - destruct (decide (lr = -1)); [discriminate|].
    destruct (Scalar.swap_rows a1 n lr j) as [a2|] eqn:Hsw; [|discriminate].
    simpl in Hrun.
    destruct (swap_rows_frame a1 n lr j a2) as [Hlen3 Hfr3]; [lia | done |].
    destruct (finish_column_safe a2 n ipvt j lr a' ipvt' Hj Hrun)
      as (Hst & Hlen4 & Hd & Hfr4).
    split; [congruence|]. split; [exists lr; split; [lia | done]|].
    split; [done|]. intros i Hi. rewrite Hfr4 by lia.
    rewrite Hfr3; [by apply Hdiag|].
    intros k Hk. split; apply index_ne; lia.
  - destruct (finish_column_safe a1 n ipvt j lr a' ipvt' Hj Hrun)
      as (Hst & Hlen4 & Hd & Hfr4).
    split; [congruence|]. split; [exists lr; split; [lia | done]|].
    split; [done|]. intros i Hi. rewrite Hfr4 by lia. by apply Hdiag.
Qed.

Lemma lu_columns_safe a n ipvt j cnt a' ipvt' :
  0 <= j -> j + Z.of_nat cnt <= n ->
  Scalar.lu_columns a n ipvt j cnt = Some (Next a' ipvt') ->
  length a' = length a /\ length ipvt' = length ipvt /\
  (forall i, j <= i < j + Z.of_nat cnt ->
     (exists row, load ipvt' i = Some row /\ i <= row < n) /\
     (exists d, load a' (i * n + i) = Some d /\ feqb d f0 = false)) /\
  (forall i, 0 <= i < j ->
     load ipvt' i = load ipvt i /\ load a' (i * n + i) = load a (i * n + i)).
Proof.
  revert a ipvt j. induction cnt as [|c IH]; intros a ipvt j Hj Hn Hrun.
  - injection Hrun as <- <-. split; [done|]. split; [done|].
    split; [intros; lia | done].
  - simpl in Hrun.
    destruct (Scalar.lu_column a n ipvt j) as [[r1|a1 ipvt1]|] eqn:Hcol;
      [discriminate | | discriminate]. simpl in Hrun.
    destruct (lu_column_safe a n ipvt j a1 ipvt1) as (Hlen & Hrow & Hd & Hfr);
      [lia | done |].
    destruct Hrow as (lr & Hlr & Hst).
    destruct (IH a1 ipvt1 (j + 1)) as (Hlen' & Hlenp & Hnew & Hold);
      [lia | lia | done |].
    split; [congruence|].
    split; [rewrite Hlenp; by eapply store_length|]. split.
    + intros i Hi. destruct (decide (i = j)) as [->|Hne]; [|apply Hnew; lia].
      destruct (Hold j) as [-> ->]; [lia|]. split; [|done].
      exists lr. split; [by eapply load_store_eq | done].
    + intros i Hi. destruct (Hold i) as [-> ->]; [lia|].
      split; [eapply load_store_ne; [done | lia] | apply Hfr; lia].
Qed.

Lemma backward_total a n (b : list F) :
  division_guarded F ->
  mat_ok a n -> vec_ok b n ->
  (forall i, 0 <= i < n ->
     exists d, load a (i * n + i) = Some d /\ feqb d f0 = false) ->
  exists x, Scalar.backward a n b = Some x /\ length x = length b.
Proof.
  intros Hdiv Ha Hb Hdiag. pose proof Ha as [Hn _]. unfold Scalar.backward.
  apply (for_down_invariant (fun _ s => length s = length b)); [done | done |].
  intros i s Hi Hlen.
  assert (vec_ok s n) as Hs by (unfold vec_ok in *; lia).
  destruct (load_in_range s i) as [tot ->]; [unfold vec_ok in Hs; lia|].
  simpl.
  destruct (subtract_dot_total a n s i (i + 1) n tot) as [t ->];
    [done | done | lia | lia | lia |]. simpl.
  destruct (Hdiag i Hi) as (d & -> & Hd). simpl.
  destruct (Hdiv t d Hd) as [x ->]. simpl.
  rewrite store_in_range by (unfold vec_ok in Hs; lia).
  eexists. split; [done|]. by rewrite length_insert.
Qed.

(** C9: when [lu_factor] returns [-1], every pivot entry satisfies
    [j <= ipvt[j] < n] and every diagonal entry of the factored matrix
    tests nonzero; hence [lu_solve] runs on any right-hand side without
    reading or writing outside a buffer and without dividing by zero. *)
Theorem lu_factor_success_is_safe a n ipvt r :
  division_guarded F ->
  mat_ok a n -> vec_ok ipvt n ->
  Scalar.lu_factor a n ipvt = Some r -> value r = -1 ->
  exit r = Success /\
  (forall j, 0 <= j < n ->
     exists row, load (pivots r) j = Some row /\ j <= row < n) /\
  (forall j, 0 <= j < n ->
     exists d, load (matrix r) (j * n + j) = Some d /\ feqb d f0 = false) /\
  (forall b, vec_ok b n ->
     exists x, Scalar.lu_solve (matrix r) n (pivots r) b = Some x /\
               length x = length b).
Proof.
  intros Hdiv Ha Hp Hrun Hv. pose proof Ha as [Hn Hsize].
  unfold Scalar.lu_factor in Hrun.
  destruct (zero_row_check_spec a n 0 (Z.to_nat n)) as (z & Hz & Hspec);
    [done | lia | lia |].
  rewrite Hz in Hrun. simpl in Hrun.
  destruct z as [i|].
  { injection Hrun as <-. simpl in *. lia. }
  destruct (Scalar.lu_columns a n ipvt 0 (Z.to_nat n)) as [[r'|a' ipvt']|]
    eqn:Hcols; [| |discriminate]; simpl in Hrun.
  { injection Hrun as ->.
    pose proof (lu_columns_pivots _ _ _ _ _ _ Hcols) as (Hstop & _).
    simpl in Hstop. lia. }
  injection Hrun as <-. simpl.
  destruct (lu_columns_safe a n ipvt 0 (Z.to_nat n) a' ipvt')
    as (Hlen & Hlenp & Hnew & _); [lia | lia | done |].
  assert (forall j, 0 <= j < n ->
    exists row, load ipvt' j = Some row /\ j <= row < n) as Hrows.
  { intros j Hj. apply Hnew. lia. }
  assert (forall j, 0 <= j < n ->
    exists d, load a' (j * n + j) = Some d /\ feqb d f0 = false) as Hdiag.
  { intros j Hj. apply Hnew. lia. }
  split; [done|]. split; [done|]. split; [done|].
  intros b Hb.
  assert (mat_ok a' n) as Ha' by (split; [done | lia]).
  assert (pivots_in_range ipvt' n) as Hin.
  { intros i Hi. destruct (Hrows i Hi) as (row & ? & ?). exists row.
    split; [done | lia]. }
  destruct (permute_scan_spec ipvt' b n 0 (Z.to_nat n))
    as (bi & i0 & b1 & Hscan & Hlen1 & Hcase); [done | done | lia | lia |].
  change (exchanges_upto ipvt' 0) with (@nil (Z * Z)) in Hscan.
  destruct (forward_spec a' n ipvt' bi i0 b1) as (b2 & Hfw & Hlen2);
    [done | done | unfold vec_ok in *; lia | lia | lia |].
  destruct (backward_total a' n b2 Hdiv Ha') as (x & Hx & Hlenx);
    [unfold vec_ok in *; lia | done |].
  exists x. split; [|congruence].
  unfold Scalar.lu_solve, Scalar.lu_forward. rewrite Hscan. simpl.
  rewrite Hfw. done.
Qed.

End Safety.

(** ** The pivot search *)

Lemma SFleb_le x y : SFleb x y = true <-> sf_le x y.
Proof.
  unfold SFleb, SFcompare, sf_le, key_le.
  destruct x as [sx|sx| |sx mx ex], y as [sy|sy| |sy my ey];
    try destruct sx; try destruct sy; simpl;
    try (split; [first [discriminate | intros _; lia] | first [lia | done]]).
  - change (Pos.compare_cont Eq mx my) with (Pos.compare mx my).
    destruct (Z.compare_spec ex ey); [destruct (Pos.compare_spec mx my)| |];
      simpl; split; first [discriminate | done | lia].
  - change (Pos.compare_cont Eq mx my) with (Pos.compare mx my).
    destruct (Z.compare_spec ex ey); [destruct (Pos.compare_spec mx my)| |];
      simpl; split; first [discriminate | done | lia].
Qed.

Lemma leb_le x y : (x <=? y)%float = true <-> sf_le (Prim2SF x) (Prim2SF y).
Proof. rewrite leb_spec. apply SFleb_le. Qed.

#[export] Instance ExactLaws : ArithLaws Qc.
Proof.
  split; cbn [fgeb feqb fabs f0 Exact].
  - by apply bool_decide_eq_true.
  - intros x y _. by apply bool_decide_eq_true.
  - intros x y z Hxy%bool_decide_eq_true Hyz%bool_decide_eq_true.
    apply bool_decide_eq_true. by eapply Qcle_trans.
  - intros x y _ _ Hxy%bool_decide_eq_false. apply bool_decide_eq_true.
    apply Qclt_le_weak. by apply Qcnot_le_lt.
  - intros x Hx. apply bool_decide_eq_true. by apply Qcabs_null.
Qed.

#[export] Instance Binary64Laws : ArithLaws float.
Proof.
  split; cbn [fgeb feqb fabs f0 Binary64].
  - reflexivity.
  - intros x y. rewrite !leb_le. unfold sf_le, key_le.
    destruct (sf_key (Prim2SF x)), (sf_key (Prim2SF y)); lia.
  - intros x y z. rewrite !leb_le. unfold sf_le, key_le.
    destruct (sf_key (Prim2SF x)), (sf_key (Prim2SF y)), (sf_key (Prim2SF z));
      lia.
  - intros x y Hx Hy Hxy. apply leb_le. apply leb_le in Hx, Hy.
    apply not_true_iff_false in Hxy. rewrite leb_le in Hxy.
    unfold sf_le, key_le in *.
    destruct (sf_key (Prim2SF x)), (sf_key (Prim2SF y)); lia.
  - intros x Hx. apply (f_equal Prim2SF) in Hx. rewrite abs_spec in Hx.
    rewrite FloatAxioms.eqb_spec.
    change (Prim2SF PrimFloat.zero) with (S754_zero false) in *.
    destruct (Prim2SF x) as [s|s| |s m e]; try discriminate. reflexivity.
Qed.

Section PivotSearch.
Context {F : Type} `{ArithLaws F}.
Implicit Types (a : list F) (n i j : Z).

Lemma reduce_ext a s n i j hi q :
  (forall k, 0 <= k < hi ->
     load s (i * n + k) = load a (i * n + k) /\
     load s (k * n + j) = load a (k * n + j)) ->
  Scalar.reduce s n i j hi q = Scalar.reduce a n i j hi q.
Proof.
  intros Hsame. unfold Scalar.reduce, for_range. apply for_ext.
  intros k t Hk. destruct (Hsame k) as [-> ->]; [lia | done].
Qed.

(** What the loop of lines 57-68 leaves: in [a[i][j]] the reduced value
    [q] of each row [i] in [[j, n)], in [largest] the [fabs(q)] of the
    selected row, which is [>=] that of every row whose [fabs(q)] compares
    at all, while no later row has a [fabs(q) >= largest]. *)
Lemma lower_part_search a n j a' largest largestRow :
  0 <= j < n ->
  Scalar.lower_part a n j = Some (a', largest, largestRow) ->
  (largestRow = -1 /\ largest = f0 \/ j <= largestRow < n) /\
  forall i, j <= i < n ->
    exists q0 q,
      load a (i * n + j) = Some q0 /\
      Scalar.reduce a n i j j q0 = Some q /\
      load a' (i * n + j) = Some q /\
      (i = largestRow -> largest = fabs q) /\
      (fgeb (fabs q) (fabs q) = true -> fgeb largest (fabs q) = true) /\
      (largestRow < i -> fgeb (fabs q) largest = false).
Proof.
  intros Hj Hrun.
  unfold Scalar.lower_part in Hrun.
  set (I := fun (i0 : Z) '(s, lg, lr) =>
       (forall z, (forall i, j <= i < i0 -> z <> i * n + j) ->
          load s z = load a z) /\
       fgeb lg lg = true /\
       (lr = -1 /\ lg = f0 \/ j <= lr < i0) /\
       forall i, j <= i < i0 ->
         exists q0 q,
           load a (i * n + j) = Some q0 /\
           Scalar.reduce a n i j j q0 = Some q /\
           load s (i * n + j) = Some q /\
           (i = lr -> lg = fabs q) /\
           (fgeb (fabs q) (fabs q) = true -> fgeb lg (fabs q) = true) /\
           (lr < i -> fgeb (fabs q) lg = false)).
  assert (I n (a', largest, largestRow)) as Hfin;
    [|by destruct Hfin as (_ & _ & Hlr & Hall)].
  apply (for_range_returned I _ _ _ _ _ Hrun); unfold I.
  - lia.
  - split; [done|]. split; [apply fgeb_zero|]. split; [by left|].
    intros i Hi. lia.
  - clear Hrun.
    intros i [[s lg] lr] [[s' lg'] lr'] Hi (Hfr & Hlg & Hlr & Hprev) Hbody.
    assert (load s (i * n + j) = load a (i * n + j)) as Hq0.
    { apply Hfr. intros i' Hi'. apply index_row_ne; lia. }
    destruct (load s (i * n + j)) as [q0|]; [|discriminate].
    simpl in Hbody.
    rewrite (reduce_ext a s) in Hbody.
    2: { intros k Hk. split; apply Hfr; intros i' Hi'; apply index_ne; lia. }
    destruct (Scalar.reduce a n i j j q0) as [q|] eqn:Hred; [|discriminate].
    simpl in Hbody.
    destruct (store s (i * n + j) q) as [s1|] eqn:Hst; [|discriminate].
    simpl in Hbody.
    assert (forall i', j <= i' < i ->
      load s1 (i' * n + j) = load s (i' * n + j)) as Hkeep.
    { intros i' Hi'. eapply load_store_ne; [done|].
      apply index_row_ne; lia. }
    assert (forall z, (forall i0, j <= i0 < i + 1 -> z <> i0 * n + j) ->
      load s1 z = load a z) as Hfr1.
    { intros z Hz. rewrite <- Hfr by (intros; apply Hz; lia).
      eapply load_store_ne; [done|]. intros Heq. by apply (Hz i); [lia|]. }
    pose proof (load_store_eq _ _ _ _ Hst) as Hnew.
    destruct (fgeb (fabs q) lg) eqn:Hge; injection Hbody as <- <- <-.
    + split; [done|]. split; [by eapply fgeb_comparable|].
      split; [right; lia|].
      intros i' Hi'. destruct (decide (i' = i)) as [->|Hne].
      * exists q0, q. split; [done|]. split; [done|]. split; [done|].
        split; [done|]. split; [done | lia].
      * destruct (Hprev i') as (p0 & p & Hp0 & Hp & Hld & _ & Hmax & _);
          [lia|].
        exists p0, p. split; [done|]. split; [done|].
        split; [by rewrite Hkeep by lia|]. split; [lia|].
        split; [|lia]. intros Hc. eapply fgeb_trans; [done | auto].
    + split; [done|]. split; [done|].
      split; [destruct Hlr as [?|?]; [by left | right; lia]|].
      intros i' Hi'. destruct (decide (i' = i)) as [->|Hne].
      * exists q0, q. split; [done|]. split; [done|]. split; [done|].
        split; [destruct Hlr as [[-> _]|?]; lia|].
        split; [|done]. intros Hc. by apply fgeb_total.
      * destruct (Hprev i') as (p0 & p & Hp0 & Hp & Hld & Hrest); [lia|].
        exists p0, p. split; [done|]. split; [done|].
        split; [by rewrite Hkeep by lia | done].
Qed.

(** C6: the pivot search of column [j] stores in [a[i][j]], [j <= i < n],
    the reduced value [q] of row [i] and selects the last row whose
    [fabs(q)] is largest: [largest] is the [fabs(q)] of the selected row,
    it is [>=] the [fabs(q)] of every row (a NaN, which compares with
    nothing, apart), and no later row has a [fabs(q) >= largest]; so of two
    rows that tie the later one wins. *)
Theorem pivot_search_takes_last_largest a n j a' largest largestRow :
  0 <= j < n ->
  Scalar.lower_part a n j = Some (a', largest, largestRow) ->
  (largestRow = -1 /\ largest = f0 \/ j <= largestRow < n) /\
  (forall i, j <= i < n ->
     exists q0 q,
       load a (i * n + j) = Some q0 /\
       Scalar.reduce a n i j j q0 = Some q /\
       load a' (i * n + j) = Some q /\
       (i = largestRow -> largest = fabs q) /\
       (fgeb (fabs q) (fabs q) = true -> fgeb largest (fabs q) = true) /\
       (largestRow < i -> fgeb (fabs q) largest = false)) /\
  (forall i1 i2 q1 q2, j <= i1 < i2 -> i2 < n ->
     load a' (i1 * n + j) = Some q1 -> load a' (i2 * n + j) = Some q2 ->
     fabs q1 = fabs q2 -> fgeb (fabs q2) (fabs q2) = true ->
     largestRow <> i1).
Proof.
  intros Hj Hrun.
  destruct (lower_part_search a n j a' largest largestRow Hj Hrun)
    as [Hrow Hall].
  split; [done|]. split; [done|].
  intros i1 i2 q1 q2 Hi1 Hi2 Hq1 Hq2 Htie Hc ->.
  destruct (Hall i1) as (? & p1 & _ & _ & Hp1 & Hlg & _); [lia|].
  destruct (Hall i2) as (? & p2 & _ & _ & Hp2 & _ & _ & Hlater); [lia|].
  assert (p1 = q1) as -> by congruence. assert (p2 = q2) as -> by congruence.
  specialize (Hlater ltac:(lia)).
  rewrite (Hlg eq_refl), Htie, Hc in Hlater. discriminate.
Qed.

Lemma swap_rows_exchange a n r1 r2 :
  mat_ok a n -> 0 <= r1 < n -> 0 <= r2 < n -> r1 <> r2 ->
  exists a', Scalar.swap_rows a n r1 r2 = Some a' /\
    forall c, 0 <= c < n ->
      load a' (r1 * n + c) = load a (r2 * n + c) /\
      load a' (r2 * n + c) = load a (r1 * n + c).
Proof.
  intros Ha Hr1 Hr2 Hne. unfold Scalar.swap_rows.
  destruct (for_range_invariant
    (fun k s => length s = length a /\
       forall c, 0 <= c < n ->
         if decide (c < k)
         then load s (r1 * n + c) = load a (r2 * n + c) /\
              load s (r2 * n + c) = load a (r1 * n + c)
         else load s (r1 * n + c) = load a (r1 * n + c) /\
              load s (r2 * n + c) = load a (r2 * n + c))
    (fun k a => x ← load a (r1 * n + k); y ← load a (r2 * n + k);
                a ← store a (r1 * n + k) y; store a (r2 * n + k) x) 0 n a)
    as (a' & Hrun & _ & Hsw); [by destruct Ha | | |].
  - split; [done|]. intros c Hc. by rewrite decide_False by lia.
  - intros k s Hk [Hlen Hsw].
    pose proof (Hsw k Hk) as Hk'. rewrite decide_False in Hk' by lia.
    destruct Hk' as [Hx Hy].
    destruct (mat_load a n r1 k) as [x Hax]; [done | done | done |].
    destruct (mat_load a n r2 k) as [y Hay]; [done | done | done |].
    rewrite Hx, Hax, Hy, Hay. simpl.
    destruct (store s (r1 * n + k) y) as [s1|] eqn:Hst1.
    2: { apply eq_None_not_Some in Hst1. exfalso. apply Hst1.
         rewrite store_in_range; [done|]. rewrite Hlen.
         by apply load_range in Hax. }
    simpl.
    destruct (store s1 (r2 * n + k) x) as [s2|] eqn:Hst2.
    2: { apply eq_None_not_Some in Hst2. exfalso. apply Hst2.
         rewrite store_in_range; [done|].
         rewrite (store_length _ _ _ _ Hst1), Hlen.
         by apply load_range in Hay. }
    exists s2. split; [done|]. split.
    { rewrite (store_length _ _ _ _ Hst2), (store_length _ _ _ _ Hst1). done. }
    intros c Hc. destruct (decide (c = k)) as [->|Hck].
    + rewrite decide_True by lia. split.
      * rewrite (load_store_ne _ _ _ _ (r1 * n + k) Hst2)
          by (apply index_ne; lia).
        rewrite (load_store_eq _ _ _ _ Hst1). done.
      * rewrite (load_store_eq _ _ _ _ Hst2). done.
    + assert (load s2 (r1 * n + c) = load s (r1 * n + c) /\
              load s2 (r2 * n + c) = load s (r2 * n + c)) as [-> ->].
      { split.
        - rewrite (load_store_ne _ _ _ _ (r1 * n + c) Hst2)
            by (apply index_ne; lia).
          apply (load_store_ne _ _ _ _ _ Hst1). apply index_ne; lia.
        - rewrite (load_store_ne _ _ _ _ (r2 * n + c) Hst2)
            by (apply index_ne; lia).
          apply (load_store_ne _ _ _ _ _ Hst1). apply index_ne; lia. }
      specialize (Hsw c Hc). repeat case_decide; try lia; done.
  - exists a'. split; [done|]. intros c Hc. specialize (Hsw c Hc).
    by rewrite decide_True in Hsw by lia.
Qed.

(** The column loop returns what one of its passes returns. *)
Lemma lu_columns_return a n ipvt j0 c aj ipvtj r cnt :
  Scalar.lu_columns a n ipvt j0 c = Some (Next aj ipvtj) ->
  Scalar.lu_column aj n ipvtj (j0 + Z.of_nat c) = Some (Return r) ->
  (c < cnt)%nat ->
  Scalar.lu_columns a n ipvt j0 cnt = Some (Return r).
Proof.
  revert a ipvt j0 cnt. induction c as [|c IH]; intros a ipvt j0 cnt Hpre Hcol Hlt.
  - injection Hpre as -> ->. destruct cnt as [|cnt]; [lia|]. simpl.
    replace (j0 + Z.of_nat 0) with j0 in Hcol by lia. by rewrite Hcol.
  - destruct cnt as [|cnt]; [lia|]. simpl in *.
    destruct (Scalar.lu_column a n ipvt j0) as [[r1|a1 ipvt1]|];
      [discriminate | | discriminate]. simpl in *.
    apply (IH a1 ipvt1 (j0 + 1)); [done | | lia].
    by replace (j0 + 1 + Z.of_nat c) with (j0 + Z.of_nat (S c)) by lia.
Qed.

(** C5, as the code has it: when every candidate of column [j] reduces to
    a value whose [fabs] is zero, the comparison [>=] against
    [largest = 0.0] registers each of them, the last row [n - 1] is the
    pivot, [ipvt[j] = n - 1] is written, and [lu_factor] returns [j] from
    the zero-diagonal check. *)
Theorem zero_candidates_fail_at_diagonal
    a n ipvt j aj ipvtj au a1 largest largestRow :
  mat_ok a n -> vec_ok ipvt n -> 0 <= j < n ->
  (forall i, 0 <= i < n -> ~ zero_row a n i) ->
  Scalar.lu_columns a n ipvt 0 (Z.to_nat j) = Some (Next aj ipvtj) ->
  Scalar.upper_part aj n j = Some au ->
  Scalar.lower_part au n j = Some (a1, largest, largestRow) ->
  (forall i, j <= i < n ->
     exists q, load a1 (i * n + j) = Some q /\ fabs q = f0) ->
  largestRow = n - 1 /\
  exists a2 ipvt',
    store ipvtj j (n - 1) = Some ipvt' /\
    Scalar.lu_factor a n ipvt = Some (Result ZeroDiag j a2 ipvt').
Proof.
  intros Ha Hp Hj Hrows Hpre Hup Hlow Hzero.
  destruct (lu_columns_safe a n ipvt 0 (Z.to_nat j) aj ipvtj)
    as (Hlenj & Hlenp & _); [lia | lia | done |].
  destruct (upper_part_frame aj n j au) as [Hlen1 _]; [lia | done |].
  destruct (lower_part_frame au n j a1 largest largestRow) as (Hlen2 & _ & _);
    [lia | done |].
  assert (mat_ok a1 n) as Ha1 by (destruct Ha; split; [done | lia]).
  destruct (lower_part_search au n j a1 largest largestRow Hj Hlow)
    as [Hrow Hall].
  assert (largest = f0) as Hlg.
  { destruct Hrow as [[_ ?]|Hr]; [done|].
    destruct (Hall largestRow Hr) as (? & q & _ & _ & Hq & Hl & _).
    destruct (Hzero largestRow Hr) as (q' & Hq' & Hz).
    rewrite (Hl eq_refl). congruence. }
  assert (largestRow = n - 1) as ->.
  { destruct (decide (largestRow = n - 1)) as [|Hne]; [done|]. exfalso.
    destruct (Hall (n - 1)) as (? & q & _ & _ & Hq & _ & _ & Hlater); [lia|].
    destruct (Hzero (n - 1)) as (q' & Hq' & Hz); [lia|].
    assert (q = q') as -> by congruence.
    rewrite Hz, Hlg, fgeb_zero in Hlater.
    assert (largestRow < n - 1) as Hlt by (destruct Hrow as [[-> _]|?]; lia).
    by specialize (Hlater Hlt). }
  split; [done|].
  destruct (Hzero (n - 1)) as (q & Hq & Hz%fabs_zero); [lia|].
  assert (store ipvtj j (n - 1) = Some (<[Z.to_nat j := n - 1]> ipvtj)) as Hst
    by (apply store_in_range; unfold vec_ok in Hp; lia).
  assert (exists a2,
    Scalar.pivot_column a1 n ipvtj j (n - 1)
    = Scalar.finish_column a2 n ipvtj j (n - 1) /\
    load a2 (j * n + j) = Some q) as (a2 & Hpiv & Hd).
  { unfold Scalar.pivot_column. destruct (decide (j ≠ n - 1)) as [Hne|Heq].
    - rewrite decide_False by lia.
      destruct (swap_rows_exchange a1 n (n - 1) j) as (a2 & -> & Hsw);
        [done | lia | lia | lia |].
      exists a2. split; [done|]. destruct (Hsw j Hj) as [_ ->]. done.
    - exists a1. split; [done|]. by replace j with (n - 1) at 1 by lia. }
  exists a2, (<[Z.to_nat j := n - 1]> ipvtj). split; [done|].
  assert (Scalar.lu_column aj n ipvtj j
          = Some (Return (Result ZeroDiag j a2 (<[Z.to_nat j := n - 1]> ipvtj))))
    as Hcol.
  { unfold Scalar.lu_column. rewrite Hup. simpl. rewrite Hlow. simpl.
    rewrite Hpiv. unfold Scalar.finish_column. rewrite Hst. simpl.
    rewrite Hd. simpl. by rewrite Hz. }
  unfold Scalar.lu_factor.
  destruct (zero_row_check_spec a n 0 (Z.to_nat n)) as (z & -> & Hspec);
    [done | lia | lia |]. simpl.
  destruct z as [i|]; simpl in Hspec.
  { destruct Hspec as (Hi & Hzr & _). exfalso. apply (Hrows i); [lia | done]. }
  replace j with (0 + Z.of_nat (Z.to_nat j)) in Hcol at 1 by lia.
  rewrite (lu_columns_return _ _ _ _ _ _ _ _ (Z.to_nat n) Hpre Hcol) by lia.
  done.
Qed.

End PivotSearch.

(** ** [lu_factor] returns on well-formed buffers *)

Section Returns.
Context {F : Type} `{Arith F}.
Implicit Types (a : list F) (ipvt : list Z) (n i j : Z).

Lemma reduce_returns a n i j hi q :
  mat_ok a n -> 0 <= i < n -> 0 <= j < n -> hi <= n ->
  is_Some (Scalar.reduce a n i j hi q).
Proof.
  intros Ha Hi Hj Hhi. unfold Scalar.reduce.
  destruct (Z.le_gt_cases 0 hi) as [Hle|Hgt].
  - destruct (for_range_invariant (fun _ _ => True)
      (fun k q => x ← load a (i * n + k); y ← load a (k * n + j);
                  Some (fsub q (fmul x y))) 0 hi q) as (t & -> & _);
      [done | done | | done].
    intros k t Hk _.
    destruct (mat_load a n i k) as [x ->]; [done | done | lia |].
    destruct (mat_load a n k j) as [y ->]; [done | lia | done |].
    simpl. eauto.
  - by rewrite for_range_empty by lia.
Qed.

Lemma upper_part_returns a n j :
  mat_ok a n -> 0 <= j < n -> is_Some (Scalar.upper_part a n j).
Proof.
  intros Ha Hj. unfold Scalar.upper_part.
  destruct (for_range_invariant (fun _ s => length s = length a)
    (fun i a => q ← load a (i * n + j); q ← Scalar.reduce a n i j i q;
                store a (i * n + j) q) 0 j a) as (a' & -> & _);
    [lia | done | | done].
  intros i s Hi Hlen.
  assert (mat_ok s n) as Hs by (destruct Ha; split; [done | lia]).
  destruct (mat_load s n i j) as [q0 Hq0]; [done | lia | done |].
  rewrite Hq0. simpl.
  destruct (reduce_returns s n i j i q0) as [q ->]; [done | lia | done | lia |].
  simpl. rewrite store_in_range by (by apply load_range in Hq0).
  eexists. split; [done|]. by rewrite length_insert.
Qed.

Lemma lower_part_returns a n j :
  mat_ok a n -> 0 <= j < n -> is_Some (Scalar.lower_part a n j).
Proof.
  intros Ha Hj. unfold Scalar.lower_part.
  destruct (for_range_invariant
    (fun _ '(s, _, _) => length s = length a)
    (fun i '(a, largest, largestRow) =>
       q ← load a (i * n + j);
       q ← Scalar.reduce a n i j j q;
       a ← store a (i * n + j) q;
       let x := fabs q in
       if fgeb x largest then Some (a, x, i)
       else Some (a, largest, largestRow)) j n (a, f0, -1))
    as (s' & Hrun & _); [lia | done | | by exists s'].
  intros i [[s lg] lr] Hi Hlen.
  assert (mat_ok s n) as Hs by (destruct Ha; split; [done | lia]).
  destruct (mat_load s n i j) as [q0 Hq0]; [done | lia | done |].
  rewrite Hq0. simpl.
  destruct (reduce_returns s n i j j q0) as [q ->]; [done | lia | done | lia |].
  simpl. rewrite store_in_range by (by apply load_range in Hq0). simpl.
  destruct (fgeb (fabs q) lg); eexists (_, _, _);
    (split; [done|]; by rewrite length_insert).
Qed.

Lemma scale_column_returns a n j mult :
  mat_ok a n -> 0 <= j < n -> is_Some (Scalar.scale_column a n j mult).
Proof.
  intros Ha Hj. unfold Scalar.scale_column.
  destruct (for_range_invariant (fun _ s => length s = length a)
    (fun i a => x ← load a (i * n + j); store a (i * n + j) (fmul x mult))
    (j + 1) n a) as (a' & -> & _); [lia | done | | done].
  intros i s Hi Hlen.
  assert (mat_ok s n) as Hs by (destruct Ha; split; [done | lia]).
  destruct (mat_load s n i j) as [x Hx]; [done | lia | done |].
  rewrite Hx. simpl. rewrite store_in_range by (by apply load_range in Hx).
  eexists. split; [done|]. by rewrite length_insert.
Qed.

Lemma finish_column_returns a n ipvt j largestRow :
  division_guarded F -> mat_ok a n -> vec_ok ipvt n -> 0 <= j < n ->
  is_Some (Scalar.finish_column a n ipvt j largestRow).
Proof.
  intros Hdiv Ha Hp Hj. unfold Scalar.finish_column.
  rewrite store_in_range by (unfold vec_ok in Hp; lia). simpl.
  destruct (mat_load a n j j) as [d ->]; [done | done | done |]. simpl.
  destruct (feqb d f0) eqn:Hd; [done|].
  destruct (decide (j ≠ n - 1)); [|done].
  destruct (Hdiv f1 d Hd) as [mult ->]. simpl.
  destruct (scale_column_returns a n j mult) as [a' ->]; done.
Qed.

Lemma lu_column_returns a n ipvt j :
  division_guarded F -> mat_ok a n -> vec_ok ipvt n -> 0 <= j < n ->
  exists o, Scalar.lu_column a n ipvt j = Some o /\
    length (flow_matrix o) = length a /\
    length (flow_pivots o) = length ipvt.
Proof.
  intros Hdiv Ha Hp Hj.
  assert (forall a2 lr o, length a2 = length a ->
    Scalar.finish_column a2 n ipvt j lr = Some o ->
    length (flow_matrix o) = length a /\
    length (flow_pivots o) = length ipvt) as Hlens.
  { intros a2 lr o Hlen2 Hfin.
    pose proof (finish_column_pivots _ _ _ _ _ _ Hfin) as [Hst _].
    split; [|by apply store_length in Hst].
    unfold Scalar.finish_column in Hfin.
    destruct (store ipvt j lr) as [ipvt1|]; [|discriminate]. simpl in Hfin.
    destruct (load a2 (j * n + j)) as [d|]; [|discriminate]. simpl in Hfin.
    destruct (feqb d f0); [by injection Hfin as <-|].
    destruct (decide (j ≠ n - 1)); [|by injection Hfin as <-].
    destruct (fdiv f1 d) as [mult|]; [|discriminate]. simpl in Hfin.
    destruct (Scalar.scale_column a2 n j mult) as [a3|] eqn:Hsc;
      [|discriminate].
    injection Hfin as <-. simpl.
    destruct (scale_column_frame a2 n j mult a3) as [-> _]; [lia | done | done]. }
  unfold Scalar.lu_column.
  destruct (upper_part_returns a n j Ha Hj) as [au Hup]. rewrite Hup. simpl.
  destruct (upper_part_frame a n j au) as [Hlen1 _]; [lia | done |].
  assert (mat_ok au n) as Hau by (destruct Ha; split; [done | lia]).
  destruct (lower_part_returns au n j Hau Hj) as [[[a1 lg] lr] Hlow].
  rewrite Hlow. simpl.
  destruct (lower_part_frame au n j a1 lg lr) as (Hlen2 & Hlr & _);
    [lia | done |].
  assert (mat_ok a1 n) as Ha1 by (destruct Ha; split; [done | lia]).
  unfold Scalar.pivot_column.
  destruct (decide (j ≠ lr)) as [Hne|Heq].
  - destruct (decide (lr = -1)).
    + eexists. split; [done|]. simpl. split; [congruence | done].
    + destruct (swap_rows_exchange a1 n lr j) as (a2 & Hsw & _);
        [done | lia | lia | lia |].
      rewrite Hsw. simpl.
      destruct (swap_rows_frame a1 n lr j a2) as [Hlen3 _]; [lia | done |].
      assert (mat_ok a2 n) as Ha2 by (destruct Ha; split; [done | lia]).
      destruct (finish_column_returns a2 n ipvt j lr Hdiv Ha2 Hp Hj)
        as [o Ho].
      exists o. split; [done|]. apply (Hlens a2 lr); [congruence | done].
  - destruct (finish_column_returns a1 n ipvt j lr Hdiv Ha1 Hp Hj) as [o Ho].
    exists o. split; [done|]. apply (Hlens a1 lr); [congruence | done].
Qed.

Lemma lu_columns_returns a n ipvt j cnt :
  division_guarded F -> mat_ok a n -> vec_ok ipvt n ->
  0 <= j -> j + Z.of_nat cnt <= n ->
  is_Some (Scalar.lu_columns a n ipvt j cnt).
Proof.
  intros Hdiv. revert a ipvt j.
  induction cnt as [|c IH]; intros a ipvt j Ha Hp Hj Hn; [done|].
  simpl.
  destruct (lu_column_returns a n ipvt j) as (o & -> & Hlena & Hlenp);
    [done | done | done | lia |]. simpl.
  destruct o as [r|a1 ipvt1]; [done|]. simpl in *.
  apply IH; [| | lia | lia].
  - destruct Ha. split; [done | lia].
  - unfold vec_ok in *. lia.
Qed.

(** On well-formed buffers [lu_factor] returns: no access is out of
    bounds, and no division is by a zero. *)
Lemma lu_factor_returns a n ipvt :
  division_guarded F -> mat_ok a n -> vec_ok ipvt n ->
  is_Some (Scalar.lu_factor a n ipvt).
Proof.
  intros Hdiv Ha Hp. pose proof Ha as [Hn _]. unfold Scalar.lu_factor.
  destruct (zero_row_check_spec a n 0 (Z.to_nat n)) as (z & -> & _);
    [done | lia | lia |]. simpl.
  destruct z as [i|]; [done|].
  destruct (lu_columns_returns a n ipvt 0 (Z.to_nat n)) as [o ->];
    [done | done | done | lia | lia |]. simpl.
  by destruct o.
Qed.

End Returns.

(** * Exact arithmetic *)

(** ** Finite sums of rationals *)

Lemma sum_n_ext f g c :
  (forall k, (k < c)%nat -> f k = g k) -> sum_n f c = sum_n g c.
Proof.
  induction c as [|c IH]; intros Hfg; simpl; [done|].
  rewrite IH, Hfg by (intros; try apply Hfg; lia). done.
Qed.

Lemma sum_n_shift f c :
  sum_n f (S c) = (f O + sum_n (fun k => f (S k)) c)%Qc.
Proof.
  induction c as [|c IH].
  - simpl. ring.
  - change (sum_n f (S (S c))) with (sum_n f (S c) + f (S c))%Qc.
    rewrite IH. simpl. ring.
Qed.

Lemma sumZ_empty lo hi f : hi <= lo -> sumZ lo hi f = 0%Qc.
Proof. intros. unfold sumZ. by replace (Z.to_nat (hi - lo)) with O by lia. Qed.

Lemma sumZ_snoc lo hi f :
  lo <= hi -> sumZ lo (hi + 1) f = (sumZ lo hi f + f hi)%Qc.
Proof.
  intros. unfold sumZ.
  replace (Z.to_nat (hi + 1 - lo)) with (S (Z.to_nat (hi - lo))) by lia.
  simpl. by replace (lo + Z.of_nat (Z.to_nat (hi - lo))) with hi by lia.
Qed.

Lemma sumZ_cons lo hi f :
  lo < hi -> sumZ lo hi f = (f lo + sumZ (lo + 1) hi f)%Qc.
Proof.
  intros. unfold sumZ.
  replace (Z.to_nat (hi - lo)) with (S (Z.to_nat (hi - (lo + 1)))) by lia.
  rewrite sum_n_shift. replace (lo + Z.of_nat 0) with lo by lia. f_equal.
  apply sum_n_ext. intros k _. f_equal. lia.
Qed.

Lemma sumZ_ext lo hi f g :
  (forall k, lo <= k < hi -> f k = g k) -> sumZ lo hi f = sumZ lo hi g.
Proof. intros Hfg. apply sum_n_ext. intros k Hk. apply Hfg. lia. Qed.

Lemma range_ind (P : Z -> Prop) lo hi :
  lo <= hi -> P lo -> (forall k, lo <= k < hi -> P k -> P (k + 1)) -> P hi.
Proof.
  intros Hle H0 Hstep.
  replace hi with (lo + Z.of_nat (Z.to_nat (hi - lo))) by lia.
  assert (Z.of_nat (Z.to_nat (hi - lo)) <= hi - lo) as Hc by lia.
  revert Hc. generalize (Z.to_nat (hi - lo)) as c.
  induction c as [|c IH]; intros Hc.
  - by replace (lo + Z.of_nat 0) with lo by lia.
  - replace (lo + Z.of_nat (S c)) with (lo + Z.of_nat c + 1) by lia.
    apply Hstep; [lia|]. apply IH. lia.
Qed.

Lemma sumZ_zero lo hi f :
  (forall k, lo <= k < hi -> f k = 0%Qc) -> sumZ lo hi f = 0%Qc.
Proof.
  intros Hf. destruct (Z.le_gt_cases lo hi); [|apply sumZ_empty; lia].
  revert Hf. pattern hi. apply (range_ind _ lo hi); [done | |].
  - intros _. by apply sumZ_empty.
  - intros k Hk IH Hf. rewrite sumZ_snoc by lia.
    rewrite IH, Hf by (intros; try apply Hf; lia). ring.
Qed.

Lemma sumZ_split lo mid hi f :
  lo <= mid <= hi -> sumZ lo hi f = (sumZ lo mid f + sumZ mid hi f)%Qc.
Proof.
  intros [H1 H2]. pattern hi. apply (range_ind _ mid hi); [done | |].
  - rewrite (sumZ_empty mid mid) by lia. ring.
  - intros k Hk IH. rewrite !sumZ_snoc by lia. rewrite IH. ring.
Qed.

Lemma sumZ_plus lo hi f g :
  sumZ lo hi (fun k => f k + g k)%Qc = (sumZ lo hi f + sumZ lo hi g)%Qc.
Proof.
  destruct (Z.le_gt_cases lo hi); [|rewrite !sumZ_empty by lia; ring].
  pattern hi. apply (range_ind _ lo hi); [done | |].
  - rewrite !sumZ_empty by lia. ring.
  - intros k Hk IH. rewrite !sumZ_snoc by lia. rewrite IH. ring.
Qed.

Lemma sumZ_scale lo hi c f :
  sumZ lo hi (fun k => c * f k)%Qc = (c * sumZ lo hi f)%Qc.
Proof.
  destruct (Z.le_gt_cases lo hi); [|rewrite !sumZ_empty by lia; ring].
  pattern hi. apply (range_ind _ lo hi); [done | |].
  - rewrite !sumZ_empty by lia. ring.
  - intros k Hk IH. rewrite !sumZ_snoc by lia. rewrite IH. ring.
Qed.

Lemma sumZ_exchange lo hi lo' hi' (f : Z -> Z -> Qc) :
  sumZ lo hi (fun i => sumZ lo' hi' (fun j => f i j))
  = sumZ lo' hi' (fun j => sumZ lo hi (fun i => f i j)).
Proof.
  destruct (Z.le_gt_cases lo hi).
  - pattern hi. apply (range_ind _ lo hi); [done | |].
    + rewrite sumZ_empty by lia. symmetry. apply sumZ_zero.
      intros. apply sumZ_empty. lia.
    + intros k Hk IH. rewrite sumZ_snoc by lia. rewrite IH.
      rewrite <- sumZ_plus. apply sumZ_ext. intros j _.
      by rewrite sumZ_snoc by lia.
  - rewrite sumZ_empty by lia. symmetry. apply sumZ_zero.
    intros. apply sumZ_empty. lia.
Qed.

(** The sum has a single nonzero term. *)
Lemma sumZ_single lo hi f k0 :
  lo <= k0 < hi ->
  (forall k, lo <= k < hi -> k <> k0 -> f k = 0%Qc) ->
  sumZ lo hi f = f k0.
Proof.
  intros Hk0 Hf.
  rewrite (sumZ_split lo k0 hi) by lia.
  rewrite (sumZ_cons k0 hi) by lia.
  rewrite (sumZ_zero lo k0), (sumZ_zero (k0 + 1) hi)
    by (intros; apply Hf; lia).
  ring.
Qed.

(** ** Buffers of rationals as matrices and vectors *)

Lemma M_load a n i j :
  mat_ok a n -> 0 <= i < n -> 0 <= j < n -> load a (i * n + j) = Some (M a n i j).
Proof.
  intros Ha Hi Hj. unfold M.
  by destruct (mat_load a n i j Ha Hi Hj) as [x ->].
Qed.

Lemma M_store a n i j v :
  mat_ok a n -> 0 <= i < n -> 0 <= j < n ->
  exists a', store a (i * n + j) v = Some a' /\ mat_ok a' n /\
    length a' = length a /\
    M a' n i j = v /\
    forall i' j', 0 <= j' < n -> i' <> i \/ j' <> j ->
      M a' n i' j' = M a n i' j'.
Proof.
  intros Ha Hi Hj. pose proof (index_in_range n i j Hi Hj) as Hr.
  destruct Ha as [Hn Hlen].
  exists (<[Z.to_nat (i * n + j) := v]> a).
  assert (store a (i * n + j) v = Some (<[Z.to_nat (i * n + j) := v]> a)) as Hst
    by (apply store_in_range; lia).
  split; [done|]. split; [|split; [|split]].
  - split; [done|]. rewrite length_insert. done.
  - apply length_insert.
  - unfold M. by rewrite (load_store_eq _ _ _ _ Hst).
  - intros i' j' Hj' Hne. unfold M.
    rewrite (load_store_ne _ _ _ _ (i' * n + j') Hst); [done|].
    intros Heq. apply index_inj in Heq; [|done|done]. lia.
Qed.

Lemma V_load b n i : vec_ok b n -> 0 <= i < n -> load b i = Some (V b i).
Proof.
  intros Hb Hi. unfold V, vec_ok in *.
  destruct (load_in_range b i) as [x ->]; [lia | done].
Qed.

Lemma V_store b n i v :
  vec_ok b n -> 0 <= i < n ->
  exists b', store b i v = Some b' /\ vec_ok b' n /\
    V b' i = v /\ forall k, k <> i -> V b' k = V b k.
Proof.
  intros Hb Hi. unfold vec_ok in *.
  exists (<[Z.to_nat i := v]> b).
  assert (store b i v = Some (<[Z.to_nat i := v]> b)) as Hst
    by (apply store_in_range; lia).
  split; [done|]. split; [|split].
  - unfold vec_ok. rewrite length_insert. done.
  - unfold V. by rewrite (load_store_eq _ _ _ _ Hst).
  - intros k Hk. unfold V. by rewrite (load_store_ne _ _ _ _ k Hst).
Qed.

(** ** The loops of [lu_factor] on matrices *)

Lemma reduce_spec a n i j hi q :
  mat_ok a n -> 0 <= i < n -> 0 <= j < n -> 0 <= hi <= n ->
  Scalar.reduce a n i j hi q
  = Some (q - sumZ 0 hi (fun k => M a n i k * M a n k j))%Qc.
Proof.
  intros Ha Hi Hj Hhi. unfold Scalar.reduce.
  destruct (for_range_invariant
    (fun k q' => q' = (q - sumZ 0 k (fun k => M a n i k * M a n k j))%Qc)
    (fun k q => x ← load a (i * n + k); y ← load a (k * n + j);
                Some (fsub q (fmul x y))) 0 hi q) as (q' & -> & ->);
    [lia | | | done].
  - rewrite sumZ_empty by lia. ring.
  - intros k q' Hk ->. rewrite !M_load by (done || lia). simpl.
    eexists. split; [done|]. rewrite sumZ_snoc by lia. ring.
Qed.

Lemma upper_part_spec a n j :
  mat_ok a n -> 0 <= j < n ->
  exists a', Scalar.upper_part a n j = Some a' /\ mat_ok a' n /\
    length a' = length a /\
    (forall i c, 0 <= c < n -> c <> j \/ j <= i -> M a' n i c = M a n i c) /\
    (forall i, 0 <= i < j ->
       M a' n i j
       = (M a n i j - sumZ 0 i (fun k => M a n i k * M a' n k j))%Qc).
Proof.
  intros Ha Hj. unfold Scalar.upper_part.
  destruct (for_range_invariant
    (fun i0 s => mat_ok s n /\ length s = length a /\
       (forall i c, 0 <= c < n -> c <> j \/ i0 <= i -> M s n i c = M a n i c) /\
       (forall i, 0 <= i < i0 ->
          M s n i j = (M a n i j - sumZ 0 i (fun k => M a n i k * M s n k j))%Qc))
    (fun i a => q ← load a (i * n + j); q ← Scalar.reduce a n i j i q;
                store a (i * n + j) q) 0 j a)
    as (a' & Hrun & Ha' & Hlen & Hkeep & Hup); [lia | | | ].
  - split; [done|]. split; [done|]. split; [done|]. intros; lia.
  - intros i s Hi (Hs & Hlen & Hkeep & Hup).
    rewrite M_load by (done || lia). simpl.
    rewrite reduce_spec by (done || lia). simpl.
    destruct (M_store s n i j
      (M s n i j - sumZ 0 i (fun k => M s n i k * M s n k j))%Qc)
      as (s' & -> & Hs' & Hlen' & Hnew & Hold); [done | lia | done |].
    exists s'. split; [done|]. split; [done|]. split; [lia|]. split.
    + intros i' c Hc Hic. rewrite Hold by (done || lia). apply Hkeep; [done | lia].
    + intros i' Hi'. destruct (decide (i' = i)) as [->|Hne].
      * rewrite Hnew. rewrite Hkeep by (done || lia). f_equal.
        apply sumZ_ext. intros k Hk. rewrite Hkeep by (lia).
        rewrite (Hold k j) by (done || lia). done.
      * rewrite Hold by (done || lia). rewrite Hup by lia. f_equal.
        apply sumZ_ext. intros k Hk. rewrite (Hold k j) by (done || lia). done.
  - exists a'. split; [done|]. split; [done|]. split; [done|]. split; [|done].
    intros i c Hc Hic. apply Hkeep; [done | lia].
Qed.

Lemma lower_part_spec a n j :
  mat_ok a n -> 0 <= j < n ->
  exists a' largest largestRow,
    Scalar.lower_part a n j = Some (a', largest, largestRow) /\
    mat_ok a' n /\ length a' = length a /\
    (forall i c, 0 <= c < n -> c <> j \/ i < j -> M a' n i c = M a n i c) /\
    (forall i, j <= i < n ->
       M a' n i j
       = (M a n i j - sumZ 0 j (fun k => M a n i k * M a n k j))%Qc) /\
    pivot_found a' n j n largest largestRow.
Proof.
  intros Ha Hj. unfold Scalar.lower_part.
  destruct (for_range_invariant
    (fun i0 '(s, lg, lr) => mat_ok s n /\ length s = length a /\
       (forall i c, 0 <= c < n -> c <> j \/ i < j \/ i0 <= i ->
          M s n i c = M a n i c) /\
       (forall i, j <= i < i0 ->
          M s n i j
          = (M a n i j - sumZ 0 j (fun k => M a n i k * M a n k j))%Qc) /\
       pivot_found s n j i0 lg lr)
    (fun i '(a, largest, largestRow) =>
       q ← load a (i * n + j);
       q ← Scalar.reduce a n i j j q;
       a ← store a (i * n + j) q;
       let x := fabs q in
       if fgeb x largest then Some (a, x, i)
       else Some (a, largest, largestRow)) j n (a, f0, -1))
    as ([[a' lg] lr] & Hrun & Ha' & Hlen & Hkeep & Hlow & Hpiv); [lia | | | ].
  - split; [done|]. split; [done|]. split; [done|]. split; [intros; lia|].
    split; [done | lia].
  - intros i [[s lg] lr] Hi (Hs & Hlen & Hkeep & Hlow & Hpiv).
    rewrite M_load by (done || lia). simpl.
    rewrite reduce_spec by (done || lia). simpl.
    set (q := (M s n i j - sumZ 0 j (fun k => M s n i k * M s n k j))%Qc).
    destruct (M_store s n i j q)
      as (s' & -> & Hs' & Hlen' & Hnew & Hold); [done | lia | done |].
    simpl.
    assert (mat_ok s' n /\ length s' = length a /\
       (forall i' c, 0 <= c < n -> c <> j \/ i' < j \/ i + 1 <= i' ->
          M s' n i' c = M a n i' c) /\
       (forall i', j <= i' < i + 1 ->
          M s' n i' j
          = (M a n i' j - sumZ 0 j (fun k => M a n i' k * M a n k j))%Qc))
      as (H1 & H2 & H3 & H4).
    { split; [done|]. split; [lia|]. split.
      - intros i' c Hc Hic. rewrite Hold by (done || lia).
        apply Hkeep; [done | lia].
      - intros i' Hi'. destruct (decide (i' = i)) as [->|Hne].
        + rewrite Hnew. unfold q. rewrite Hkeep by (done || lia). f_equal.
          apply sumZ_ext. intros k Hk. by rewrite !Hkeep by lia.
        + rewrite Hold by (done || lia). apply Hlow. lia. }
    destruct Hpiv as [Hpiv0 Hpiv1].
    case_bool_decide as Hge.
    + eexists (_, _, _). split; [done|]. repeat (split; [done|]).
      split; [lia|]. intros _. split; [lia|]. split; [by rewrite Hnew|]. split.
      * intros i' Hi'. destruct (decide (i' = i)) as [->|Hne].
        -- rewrite Hnew. apply Qcle_refl.
        -- rewrite Hold by (done || lia).
           destruct Hpiv1 as (_ & _ & Hmax & _); [lia|].
           eapply Qcle_trans; [apply Hmax; lia | done].
      * intros; lia.
    + apply Qcnot_le_lt in Hge.
      assert (j < i) as Hji.
      { destruct (decide (i = j)) as [->|]; [|lia].
        destruct Hpiv0 as [_ ->]; [done|].
        exfalso. eapply Qclt_not_le; [done|]. apply Qcabs_nonneg. }
      destruct Hpiv1 as (Hlr & Hlg & Hmax & Hafter); [done|].
      eexists (_, _, _). split; [done|]. repeat (split; [done|]).
      split; [lia|]. intros _. split; [lia|]. split.
      { rewrite Hold by (done || lia). done. } split.
      * intros i' Hi'. destruct (decide (i' = i)) as [->|Hne].
        -- rewrite Hnew. by apply Qclt_le_weak.
        -- rewrite Hold by (done || lia). apply Hmax. lia.
      * intros i' Hi'. destruct (decide (i' = i)) as [->|Hne].
        -- by rewrite Hnew.
        -- rewrite Hold by (done || lia). apply Hafter. lia.
  - exists a', lg, lr. split; [done|]. repeat (split; [done|]). split; [|split; [|done]].
    + intros i c Hc Hic. apply Hkeep; [done | lia].
    + done.
Qed.

Lemma swapped_involutive r1 r2 i : swapped r1 r2 (swapped r1 r2 i) = i.
Proof. unfold swapped. repeat case_decide; congruence. Qed.

Lemma swapped_range r1 r2 i n :
  0 <= r1 < n -> 0 <= r2 < n -> 0 <= i < n -> 0 <= swapped r1 r2 i < n.
Proof. unfold swapped. repeat case_decide; lia. Qed.

Lemma swapped_same r i : swapped r r i = i.
Proof. unfold swapped. repeat case_decide; congruence. Qed.

Lemma swap_rows_spec a n r1 r2 :
  mat_ok a n -> 0 <= r1 < n -> 0 <= r2 < n -> r1 <> r2 ->
  exists a', Scalar.swap_rows a n r1 r2 = Some a' /\ mat_ok a' n /\
    length a' = length a /\
    forall i c, 0 <= c < n -> M a' n i c = M a n (swapped r1 r2 i) c.
Proof.
  intros Ha H1 H2 Hne. unfold Scalar.swap_rows.
  destruct (for_range_invariant
    (fun k s => mat_ok s n /\ length s = length a /\
       forall i c, 0 <= c < n ->
         M s n i c = if decide (c < k) then M a n (swapped r1 r2 i) c
                     else M a n i c)
    (fun k a => x ← load a (r1 * n + k); y ← load a (r2 * n + k);
                a ← store a (r1 * n + k) y; store a (r2 * n + k) x) 0 n a)
    as (a' & Hrun & Ha' & Hlen & Hsw); [lia | | | ].
  - split; [done|]. split; [done|]. intros i c Hc. case_decide; [lia | done].
  - intros k s Hk (Hs & Hlen & Hsw).
    rewrite !M_load by (done || lia). simpl.
    destruct (M_store s n r1 k (M s n r2 k))
      as (s1 & -> & Hs1 & Hlen1 & Hnew1 & Hold1); [done | lia | lia |]. simpl.
    destruct (M_store s1 n r2 k (M s n r1 k))
      as (s2 & -> & Hs2 & Hlen2 & Hnew2 & Hold2); [done | lia | lia |].
    exists s2. split; [done|]. split; [done|]. split; [lia|].
    intros i c Hc.
    destruct (decide (i = r2 /\ c = k)) as [[-> ->]|Hn2].
    { rewrite Hnew2, Hsw by lia. unfold swapped.
      repeat case_decide; try lia; congruence. }
    rewrite Hold2 by (done || lia).
    destruct (decide (i = r1 /\ c = k)) as [[-> ->]|Hn1].
    { rewrite Hnew1, Hsw by lia. unfold swapped.
      repeat case_decide; try lia; congruence. }
    rewrite Hold1 by (done || lia). rewrite Hsw by done.
    unfold swapped. repeat case_decide; try lia; try done.
  - exists a'. split; [done|]. split; [done|]. split; [done|].
    intros i c Hc. rewrite Hsw by done. case_decide; [done | lia].
Qed.

Lemma scale_column_spec a n j mult :
  mat_ok a n -> 0 <= j < n ->
  exists a', Scalar.scale_column a n j mult = Some a' /\ mat_ok a' n /\
    length a' = length a /\
    (forall i c, 0 <= c < n -> c <> j \/ i <= j -> M a' n i c = M a n i c) /\
    (forall i, j < i < n -> M a' n i j = (M a n i j * mult)%Qc).
Proof.
  intros Ha Hj. unfold Scalar.scale_column.
  destruct (for_range_invariant
    (fun i0 s => mat_ok s n /\ length s = length a /\
       (forall i c, 0 <= c < n -> c <> j \/ i <= j \/ i0 <= i ->
          M s n i c = M a n i c) /\
       (forall i, j < i < i0 -> M s n i j = (M a n i j * mult)%Qc))
    (fun i a => x ← load a (i * n + j); store a (i * n + j) (fmul x mult))
    (j + 1) n a)
    as (a' & Hrun & Ha' & Hlen & Hkeep & Hsc); [lia | | | ].
  - split; [done|]. split; [done|]. split; [done|]. intros; lia.
  - intros i s Hi (Hs & Hlen & Hkeep & Hsc).
    rewrite M_load by (done || lia). simpl.
    destruct (M_store s n i j (M s n i j * mult)%Qc)
      as (s' & -> & Hs' & Hlen' & Hnew & Hold); [done | lia | lia |].
    exists s'. split; [done|]. split; [done|]. split; [lia|]. split.
    + intros i' c Hc Hic. rewrite Hold by (done || lia).
      apply Hkeep; [done | lia].
    + intros i' Hi'. destruct (decide (i' = i)) as [->|Hne].
      * rewrite Hnew. by rewrite Hkeep by lia.
      * rewrite Hold by (done || lia). apply Hsc. lia.
  - exists a'. split; [done|]. split; [done|]. split; [done|]. split; [|done].
    intros i c Hc Hic. apply Hkeep; [done | lia].
Qed.

(** ** The factorisation invariant *)

Lemma upper_eq_agree A a a' n i c :
  0 <= i <= c -> c < n ->
  (forall k, 0 <= k <= c -> M a' n i k = M a n i k) ->
  (forall k, 0 <= k < i -> M a' n k c = M a n k c) ->
  upper_eq A a n i c -> upper_eq A a' n i c.
Proof.
  unfold upper_eq. intros Hi Hc Hrow Hcol <-. rewrite Hrow by lia. f_equal.
  apply sumZ_ext. intros k Hk. by rewrite Hrow, Hcol by lia.
Qed.

Lemma lower_eq_agree A a a' n i c :
  0 <= c -> c < n ->
  (forall k, 0 <= k <= c -> M a' n i k = M a n i k) ->
  (forall k, 0 <= k <= c -> M a' n k c = M a n k c) ->
  lower_eq A a n i c -> lower_eq A a' n i c.
Proof.
  unfold lower_eq. intros Hi Hc Hrow Hcol <-.
  rewrite Hrow, Hcol by lia. f_equal.
  apply sumZ_ext. intros k Hk. by rewrite Hrow, Hcol by lia.
Qed.

(** Lines 46-68 take [factored] to [reduced] and find the pivot. *)
Lemma reduce_column_spec A a n j :
  factored A a n j -> 0 <= j < n ->
  exists au a1 largest largestRow,
    Scalar.upper_part a n j = Some au /\
    Scalar.lower_part au n j = Some (a1, largest, largestRow) /\
    length a1 = length a /\
    reduced A a1 n j /\
    pivot_found a1 n j n largest largestRow.
Proof.
  intros (Ha & HU & HL & HA & HD) Hj.
  destruct (upper_part_spec a n j Ha Hj)
    as (au & Hup & Hau & Hlenu & Hkeepu & Hupper).
  destruct (lower_part_spec au n j Hau Hj)
    as (a1 & lg & lr & Hlow & Ha1 & Hlen1 & Hkeepl & Hlower & Hpiv).
  exists au, a1, lg, lr. split; [done|]. split; [done|]. split; [lia|].
  split; [|done].
  assert (forall i c, 0 <= c < n -> c <> j -> M a1 n i c = M a n i c) as Hoff.
  { intros i c Hc Hne. rewrite Hkeepl, Hkeepu by (done || lia). done. }
  assert (forall i, i < j -> M a1 n i j = M au n i j) as Hupj.
  { intros i Hi. apply Hkeepl; lia. }
  split; [done|]. split; [|split; [|split; [|split; [|split]]]].
  - intros i c Hc Hi. apply (upper_eq_agree A a); [lia | lia | | | by apply HU];
      intros k Hk; apply Hoff; lia.
  - intros i c Hc Hi. apply (lower_eq_agree A a); [lia | lia | | | by apply HL];
      intros k Hk; apply Hoff; lia.
  - intros i Hi. unfold upper_eq. rewrite Hupj, Hupper by lia.
    rewrite <- HA by lia.
    rewrite (sumZ_ext 0 i (fun k => (M a1 n i k * M a1 n k j)%Qc)
                          (fun k => (M a n i k * M au n k j)%Qc)).
    + ring.
    + intros k Hk. simpl. by rewrite Hoff, Hupj by lia.
  - intros i Hi. unfold reduced_eq. rewrite Hlower by lia.
    rewrite Hkeepu by lia. rewrite <- HA by lia.
    rewrite (sumZ_ext 0 j (fun k => (M a1 n i k * M a1 n k j)%Qc)
                          (fun k => (M au n i k * M au n k j)%Qc)).
    + ring.
    + intros k Hk. simpl. rewrite Hoff, Hupj by lia.
      by rewrite (Hkeepu i k) by lia.
  - intros i c Hi Hc. rewrite Hoff by lia. apply HA; lia.
  - intros c Hc. rewrite Hoff by lia. by apply HD.
Qed.

Lemma swapped_below r1 r2 i : i < r1 -> i < r2 -> swapped r1 r2 i = i.
Proof. unfold swapped. repeat case_decide; lia. Qed.

Lemma swapped_sym r1 r2 i : swapped r1 r2 i = swapped r2 r1 i.
Proof. unfold swapped. repeat case_decide; congruence. Qed.

Lemma swapped_above r1 r2 i n :
  r1 <= r2 < n -> r1 <= i < n -> r1 <= swapped r1 r2 i < n.
Proof. unfold swapped. repeat case_decide; lia. Qed.

(** Exchanging rows [j] and [lr >= j] of both [A] and [a] keeps [reduced]. *)
Lemma reduced_swap A a1 a2 n j lr :
  reduced A a1 n j -> 0 <= j -> j <= lr < n -> mat_ok a2 n ->
  (forall i c, 0 <= c < n -> M a2 n i c = M a1 n (swapped j lr i) c) ->
  reduced (fun i c => A (swapped j lr i) c) a2 n j.
Proof.
  intros (Ha & HU & HL & HUj & HRj & HA & HD) Hj Hlr Ha2 Hsw.
  assert (forall i c, 0 <= c < n -> i < j -> M a2 n i c = M a1 n i c) as Hlow.
  { intros i c Hc Hi. rewrite Hsw by done. by rewrite swapped_below by lia. }
  split; [done|]. split; [|split; [|split; [|split; [|split]]]].
  - intros i c Hc Hi. unfold upper_eq. cbv beta. rewrite swapped_below by lia.
    apply (upper_eq_agree A a1); [lia | lia | | | by apply HU];
      intros k Hk; apply Hlow; lia.
  - intros i c Hc Hi. unfold lower_eq. cbv beta.
    rewrite (Hsw i c), (Hlow c c) by lia.
    rewrite (sumZ_ext 0 c _
      (fun k => (M a1 n (swapped j lr i) k * M a1 n k c)%Qc)).
    + apply HL; [done|]. unfold swapped. repeat case_decide; lia.
    + intros k Hk. simpl. by rewrite (Hsw i k), (Hlow k c) by lia.
  - intros i Hi. unfold upper_eq. cbv beta. rewrite swapped_below by lia.
    apply (upper_eq_agree A a1); [lia | lia | | | by apply HUj];
      intros k Hk; apply Hlow; lia.
  - intros i Hi. unfold reduced_eq. cbv beta. rewrite (Hsw i j) by lia.
    rewrite (sumZ_ext 0 j _
      (fun k => (M a1 n (swapped j lr i) k * M a1 n k j)%Qc)).
    + apply HRj. by apply swapped_above.
    + intros k Hk. simpl. by rewrite (Hsw i k), (Hlow k j) by lia.
  - intros i c Hi Hc. rewrite Hsw by lia. apply HA; [|done].
    apply swapped_range; lia.
  - intros c Hc. rewrite Hlow by lia. by apply HD.
Qed.

(** Scaling column [j] below a nonzero diagonal takes [reduced] to
    [factored] for one more column. *)
Lemma reduced_scaled A a2 a' n j :
  reduced A a2 n j -> 0 <= j < n -> M a2 n j j <> 0%Qc -> mat_ok a' n ->
  (forall i c, 0 <= c < n -> c <> j \/ i <= j -> M a' n i c = M a2 n i c) ->
  (forall i, j < i < n -> M a' n i j = (M a2 n i j * (1 / M a2 n j j))%Qc) ->
  factored A a' n (j + 1).
Proof.
  intros (Ha & HU & HL & HUj & HRj & HA & HD) Hj Hd Ha' Hkeep Hsc.
  split; [done|]. split; [|split; [|split]].
  - intros i c Hc Hi.
    apply (upper_eq_agree A a2); [lia | lia | | |].
    + intros k Hk. apply Hkeep; lia.
    + intros k Hk. apply Hkeep; lia.
    + destruct (decide (c = j)) as [->|]; [|apply HU; lia].
      destruct (decide (i = j)) as [->|]; [|apply HUj; lia].
      apply HRj. lia.
  - intros i c Hc Hi. destruct (decide (c = j)) as [->|Hne].
    + unfold lower_eq. rewrite (Hsc i), (Hkeep j j) by lia.
      rewrite (sumZ_ext 0 j _ (fun k => (M a2 n i k * M a2 n k j)%Qc)).
      * rewrite <- (HRj i) by lia. unfold reduced_eq. field. done.
      * intros k Hk. simpl. by rewrite (Hkeep i k), (Hkeep k j) by lia.
    + apply (lower_eq_agree A a2); [lia | lia | | | apply HL; lia];
        intros k Hk; apply Hkeep; lia.
  - intros i c Hi Hc. rewrite Hkeep by lia. apply HA; lia.
  - intros c Hc. rewrite Hkeep by lia.
    destruct (decide (c = j)) as [->|]; [done|]. apply HD. lia.
Qed.

(** Lines 71-97 on a reduced column whose pivot row is [lr]. *)
Lemma pivot_column_spec a1 n ipvt j lr :
  mat_ok a1 n -> 0 <= j < n -> j <= lr < n -> vec_ok ipvt n ->
  exists a2 ipvt',
    store ipvt j lr = Some ipvt' /\ mat_ok a2 n /\ length a2 = length a1 /\
    (forall i c, 0 <= c < n -> M a2 n i c = M a1 n (swapped j lr i) c) /\
    if decide (M a1 n lr j = 0%Qc)
    then Scalar.pivot_column a1 n ipvt j lr
         = Some (Return (Result ZeroDiag j a2 ipvt'))
    else exists a',
         Scalar.pivot_column a1 n ipvt j lr = Some (Next a' ipvt') /\
         length a' = length a1 /\
         forall A, reduced A a1 n j ->
           factored (fun i c => A (swapped j lr i) c) a' n (j + 1).
Proof.
  intros Ha1 Hj Hlr Hp.
  assert (exists a2, mat_ok a2 n /\ length a2 = length a1 /\
    (forall i c, 0 <= c < n -> M a2 n i c = M a1 n (swapped j lr i) c) /\
    forall k, (a2' ← Some a2; k a2')
      = if decide (j ≠ lr)
        then if decide (lr = -1)
             then Some (Return (Result NoPivot j a1 ipvt))
             else a2' ← Scalar.swap_rows a1 n lr j; k a2'
        else k a1) as (a2 & Ha2 & Hlen2 & Hsw & Hrun).
  { destruct (decide (j ≠ lr)) as [Hne|Heq].
    - destruct (swap_rows_spec a1 n lr j) as (a2 & Hr & Ha2 & Hlen & Hsw);
        [done | lia | lia | lia |].
      exists a2. split; [done|]. split; [done|]. split.
      + intros i c Hc. rewrite Hsw by done. by rewrite swapped_sym.
      + intros k. rewrite decide_False by lia. by rewrite Hr.
    - assert (lr = j) as -> by lia. exists a1.
      split; [done|]. split; [done|]. split; [|done].
      intros i c _. by rewrite swapped_same. }
  unfold vec_ok in Hp.
  exists a2, (<[Z.to_nat j := lr]> ipvt).
  assert (store ipvt j lr = Some (<[Z.to_nat j := lr]> ipvt)) as Hst
    by (apply store_in_range; lia).
  split; [done|]. split; [done|]. split; [done|]. split; [done|].
  unfold Scalar.pivot_column. rewrite <- (Hrun (fun a2' =>
    Scalar.finish_column a2' n ipvt j lr)). simpl.
  unfold Scalar.finish_column. rewrite Hst. simpl.
  rewrite M_load by (done || lia). simpl.
  assert (M a2 n j j = M a1 n lr j) as Hd.
  { rewrite Hsw by lia. unfold swapped. by rewrite decide_True. }
  rewrite Hd. case_bool_decide as Hz.
  - rewrite decide_True by done. done.
  - rewrite decide_False by done.
    destruct (decide (j ≠ n - 1)) as [Hlast|Hlast].
    + rewrite decide_False by done. simpl.
      destruct (scale_column_spec a2 n j (1 / M a1 n lr j)%Qc)
        as (a' & -> & Ha' & Hlen' & Hkeep & Hsc); [done | lia |]. simpl.
      exists a'. split; [done|]. split; [lia|]. intros A Hred.
      pose proof (reduced_swap A a1 a2 n j lr Hred) as Hred2.
      specialize (Hred2 ltac:(lia) ltac:(lia) Ha2 Hsw).
      apply (reduced_scaled _ a2); [done | lia | by rewrite Hd | done | done |].
      intros i Hi. rewrite Hsc by done. by rewrite Hd.
    + exists a2. split; [done|]. split; [done|]. intros A Hred.
      pose proof (reduced_swap A a1 a2 n j lr Hred) as Hred2.
      specialize (Hred2 ltac:(lia) ltac:(lia) Ha2 Hsw).
      apply (reduced_scaled _ a2); [done | lia | by rewrite Hd | done | done |].
      intros i Hi. lia.
Qed.

Lemma Qcabs_le_0 x : (Qcabs x <= 0)%Qc -> x = 0%Qc.
Proof.
  intros Hle. apply Qcabs_null. apply Qcle_antisym; [done|].
  apply Qcabs_nonneg.
Qed.

(** ** The rows the pivoting has exchanged *)

Lemma origin_ext p p' k i :
  (forall c, 0 <= c < Z.of_nat k -> p c = p' c) ->
  origin p k i = origin p' k i.
Proof.
  revert i. induction k as [|k IH]; intros i Hp; [done|].
  simpl. rewrite Hp by lia. apply IH. intros c Hc. apply Hp. lia.
Qed.

Lemma origin_range p k i n :
  (forall c, 0 <= c < Z.of_nat k -> 0 <= p c < n) ->
  Z.of_nat k <= n -> 0 <= i < n -> 0 <= origin p k i < n.
Proof.
  revert i. induction k as [|k IH]; intros i Hp Hk Hi; [done|].
  simpl. apply IH; [intros; apply Hp; lia | lia |].
  apply swapped_range; [lia | apply Hp; lia | done].
Qed.

Lemma factored_ext A A' a n j :
  0 <= j <= n ->
  (forall i c, 0 <= i < n -> 0 <= c < n -> A i c = A' i c) ->
  factored A a n j -> factored A' a n j.
Proof.
  intros Hjn HA (Ha & HU & HL & HR & HD). split; [done|].
  split; [|split; [|split]]; [| | |done].
  - intros i c Hc Hi. unfold upper_eq. rewrite <- HA by lia. by apply HU.
  - intros i c Hc Hi. unfold lower_eq. rewrite <- HA by lia. by apply HL.
  - intros i c Hi Hc. rewrite <- HA by lia. by apply HR.
Qed.

Lemma pivot_at_store ipvt j lr ipvt' :
  store ipvt j lr = Some ipvt' ->
  pivot_at ipvt' j = lr /\ forall c, c <> j -> pivot_at ipvt' c = pivot_at ipvt c.
Proof.
  intros Hst. unfold pivot_at. split.
  - by rewrite (load_store_eq _ _ _ _ Hst).
  - intros c Hc. by rewrite (load_store_ne _ _ _ _ c Hst).
Qed.

(** One pass of the column loop. *)
Lemma lu_column_spec a0 a n ipvt j :
  columns_done a0 n j a ipvt -> 0 <= j < n ->
  exists o, Scalar.lu_column a n ipvt j = Some o /\
    match o with
    | Next a' ipvt' => columns_done a0 n (j + 1) a' ipvt'
    | Return r =>
        exit r = ZeroDiag /\ value r = j /\
        mat_ok (matrix r) n /\
        (forall i, j <= i < n -> M (matrix r) n i j = 0%Qc) /\
        (forall c, 0 <= c < j -> M (matrix r) n c c <> 0%Qc)
    end.
Proof.
  intros (Hp & Hlen & Hpiv & Hfac) Hj.
  destruct (reduce_column_spec _ a n j Hfac Hj)
    as (au & a1 & lg & lr & Hup & Hlow & Hlen1 & Hred & Hfound).
  destruct Hfound as [_ Hfound].
  destruct Hfound as (Hlr & Hlg & Hmax & _); [lia|].
  pose proof Hred as [Ha1 _].
  destruct (pivot_column_spec a1 n ipvt j lr Ha1 Hj Hlr Hp)
    as (a2 & ipvt' & Hst & Ha2 & Hlen2 & Hsw & Hrun).
  unfold Scalar.lu_column. rewrite Hup. simpl. rewrite Hlow. simpl.
  destruct (decide (M a1 n lr j = 0%Qc)) as [Hz|Hnz].
  - eexists. split; [done|]. simpl. split; [done|]. split; [done|].
    split; [done|]. split.
    + intros i Hi. rewrite Hsw by lia. apply Qcabs_le_0.
      rewrite Hz in Hlg. rewrite Hlg in Hmax. apply Hmax.
      apply swapped_above; lia.
    + intros c Hc. rewrite Hsw by lia. rewrite swapped_below by lia.
      destruct Hred as (_ & _ & _ & _ & _ & _ & HD). by apply HD.
  - destruct Hrun as (a' & Hrun & Hlen' & Hfac').
    specialize (Hfac' _ Hred).
    eexists. split; [done|]. simpl.
    destruct (pivot_at_store _ _ _ _ Hst) as [Hpj Hpc].
    split; [|split; [lia|split]].
    + unfold vec_ok in *. by rewrite (store_length _ _ _ _ Hst).
    + intros c Hc. destruct (decide (c = j)) as [->|Hne].
      * rewrite Hpj. lia.
      * rewrite Hpc by done. apply Hpiv. lia.
    + eapply factored_ext; [lia | |done]. intros i c Hi Hc. simpl.
      replace (Z.to_nat (j + 1)) with (S (Z.to_nat j)) by lia. simpl.
      rewrite Z2Nat.id by lia. rewrite Hpj. f_equal.
      apply origin_ext. intros k Hk. symmetry. apply Hpc. lia.
Qed.

(** The column loop from column [j] on. *)
Lemma lu_columns_spec a0 a n ipvt j cnt :
  columns_done a0 n j a ipvt -> 0 <= j -> j + Z.of_nat cnt = n ->
  exists o, Scalar.lu_columns a n ipvt j cnt = Some o /\
    match o with
    | Next a' ipvt' => columns_done a0 n n a' ipvt'
    | Return r =>
        exit r = ZeroDiag /\ j <= value r < n /\
        mat_ok (matrix r) n /\
        (forall i, value r <= i < n -> M (matrix r) n i (value r) = 0%Qc) /\
        (forall c, 0 <= c < value r -> M (matrix r) n c c <> 0%Qc)
    end.
Proof.
  revert a ipvt j. induction cnt as [|c IH]; intros a ipvt j Hdone Hj Hn.
  - exists (Next a ipvt). split; [done|].
    assert (n = j) as -> by lia. done.
  - simpl. destruct (lu_column_spec a0 a n ipvt j Hdone) as (o & -> & Ho);
      [lia|]. simpl. destruct o as [r|a' ipvt'].
    + exists (Return r). split; [done|].
      destruct Ho as (? & -> & ?). split; [done|]. split; [lia | done].
    + destruct (IH a' ipvt' (j + 1)) as (o & -> & Ho'); [done | lia | lia |].
      exists o. split; [done|]. destruct o; [|done].
      destruct Ho' as (? & ? & ?). split; [done|]. split; [lia | done].
Qed.

(** What [lu_factor] does on a well-formed call, by the statement it
    returns from. *)
Lemma lu_factor_spec a n ipvt :
  mat_ok a n -> vec_ok ipvt n ->
  exists r, Scalar.lu_factor a n ipvt = Some r /\
    match exit r with
    | ZeroRow =>
        first_zero_row a n 0 (Z.to_nat n) (Some (value r)) /\
        matrix r = a /\ pivots r = ipvt
    | NoPivot => False
    | ZeroDiag =>
        first_zero_row a n 0 (Z.to_nat n) None /\
        0 <= value r < n /\
        mat_ok (matrix r) n /\
        (forall i, value r <= i < n -> M (matrix r) n i (value r) = 0%Qc) /\
        (forall c, 0 <= c < value r -> M (matrix r) n c c <> 0%Qc)
    | Success =>
        first_zero_row a n 0 (Z.to_nat n) None /\
        value r = -1 /\
        columns_done a n n (matrix r) (pivots r)
    end.
Proof.
  intros Ha Hp. pose proof Ha as [Hn _]. unfold Scalar.lu_factor.
  destruct (zero_row_check_spec a n 0 (Z.to_nat n)) as (z & -> & Hz);
    [done | lia | lia |]. simpl.
  destruct z as [r|]; [by eexists|].
  destruct (lu_columns_spec a a n ipvt 0 (Z.to_nat n)) as (o & -> & Ho);
    [ | lia | lia |].
  { split; [done|]. split; [done|]. split; [intros; lia|].
    split; [done|]. split; [intros; lia|]. split; [intros; lia|].
    split; [done | intros; lia]. }
  simpl. destruct o as [r|a' ipvt'].
  - exists r. split; [done|]. destruct Ho as (-> & Hv & Hrest).
    split; [done|]. split; [lia | done].
  - eexists. split; [done|]. simpl. done.
Qed.

(** ** The loops of [lu_solve] on vectors *)

Lemma pivots_valid_in_range ipvt n :
  pivots_valid ipvt n -> pivots_in_range ipvt n.
Proof.
  intros [Hp Hrange] i Hi. specialize (Hrange i Hi). unfold pivot_at in Hrange.
  destruct (load_in_range ipvt i) as [row Hrow]; [unfold vec_ok in Hp; lia|].
  rewrite Hrow in Hrange. simpl in Hrange. exists row. split; [done | lia].
Qed.

Lemma V_of_load (b : list Qc) i x : load b i = Some x -> V b i = x.
Proof. unfold V. by intros ->. Qed.

Lemma V_of_store (b : list Qc) i v b' :
  store b i v = Some b' ->
  V b' i = v /\ forall k, k <> i -> V b' k = V b k.
Proof.
  intros Hst. unfold V. split.
  - by rewrite (load_store_eq _ _ _ _ Hst).
  - intros k Hk. by rewrite (load_store_ne _ _ _ _ k Hst).
Qed.

Lemma subtract_dot_spec a n b i lo hi tot :
  mat_ok a n -> vec_ok b n -> 0 <= i < n -> 0 <= lo -> hi <= n ->
  Scalar.subtract_dot a n b i lo hi tot
  = Some (tot - sumZ lo hi (fun j => M a n i j * V b j))%Qc.
Proof.
  intros Ha Hb Hi Hlo Hhi. unfold Scalar.subtract_dot.
  destruct (Z.le_gt_cases lo hi) as [Hle|Hgt].
  - destruct (for_range_invariant
      (fun k t => t = (tot - sumZ lo k (fun j => M a n i j * V b j))%Qc)
      (fun j tot => x ← load a (i * n + j); y ← load b j;
                    Some (fsub tot (fmul x y))) lo hi tot) as (t & -> & ->);
      [done | | | done].
    + rewrite sumZ_empty by lia. ring.
    + intros k t Hk ->. rewrite M_load by (done || lia).
      rewrite (V_load b n) by (done || lia). simpl.
      eexists. split; [done|]. rewrite sumZ_snoc by lia. ring.
  - rewrite for_range_empty by lia. rewrite sumZ_empty by lia.
    f_equal. ring.
Qed.

Lemma origin_succ p i k :
  0 <= i ->
  origin p (Z.to_nat (i + 1)) k = origin p (Z.to_nat i) (swapped i (p i) k).
Proof.
  intros Hi. replace (Z.to_nat (i + 1)) with (S (Z.to_nat i)) by lia.
  simpl. by rewrite Z2Nat.id by lia.
Qed.

Lemma forward_done_step a n p b0 i b b2 :
  forward_done a n p b0 i b -> 0 <= i < n -> i <= p i < n -> vec_ok b2 n ->
  (forall k, k <> i -> k <> p i -> V b2 k = V b k) ->
  (p i <> i -> V b2 (p i) = V b i) ->
  (V b2 i + sumZ 0 i (fun c => M a n i c * V b c))%Qc = V b (p i) ->
  forward_done a n p b0 (i + 1) b2.
Proof.
  intros (Hb & Hrest & Hdone) Hi Hp Hb2 Hother Hrow Hnew.
  split; [done|]. split.
  - intros k Hk. rewrite origin_succ by lia.
    unfold swapped. rewrite decide_False by lia.
    case_decide as Hkp.
    + subst k. rewrite Hrow by lia. apply Hrest. lia.
    + rewrite Hother by lia. apply Hrest. lia.
  - intros k Hk. rewrite origin_succ by lia.
    destruct (decide (k = i)) as [->|Hne].
    + unfold swapped. rewrite decide_True by done.
      rewrite <- Hrest by lia. rewrite <- Hnew. f_equal.
      apply sumZ_ext. intros c Hc. by rewrite Hother by lia.
    + rewrite swapped_below by lia. rewrite <- Hdone by lia.
      rewrite Hother by lia. f_equal.
      apply sumZ_ext. intros c Hc. by rewrite Hother by lia.
Qed.

Lemma exchange_spec ipvt b n i :
  pivots_valid ipvt n -> vec_ok b n -> 0 <= i < n ->
  exists b1,
    Scalar.exchange ipvt b i = Some (pivot_at ipvt i, V b (pivot_at ipvt i), b1) /\
    vec_ok b1 n /\
    i <= pivot_at ipvt i < n /\
    V b1 (pivot_at ipvt i) = V b i /\
    forall k, k <> pivot_at ipvt i -> V b1 k = V b k.
Proof.
  intros Hp Hb Hi.
  destruct (exchange_total ipvt b n i)
    as (swap & x & b1 & Hrun & _ & Hsw & Hx & Hst & Hlen);
    [by apply pivots_valid_in_range | done | done |].
  exists b1. apply V_of_load in Hsw, Hx. subst swap x.
  split; [done|]. split; [unfold vec_ok in *; lia|].
  split; [by apply Hp|]. by apply V_of_store.
Qed.

Lemma permute_scan_exact a n ipvt b0 b i cnt tr :
  pivots_valid ipvt n -> mat_ok a n ->
  forward_done a n (pivot_at ipvt) b0 i b ->
  (forall k, 0 <= k < i -> V b k = 0%Qc) ->
  0 <= i -> i + Z.of_nat cnt = n ->
  exists bi i0 b1 tr1,
    Scalar.permute_scan ipvt b i cnt tr = Some (bi, i0, b1, tr1) /\
    0 <= bi <= i0 /\ i0 <= n /\
    forward_done a n (pivot_at ipvt) b0 i0 b1 /\
    (forall k, 0 <= k < bi -> V b1 k = 0%Qc).
Proof.
  intros Hp Ha. revert b i tr.
  induction cnt as [|c IH]; intros b i tr Hdone Hzero Hi Hn.
  - exists 0, i, b, tr. split; [done|]. split; [lia|]. split; [lia|].
    split; [done|]. intros; lia.
  - simpl. pose proof Hdone as (Hb & _).
    destruct (exchange_spec ipvt b n i Hp Hb)
      as (b1 & -> & Hb1 & Hrow & Hb1row & Hb1other); [lia|]. simpl.
    destruct (V_store b1 n i (V b (pivot_at ipvt i)))
      as (b2 & -> & Hb2 & Hb2i & Hb2other); [done | lia |]. simpl.
    assert (forward_done a n (pivot_at ipvt) b0 (i + 1) b2) as Hdone2.
    { apply (forward_done_step a n _ b0 i b); [done | lia | done | done | | |].
      - intros k Hki Hkp. rewrite Hb2other, Hb1other by done. done.
      - intros Hne. rewrite Hb2other, Hb1row by done. done.
      - rewrite Hb2i. rewrite sumZ_zero; [ring|].
        intros k Hk. rewrite Hzero by lia. ring. }
    case_bool_decide as Hz; simpl.
    + destruct (IH b2 (i + 1) (tr ++ [(i, pivot_at ipvt i)]))
        as (bi & i0 & b3 & tr1 & -> & Hbi & Hi0 & Hdone3 & Hzero3);
        [done | | lia | lia |].
      * intros k Hk. destruct (decide (k = i)) as [->|Hne].
        -- by rewrite Hb2i.
        -- rewrite Hb2other, Hb1other by lia. apply Hzero. lia.
      * exists bi, i0, b3, tr1. done.
    + exists i, (i + 1), b2, (tr ++ [(i, pivot_at ipvt i)]).
      split; [done|]. split; [lia|]. split; [lia|]. split; [done|].
      intros k Hk. rewrite Hb2other, Hb1other by lia. apply Hzero. lia.
Qed.

Lemma forward_exact a n ipvt b0 bi i0 b tr :
  pivots_valid ipvt n -> mat_ok a n ->
  forward_done a n (pivot_at ipvt) b0 i0 b ->
  (forall k, 0 <= k < bi -> V b k = 0%Qc) ->
  0 <= bi <= i0 -> i0 <= n ->
  exists b' tr',
    Scalar.forward a n ipvt bi i0 b tr = Some (b', tr') /\
    forward_done a n (pivot_at ipvt) b0 n b'.
Proof.
  intros Hp Ha Hdone Hzero Hbi Hi0. unfold Scalar.forward.
  destruct (for_range_invariant
    (fun i '(b, tr) =>
       forward_done a n (pivot_at ipvt) b0 i b /\
       forall k, 0 <= k < bi -> V b k = 0%Qc)
    (fun i '(b, tr) =>
       '(row, tot, b) ← Scalar.exchange ipvt b i;
       tot ← Scalar.subtract_dot a n b i bi i tot;
       b ← store b i tot;
       Some (b, tr ++ [(i, row)])) i0 n (b, tr))
    as ([b' tr'] & Hrun & Hdone' & _); [lia | done | | by exists b', tr'].
  intros i [s tr1] Hi [Hds Hzs]. pose proof Hds as (Hs & _).
  destruct (exchange_spec ipvt s n i Hp Hs)
    as (s1 & -> & Hs1 & Hrow & Hs1row & Hs1other); [lia|]. simpl.
  rewrite subtract_dot_spec by (done || lia). simpl.
  destruct (V_store s1 n i (V s (pivot_at ipvt i)
      - sumZ bi i (fun j => M a n i j * V s1 j))%Qc)
    as (s2 & -> & Hs2 & Hs2i & Hs2other); [done | lia |]. simpl.
  eexists (_, _). split; [done|]. split.
  - apply (forward_done_step a n _ b0 i s); [done | lia | done | done | | |].
    + intros k Hki Hkp. rewrite Hs2other, Hs1other by done. done.
    + intros Hne. rewrite Hs2other, Hs1row by done. done.
    + rewrite Hs2i. rewrite (sumZ_split 0 bi i) by lia.
      rewrite (sumZ_zero 0 bi).
      * rewrite (sumZ_ext bi i (fun j => (M a n i j * V s1 j)%Qc)
                               (fun c => (M a n i c * V s c)%Qc)); [ring|].
        intros k Hk. simpl. by rewrite Hs1other by lia.
      * intros k Hk. rewrite Hzs by lia. ring.
  - intros k Hk. rewrite Hs2other, Hs1other by lia. apply Hzs. lia.
Qed.

Lemma backward_exact a n y :
  mat_ok a n -> vec_ok y n ->
  (forall c, 0 <= c < n -> M a n c c <> 0%Qc) ->
  exists x, Scalar.backward a n y = Some x /\ backward_done a n y 0 x.
Proof.
  intros Ha Hy Hd. pose proof Ha as [Hn _]. unfold Scalar.backward.
  apply for_down_invariant; [done | |].
  - split; [done|]. split; [done|]. intros; lia.
  - intros i b Hi (Hb & Hlow & Hup).
    rewrite (V_load b n) by (done || lia). simpl.
    rewrite subtract_dot_spec by (done || lia). simpl.
    rewrite M_load by (done || lia). simpl.
    rewrite decide_False by (apply Hd; lia).
    simpl.
    destruct (V_store b n i
      ((V b i - sumZ (i + 1) n (fun j => M a n i j * V b j)) / M a n i i)%Qc)
      as (b' & -> & Hb' & Hb'i & Hb'other); [done | lia |].
    exists b'. split; [done|]. split; [done|]. split.
    + intros k Hk. rewrite Hb'other by lia. apply Hlow. lia.
    + intros k Hk. destruct (decide (k = i)) as [->|Hne].
      * rewrite sumZ_cons by lia. rewrite Hb'i.
        rewrite (sumZ_ext (i + 1) n (fun c => (M a n i c * V b' c)%Qc)
                                    (fun j => (M a n i j * V b j)%Qc)).
        -- rewrite <- (Hlow i) by lia. field. apply Hd. lia.
        -- intros c Hc. simpl. by rewrite Hb'other by lia.
      * rewrite <- Hup by lia. apply sumZ_ext.
        intros c Hc. by rewrite Hb'other by lia.
Qed.

(** ** The factors multiply back to the matrix *)

Lemma sum_Lf a n i (g : Z -> Qc) :
  0 <= i < n ->
  sumZ 0 n (fun k => Lf a n i k * g k)%Qc
  = (g i + sumZ 0 i (fun k => M a n i k * g k))%Qc.
Proof.
  intros Hi. rewrite (sumZ_split 0 i n) by lia.
  rewrite (sumZ_cons i n) by lia.
  rewrite (sumZ_zero (i + 1) n).
  - rewrite (sumZ_ext 0 i _ (fun k => (M a n i k * g k)%Qc)).
    + unfold Lf. rewrite decide_False, decide_True by lia. ring.
    + intros k Hk. unfold Lf. by rewrite decide_True by lia.
  - intros k Hk. unfold Lf. rewrite !decide_False by lia. ring.
Qed.

Lemma sum_Uf a n k (x : Z -> Qc) :
  0 <= k <= n ->
  sumZ 0 n (fun c => Uf a n k c * x c)%Qc
  = sumZ k n (fun c => M a n k c * x c)%Qc.
Proof.
  intros Hk. rewrite (sumZ_split 0 k n) by lia.
  rewrite (sumZ_zero 0 k).
  - rewrite (sumZ_ext k n _ (fun c => (M a n k c * x c)%Qc)); [ring|].
    intros c Hc. unfold Uf. by rewrite decide_True by lia.
  - intros c Hc. unfold Uf. rewrite decide_False by lia. ring.
Qed.

Lemma factored_product A a n i c :
  factored A a n n -> 0 <= i < n -> 0 <= c < n ->
  A i c = sumZ 0 n (fun k => Lf a n i k * Uf a n k c)%Qc.
Proof.
  intros (_ & HU & HL & _) Hi Hc. rewrite sum_Lf by done.
  destruct (Z.le_gt_cases i c) as [Hle|Hgt].
  - rewrite <- (HU i c) by lia. unfold upper_eq, Uf at 1.
    rewrite decide_True by lia. f_equal.
    apply sumZ_ext. intros k Hk. unfold Uf. by rewrite decide_True by lia.
  - rewrite <- (HL i c) by lia. unfold lower_eq, Uf at 1.
    rewrite decide_False by lia.
    rewrite (sumZ_split 0 c i) by lia. rewrite (sumZ_cons c i) by lia.
    rewrite (sumZ_zero (c + 1) i).
    + rewrite (sumZ_ext 0 c (fun k => (M a n i k * Uf a n k c)%Qc)
                            (fun k => (M a n i k * M a n k c)%Qc)).
      * unfold Uf. rewrite decide_True by lia. ring.
      * intros k Hk. unfold Uf. by rewrite decide_True by lia.
    + intros k Hk. unfold Uf. rewrite decide_False by lia. ring.
Qed.

(** Forward then back substitution solves the system of the factored
    matrix. *)
Lemma factored_solution A a n (g y x : Z -> Qc) :
  factored A a n n ->
  (forall k, 0 <= k < n ->
     (y k + sumZ 0 k (fun c => M a n k c * y c))%Qc = g k) ->
  (forall k, 0 <= k < n -> sumZ k n (fun c => M a n k c * x c)%Qc = y k) ->
  forall i, 0 <= i < n -> sumZ 0 n (fun c => A i c * x c)%Qc = g i.
Proof.
  intros Hfac Hy Hx i Hi.
  rewrite (sumZ_ext 0 n _
    (fun c => sumZ 0 n (fun k => Lf a n i k * (Uf a n k c * x c))))%Qc.
  - rewrite sumZ_exchange.
    rewrite (sumZ_ext 0 n _ (fun k => (Lf a n i k * y k)%Qc)).
    + rewrite sum_Lf by done. by apply Hy.
    + intros k Hk. simpl. rewrite sumZ_scale. f_equal.
      rewrite sum_Uf by lia. by apply Hx.
  - intros c Hc. simpl. rewrite (factored_product A a n i c) by done.
    rewrite Qcmult_comm, <- sumZ_scale. apply sumZ_ext.
    intros k _. ring.
Qed.

Lemma origin_onto p k n i :
  (forall c, 0 <= c < Z.of_nat k -> 0 <= p c < n) ->
  Z.of_nat k <= n -> 0 <= i < n ->
  exists i', 0 <= i' < n /\ origin p k i' = i.
Proof.
  revert i. induction k as [|k IH]; intros i Hp Hk Hi; [by exists i|].
  destruct (IH i) as (i' & Hi' & Ho); [intros; apply Hp; lia | lia | done |].
  exists (swapped (Z.of_nat k) (p (Z.of_nat k)) i'). split.
  - apply swapped_range; [lia | apply Hp; lia | done].
  - simpl. by rewrite swapped_involutive.
Qed.

(** [lu_solve] on what a successful [lu_factor] leaves. *)
Lemma lu_solve_spec a0 a n ipvt b :
  columns_done a0 n n a ipvt -> vec_ok b n ->
  exists x, Scalar.lu_solve a n ipvt b = Some x /\ vec_ok x n /\
    forall i, 0 <= i < n ->
      sumZ 0 n (fun c => M a0 n i c * V x c)%Qc = V b i.
Proof.
  intros (Hp & Hlen & Hpiv & Hfac) Hb.
  pose proof Hfac as (Ha & _ & _ & _ & Hd). pose proof Ha as [Hn _].
  assert (pivots_valid ipvt n) as Hvalid by done.
  destruct (permute_scan_exact a n ipvt b b 0 (Z.to_nat n) [])
    as (bi & i0 & b1 & tr1 & Hscan & Hbi & Hi0 & Hdone1 & Hzero1);
    [done | done | | intros; lia | lia | lia |].
  { split; [done|]. split; [done | intros; lia]. }
  destruct (forward_exact a n ipvt b bi i0 b1 tr1)
    as (y & tr' & Hfw & Hy & _ & Hfwd); [done | done | done | done | lia | lia |].
  destruct (backward_exact a n y Ha Hy Hd) as (x & Hbw & Hx & _ & Hback).
  exists x. split; [|split; [done|]].
  { unfold Scalar.lu_solve, Scalar.lu_forward.
    rewrite Hscan. simpl. rewrite Hfw. simpl. done. }
  intros i Hi.
  destruct (origin_onto (pivot_at ipvt) (Z.to_nat n) n i)
    as (i' & Hi' & <-); [intros c Hc; specialize (Hpiv c); lia | lia | done |].
  apply (factored_solution
    (fun i c => M a0 n (origin (pivot_at ipvt) (Z.to_nat n) i) c) a n
    (fun k => V b (origin (pivot_at ipvt) (Z.to_nat n) k)) (V y) (V x));
    [done | | | done].
  - intros k Hk. apply Hfwd. lia.
  - intros k Hk. apply Hback. lia.
Qed.

(** * The claims on exact arithmetic *)

Lemma lu_factor_success a n ipvt r :
  mat_ok a n -> vec_ok ipvt n ->
  Scalar.lu_factor a n ipvt = Some r -> value r = -1 ->
  exit r = Success /\ columns_done a n n (matrix r) (pivots r).
Proof.
  intros Ha Hp Hrun Hv.
  destruct (lu_factor_spec a n ipvt Ha Hp) as (r' & Hrun' & Hspec).
  assert (r' = r) as -> by congruence.
  destruct (exit r); [| done | | tauto].
  - destruct Hspec as ((? & _) & _). lia.
  - destruct Hspec as (_ & ? & _). lia.
Qed.

(** C1: when [lu_factor] returns [-1] on the matrix [a], [lu_solve] on
    the factored matrix and the pivot vector takes any right-hand side
    [b] to a vector [x] with [a . x = b], arithmetic being exact. *)
Theorem lu_solve_solves a n ipvt b r :
  mat_ok a n -> vec_ok ipvt n -> vec_ok b n ->
  Scalar.lu_factor a n ipvt = Some r -> value r = -1 ->
  exists x,
    Scalar.lu_solve (matrix r) n (pivots r) b = Some x /\
    vec_ok x n /\
    forall i, 0 <= i < n ->
      sumZ 0 n (fun j => M a n i j * V x j)%Qc = V b i.
Proof.
  intros Ha Hp Hb Hrun Hv.
  destruct (lu_factor_success a n ipvt r Ha Hp Hrun Hv) as [_ Hdone].
  by apply lu_solve_spec.
Qed.

(** ** Singular matrices *)

Lemma unit_vector_ok n i0 : 0 <= n -> vec_ok (unit_vector n i0) n.
Proof.
  intros. unfold vec_ok, unit_vector. rewrite length_insert, length_replicate.
  lia.
Qed.

Lemma V_unit_vector n i0 k :
  0 <= i0 < n -> 0 <= k < n ->
  V (unit_vector n i0) k = if decide (k = i0) then 1%Qc else 0%Qc.
Proof.
  intros Hi Hk. unfold V, unit_vector, load.
  destruct (Z.ltb_spec k 0); [lia|]. case_decide as Hki.
  - subst k. rewrite list_lookup_insert_eq; [done|].
    rewrite length_replicate. lia.
  - rewrite list_lookup_insert_ne by lia.
    rewrite lookup_replicate_2; [done | lia].
Qed.

Lemma solvable_not_rows_dependent a n :
  0 <= n ->
  (forall b, vec_ok b n -> exists x : list Qc,
     forall i, 0 <= i < n ->
       sumZ 0 n (fun c => M a n i c * V x c)%Qc = V b i) ->
  ~ rows_dependent a n.
Proof.
  intros Hn Hsolve (v & (i0 & Hi0 & Hv) & Hdep). apply Hv.
  destruct (Hsolve (unit_vector n i0) (unit_vector_ok n i0 Hn)) as [x Hx].
  transitivity (sumZ 0 n (fun i => v i * V (unit_vector n i0) i)%Qc).
  { rewrite (sumZ_single 0 n _ i0); [| done |].
    - rewrite V_unit_vector, decide_True by done. ring.
    - intros k Hk Hne. rewrite V_unit_vector, decide_False by done. ring. }
  rewrite (sumZ_ext 0 n _
    (fun i => sumZ 0 n (fun c => v i * M a n i c * V x c))%Qc).
  - rewrite sumZ_exchange. apply sumZ_zero. intros c Hc.
    rewrite (sumZ_ext 0 n _ (fun i => V x c * (v i * M a n i c))%Qc)
      by (intros; ring).
    rewrite sumZ_scale, Hdep by done. ring.
  - intros i Hi. simpl. rewrite <- Hx by done. rewrite <- sumZ_scale.
    apply sumZ_ext. intros; ring.
Qed.

(** A triangular system with a unit or nonzero diagonal has one solution. *)
Lemma lower_unique a n (y : Z -> Qc) :
  0 <= n ->
  (forall k, 0 <= k < n ->
     (y k + sumZ 0 k (fun c => M a n k c * y c))%Qc = 0%Qc) ->
  forall k, 0 <= k < n -> y k = 0%Qc.
Proof.
  intros Hn Hy.
  assert (forall m, 0 <= m <= n -> forall k, 0 <= k < m -> y k = 0%Qc) as H.
  { intros m Hm. destruct Hm as [Hm0 Hmn]. revert Hmn. pattern m.
    apply (range_ind _ 0 m); [done | intros; lia |].
    intros m' Hm' IH Hmn k Hk. destruct (decide (k = m')) as [->|Hne].
    - rewrite <- (Hy m') by lia. rewrite sumZ_zero; [ring|].
      intros c Hc. rewrite IH by lia. ring.
    - apply IH; lia. }
  intros k Hk. apply (H n); lia.
Qed.

Lemma upper_unique a n (x : Z -> Qc) :
  0 <= n ->
  (forall c, 0 <= c < n -> M a n c c <> 0%Qc) ->
  (forall k, 0 <= k < n -> sumZ k n (fun c => M a n k c * x c)%Qc = 0%Qc) ->
  forall c, 0 <= c < n -> x c = 0%Qc.
Proof.
  intros Hn Hd Hx.
  assert (forall m, 0 <= m <= n -> forall c, n - m <= c < n -> x c = 0%Qc) as H.
  { intros m Hm. destruct Hm as [Hm0 Hmn]. revert Hmn. pattern m.
    apply (range_ind _ 0 m); [done | intros; lia |].
    intros m' Hm' IH Hmn c Hc.
    destruct (decide (c = n - m' - 1)) as [->|Hne]; [|apply IH; lia].
    specialize (Hx (n - m' - 1) ltac:(lia)).
    rewrite sumZ_cons in Hx by lia. rewrite sumZ_zero in Hx.
    - rewrite Qcplus_0_r in Hx. apply Qcmult_integral in Hx as [Hx|Hx]; [|done].
      exfalso. revert Hx. apply Hd. lia.
    - intros c Hc'. rewrite IH by lia. ring. }
  intros c Hc. apply (H n); lia.
Qed.

Lemma factored_not_null_vector a0 a n ipvt :
  columns_done a0 n n a ipvt -> ~ null_vector a0 n.
Proof.
  intros (Hp & Hlen & Hpiv & Hfac) (x & (c0 & Hc0 & Hx0) & Hnull).
  pose proof Hfac as (Ha & _ & _ & _ & Hd). pose proof Ha as [Hn _].
  apply Hx0.
  set (y := fun k => sumZ k n (fun c => M a n k c * x c)%Qc).
  assert (forall k, 0 <= k < n -> y k = 0%Qc) as Hy.
  { apply (lower_unique a n y Hn). intros k Hk.
    rewrite <- (factored_solution _ a n
      (fun k => y k + sumZ 0 k (fun c => M a n k c * y c))%Qc y x Hfac);
      [| done | done | done].
    apply Hnull. apply origin_range; [|lia|done].
    intros c Hc. specialize (Hpiv c). lia. }
  by apply (upper_unique a n x Hn Hd Hy).
Qed.

(** [lu_factor] returns [-1] on no singular matrix. *)
Lemma success_not_singular a n ipvt r :
  mat_ok a n -> vec_ok ipvt n ->
  Scalar.lu_factor a n ipvt = Some r -> value r = -1 -> ~ singular a n.
Proof.
  intros Ha Hp Hrun Hv. pose proof Ha as [Hn _].
  destruct (lu_factor_success a n ipvt r Ha Hp Hrun Hv) as [_ Hdone].
  intros [Hrows|Hnull].
  - revert Hrows. apply solvable_not_rows_dependent; [done|].
    intros b Hb. destruct (lu_solve_spec a _ n _ b Hdone Hb) as (x & _ & _ & Hx).
    by exists x.
  - by apply (factored_not_null_vector a _ n _ Hdone).
Qed.

(** C4: on a singular matrix with no all-zero row [lu_factor] does not
    return [-1]: it returns the index [j] of the first column in which no
    nonzero pivot is found - every candidate [a[i][j]], [j <= i < n], has
    reduced to zero, while each earlier column got a nonzero pivot on the
    diagonal. *)
Theorem singular_fails_at_first_pivotless_column a n ipvt :
  mat_ok a n -> vec_ok ipvt n ->
  (forall i, 0 <= i < n -> ~ zero_row a n i) ->
  singular a n ->
  exists r,
    Scalar.lu_factor a n ipvt = Some r /\
    exit r = ZeroDiag /\ value r <> -1 /\ 0 <= value r < n /\
    (forall i, value r <= i < n -> M (matrix r) n i (value r) = 0%Qc) /\
    (forall c, 0 <= c < value r -> M (matrix r) n c c <> 0%Qc).
Proof.
  intros Ha Hp Hnz Hsing.
  destruct (lu_factor_spec a n ipvt Ha Hp) as (r & Hrun & Hspec).
  exists r. split; [done|].
  destruct (exit r) eqn:Hexit; [| done | |].
  - destruct Hspec as ((Hr & Hz & _) & _). exfalso.
    apply (Hnz (value r)); [lia | done].
  - destruct Hspec as (_ & Hv & _ & Hzero & Hd).
    split; [done|]. split; [lia|]. done.
  - destruct Hspec as (_ & Hv & _). exfalso.
    by apply (success_not_singular a n ipvt r).
Qed.

(** * The SIMD build against the scalar build, on exact arithmetic *)

Section PairLoops.
Context {T : Type}.
Implicit Types (body : Z -> T -> option T) (s : T).

Lemma for2_counter body lo p s k s' :
  for2_ lo p body s = Some (k, s') -> k = lo + 2 * Z.of_nat p.
Proof.
  revert lo s. induction p as [|p IH]; intros lo s Hrun; simpl in Hrun.
  - injection Hrun as <- <-. lia.
  - destruct (body lo s) as [s1|]; [|discriminate]. simpl in Hrun.
    apply IH in Hrun. lia.
Qed.

Lemma for2_ext body1 body2 lo p s :
  (forall k s, lo <= k -> k + 1 < lo + 2 * Z.of_nat p ->
     body1 k s = body2 k s) ->
  for2_ lo p body1 s = for2_ lo p body2 s.
Proof.
  revert lo s. induction p as [|p IH]; intros lo s Hb; simpl; [done|].
  rewrite Hb by lia. destruct (body2 lo s) as [s1|]; simpl; [|done].
  apply IH. intros. apply Hb; lia.
Qed.

(** The trip count of [for_pairs] is that of
    [for (i = lo; i + 1 < hi; i += 2)]: the condition holds at the last
    pass and fails at the counter the loop leaves. *)
Lemma for_pairs_exit body lo hi s k s' :
  lo <= hi ->
  for_pairs lo hi body s = Some (k, s') ->
  ~ k + 1 < hi /\ (lo < k -> (k - 2) + 1 < hi).
Proof.
  intros Hle Hrun%for2_counter.
  assert (0 <= (hi - lo) / 2) by (apply Z.div_pos; lia).
  pose proof (Z.mul_div_le (hi - lo) 2 ltac:(lia)).
  pose proof (Z.mod_pos_bound (hi - lo) 2 ltac:(lia)).
  pose proof (Z.div_mod (hi - lo) 2 ltac:(lia)). lia.
Qed.

(** A continuation of a pair loop sees the counter [lo + 2 p]. *)
Lemma for2_bind_counter {R} body lo p s (K K' : Z * T -> option R) :
  (forall s', K (lo + 2 * Z.of_nat p, s') = K' (lo + 2 * Z.of_nat p, s')) ->
  for2_ lo p body s ≫= K = for2_ lo p body s ≫= K'.
Proof.
  intros HK. destruct (for2_ lo p body s) as [[k s']|] eqn:Hrun; [|done].
  apply for2_counter in Hrun as ->. apply HK.
Qed.

(** A pair loop whose body does two steps of [body] is a loop of [body]. *)
Lemma for2_two_steps (body2 body : Z -> T -> option T) lo p s :
  (forall k s, lo <= k -> k + 1 < lo + 2 * Z.of_nat p ->
     body2 k s = s' ← body k s; body (k + 1) s') ->
  for2_ lo p body2 s
  = s' ← for_ lo (2 * p) body s; Some (lo + 2 * Z.of_nat p, s').
Proof.
  revert lo s. induction p as [|p IH]; intros lo s Hb.
  - simpl. f_equal. f_equal. lia.
  - replace (2 * S p)%nat with (S (S (2 * p))) by lia.
    specialize (IH (lo + 2)). revert IH.
    generalize (2 * p)%nat as c. intros c IH.
    cbn [for2_ for_]. rewrite Hb by lia.
    destruct (body lo s) as [s1|]; simpl; [|done].
    destruct (body (lo + 1) s1) as [s2|]; simpl; [|done].
    rewrite IH by (intros; apply Hb; lia).
    replace (lo + 1 + 1) with (lo + 2) by lia.
    destruct (for_ (lo + 2) c body s2); simpl; [|done].
    f_equal. f_equal. lia.
Qed.

End PairLoops.

Lemma sub_term_eq term k q :
  sub_term term k q
  = match term k with Some t => Some (q - t)%Qc | None => None end.
Proof. unfold sub_term. by destruct (term k). Qed.

Lemma add_pair_eq term k s :
  add_pair term k s
  = match term k, term (k + 1) with
    | Some t0, Some t1 => Some (s.1 + t0, s.2 + t1)%Qc
    | _, _ => None
    end.
Proof. unfold add_pair. by destruct (term k), (term (k + 1)). Qed.

Lemma pairs_then_rest term lo p r q s :
  ('(k, s') ← for2_ lo p (add_pair term) s;
   for_ k r (sub_term term) (q - (s'.1 + s'.2))%Qc)
  = for_ lo (2 * p + r) (sub_term term) (q - (s.1 + s.2))%Qc.
Proof.
  revert lo q s. induction p as [|p IH]; intros lo q s.
  - done.
  - replace (2 * S p + r)%nat with (S (S (2 * p + r))) by lia.
    specialize (IH (lo + 2)). revert IH.
    generalize (2 * p + r)%nat as c. intros c IH.
    cbn [for2_ for_]. rewrite add_pair_eq, !sub_term_eq.
    destruct (term lo) as [t0|]; simpl; [|done].
    rewrite sub_term_eq.
    destruct (term (lo + 1)) as [t1|]; simpl; [|done].
    rewrite IH. simpl. replace (lo + 1 + 1) with (lo + 2) by lia.
    f_equal. ring.
Qed.

(** The shape of the SIMD dot products: pairs accumulated in two lanes,
    the lanes added and taken off [q], then the odd term taken off. *)
Lemma simd_dot_eq term pairbody body lo hi q :
  (forall k s, pairbody k s = add_pair term k s) ->
  (forall k q, body k q = sub_term term k q) ->
  lo <= hi ->
  ('(k, s) ← for_pairs lo hi pairbody (0, 0)%Qc;
   for_range k hi body (q - (s.1 + s.2))%Qc)
  = for_range lo hi body q.
Proof.
  intros Hpair Hbody Hle. unfold for_pairs, for_range.
  set (p := Z.to_nat ((hi - lo) / 2)).
  assert (0 <= (hi - lo) / 2) by (apply Z.div_pos; lia).
  assert (2 * ((hi - lo) / 2) <= hi - lo) by (apply Z.mul_div_le; lia).
  rewrite (for2_ext pairbody (add_pair term)) by (intros; apply Hpair).
  rewrite (for2_bind_counter _ _ _ _ _
    (fun '(k, s) => for_ k (Z.to_nat (hi - lo) - 2 * p) (sub_term term)
                      (q - (s.1 + s.2))%Qc)).
  - rewrite pairs_then_rest. cbn [fst snd].
    replace (2 * p + (Z.to_nat (hi - lo) - 2 * p))%nat
      with (Z.to_nat (hi - lo)) by lia.
    replace (q - (0 + 0))%Qc with q by ring.
    apply for_ext. intros. symmetry. apply Hbody.
  - intros s'. cbn [fst snd].
    replace (Z.to_nat (hi - (lo + 2 * Z.of_nat p)))
      with (Z.to_nat (hi - lo) - 2 * p)%nat by lia.
    apply for_ext. intros. apply Hbody.
Qed.

Lemma simd_reduce_lower_eq (a : list Qc) n i j q :
  Simd.reduce_lower a n i j q = Scalar.reduce a n i j j q.
Proof.
  unfold Simd.reduce_lower. destruct (Z.ltb_spec 1 j); [|done].
  apply (simd_dot_eq
    (fun k => x ← load a (i * n + k); y ← load a (k * n + j); Some (x * y)%Qc));
    [ | | lia].
  - intros k s. unfold add_pair.
    replace (i * n + (k + 1)) with (i * n + k + 1) by lia.
    destruct (load a (i * n + k)), (load a (i * n + k + 1)),
      (load a (k * n + j)), (load a ((k + 1) * n + j)); done.
  - intros k q'. unfold sub_term.
    destruct (load a (i * n + k)), (load a (k * n + j)); done.
Qed.

Lemma simd_upper_part_eq (a : list Qc) n j :
  Simd.upper_part a n j = Scalar.upper_part a n j.
Proof.
  apply for_ext. intros i s _.
  destruct (load s (i * n + j)) as [q|]; simpl; [|done].
  destruct (Z.ltb_spec 0 i); [done|].
  unfold Scalar.reduce. by rewrite for_range_empty by lia.
Qed.

Lemma simd_lower_part_eq (a : list Qc) n j :
  Simd.lower_part a n j = Scalar.lower_part a n j.
Proof.
  apply for_ext. intros i [[s lg] lr] _.
  destruct (load s (i * n + j)) as [q|]; simpl; [|done].
  by rewrite simd_reduce_lower_eq.
Qed.

Lemma simd_subtract_dot_eq (a : list Qc) n b i lo hi tot :
  Simd.subtract_dot a n b i lo hi tot = Scalar.subtract_dot a n b i lo hi tot.
Proof.
  unfold Simd.subtract_dot. cbv zeta. destruct (Z.leb_spec 2 (hi - lo)); [|done].
  apply (simd_dot_eq
    (fun k => x ← load a (i * n + k); y ← load b k; Some (x * y)%Qc));
    [ | | lia].
  - intros k s. unfold add_pair, Simd.v128_load.
    replace (i * n + (k + 1)) with (i * n + k + 1) by lia.
    destruct (load a (i * n + k)), (load a (i * n + k + 1)),
      (load b k), (load b (k + 1)); done.
  - intros k q'. unfold sub_term.
    destruct (load a (i * n + k)), (load b k); done.
Qed.

Lemma simd_forward_eq (a : list Qc) n ipvt bi i b tr :
  Simd.forward a n ipvt bi i b tr = Scalar.forward a n ipvt bi i b tr.
Proof.
  apply for_ext. intros k [s tr1] _.
  destruct (Scalar.exchange ipvt s k) as [[[row tot] s1]|]; simpl; [|done].
  by rewrite simd_subtract_dot_eq.
Qed.

Lemma for_down_ext {T} (body1 body2 : Z -> T -> option T) i cnt s :
  (forall k s, body1 k s = body2 k s) ->
  for_down_ i cnt body1 s = for_down_ i cnt body2 s.
Proof.
  intros Hb. revert i s. induction cnt as [|c IH]; intros i s; simpl; [done|].
  rewrite Hb. destruct (body2 i s); simpl; [|done]. apply IH.
Qed.

Lemma simd_backward_eq (a : list Qc) n b :
  Simd.backward a n b = Scalar.backward a n b.
Proof.
  apply for_down_ext. intros k s.
  destruct (load s k) as [tot|]; simpl; [|done].
  by rewrite simd_subtract_dot_eq.
Qed.


Section SwapRows.
Context {A : Type}.
Implicit Types (m : list A) (z : Z).

Lemma store_of_load m z x v :
  load m z = Some x -> store m z v = Some (<[Z.to_nat z := v]> m).
Proof. intros Hl%load_range. by apply store_in_range. Qed.

Lemma store_of_no_load m z v : load m z = None -> store m z v = None.
Proof.
  intros Hl. destruct (store m z v) as [m'|] eqn:Hst; [|done].
  apply store_Some in Hst as [Hz _].
  destruct (load_in_range m z Hz) as [x Hx]. congruence.
Qed.

Lemma load_insert_ne m z z' v :
  0 <= z -> z <> z' -> load (<[Z.to_nat z := v]> m) z' = load m z'.
Proof.
  intros Hz Hne. unfold load. destruct (Z.ltb_spec z' 0); [done|].
  apply list_lookup_insert_ne. lia.
Qed.

End SwapRows.

Lemma rows_apart n lr j k :
  lr <> j -> 0 <= k -> k + 1 < n ->
  lr * n + k + 1 < j * n + k \/ j * n + k + 1 < lr * n + k.
Proof.
  intros Hne Hk Hn.
  destruct (Z.lt_trichotomy lr j) as [Hlt|[->|Hlt]]; [|done|].
  - left. assert ((lr + 1) * n <= j * n)
      by (apply Z.mul_le_mono_nonneg_r; lia). lia.
  - right. assert ((j + 1) * n <= lr * n)
      by (apply Z.mul_le_mono_nonneg_r; lia). lia.
Qed.

Ltac mem_step E1 E2 E3 E4 :=
  first
    [ rewrite E1 | rewrite E2 | rewrite E3 | rewrite E4
    | rewrite load_insert_ne by lia
    | erewrite store_of_load
        by (rewrite ?load_insert_ne by lia; eassumption)
    | rewrite store_of_no_load
        by (rewrite ?load_insert_ne by lia; assumption) ];
  simpl.

(** The paired exchange of lines 52-57 of the SIMD file is two passes of
    the scalar loop body. *)
Lemma swap_pair_two_steps (a : list Qc) n lr j k :
  lr <> j -> 0 <= k -> k + 1 < n ->
  (v1 ← Simd.v128_load a (lr * n + k);
   v2 ← Simd.v128_load a (j * n + k);
   a ← Simd.v128_store a (lr * n + k) v2;
   Simd.v128_store a (j * n + k) v1)
  = (a' ← swap_entry n lr j k a; swap_entry n lr j (k + 1) a').
Proof.
  intros Hne Hk Hn. pose proof (rows_apart n lr j k Hne Hk Hn) as Hapart.
  unfold Simd.v128_load, Simd.v128_store, swap_entry.
  replace (lr * n + (k + 1)) with (lr * n + k + 1) by lia.
  replace (j * n + (k + 1)) with (j * n + k + 1) by lia.
  destruct (load a (lr * n + k)) as [x0|] eqn:E1;
  destruct (load a (lr * n + k + 1)) as [x1|] eqn:E2;
  destruct (load a (j * n + k)) as [y0|] eqn:E3;
  destruct (load a (j * n + k + 1)) as [y1|] eqn:E4;
  simpl;
  try (apply load_range in E1 as ?); try (apply load_range in E2 as ?);
  try (apply load_range in E3 as ?); try (apply load_range in E4 as ?);
  repeat mem_step E1 E2 E3 E4; try done.
  f_equal. f_equal. apply list_insert_insert_ne. lia.
Qed.

Lemma simd_swap_rows_eq (a : list Qc) n lr j :
  lr <> j ->
  Simd.swap_rows_simd a (lr * n) (j * n) n = Scalar.swap_rows a n lr j.
Proof.
  intros Hne. unfold Simd.swap_rows_simd, Scalar.swap_rows, for_pairs, for_range.
  change (fun k a0 =>
    x ← load a0 (lr * n + k); y ← load a0 (j * n + k);
    a1 ← store a0 (lr * n + k) y; store a1 (j * n + k) x)
    with (swap_entry n lr j).
  rewrite !Z.sub_0_r.
  set (p := Z.to_nat (n / 2)).
  assert ((Z.to_nat n = 2 * p + (Z.to_nat n - 2 * p))%nat /\
          0 + 2 * Z.of_nat p <= Z.max 0 n /\
          (Z.to_nat n - 2 * p <= 1)%nat) as (Hsplit & Hp & Hr).
  { destruct (Z.le_gt_cases 0 n) as [Hn|Hn].
    - assert (0 <= n / 2) by (apply Z.div_pos; lia).
      pose proof (Z.mul_div_le n 2 ltac:(lia)).
      pose proof (Z.mod_pos_bound n 2 ltac:(lia)).
      pose proof (Z.div_mod n 2 ltac:(lia)). lia.
    - assert (n / 2 < 0) by (apply Z.div_lt_upper_bound; lia). lia. }
  rewrite (for2_two_steps _ (swap_entry n lr j)).
  - replace (for_ 0 (Z.to_nat n) (swap_entry n lr j) a)
      with (for_ 0 (2 * p + (Z.to_nat n - 2 * p)) (swap_entry n lr j) a)
      by (by rewrite <- Hsplit).
    rewrite for_split.
    remember (Z.to_nat n - 2 * p)%nat as r eqn:Er.
    remember (2 * p)%nat as c eqn:Ec.
    destruct (for_ 0 c (swap_entry n lr j) a) as [s|]; simpl; [|done].
    replace (0 + Z.of_nat c) with (0 + 2 * Z.of_nat p) by lia.
    destruct (Z.ltb_spec (0 + 2 * Z.of_nat p) n) as [Hlt|Hge].
    + assert (r = 1%nat) as -> by lia. simpl.
      change (swap_entry n lr j (0 + 2 * Z.of_nat p) s
              = s' ← swap_entry n lr j (0 + 2 * Z.of_nat p) s; Some s').
      by destruct (swap_entry n lr j (0 + 2 * Z.of_nat p) s).
    + by assert (r = 0%nat) as -> by lia.
  - intros k s Hk Hk'. apply swap_pair_two_steps; [done | lia | lia].
Qed.

Lemma simd_pivot_column_eq (a : list Qc) n ipvt j lr :
  Simd.pivot_column a n ipvt j lr = Scalar.pivot_column a n ipvt j lr.
Proof.
  unfold Simd.pivot_column, Scalar.pivot_column.
  destruct (decide (j ≠ lr)); [|done].
  destruct (decide (lr = -1)); [done|].
  by rewrite simd_swap_rows_eq by done.
Qed.

Lemma simd_lu_column_eq (a : list Qc) n ipvt j :
  Simd.lu_column a n ipvt j = Scalar.lu_column a n ipvt j.
Proof.
  unfold Simd.lu_column, Scalar.lu_column. rewrite simd_upper_part_eq.
  destruct (Scalar.upper_part a n j) as [au|]; simpl; [|done].
  rewrite simd_lower_part_eq.
  destruct (Scalar.lower_part au n j) as [[[a1 lg] lr]|]; simpl; [|done].
  apply simd_pivot_column_eq.
Qed.

Lemma simd_lu_columns_eq (a : list Qc) n ipvt j cnt :
  Simd.lu_columns a n ipvt j cnt = Scalar.lu_columns a n ipvt j cnt.
Proof.
  revert a ipvt j. induction cnt as [|c IH]; intros a ipvt j; simpl; [done|].
  rewrite simd_lu_column_eq.
  destruct (Scalar.lu_column a n ipvt j) as [[r|a' ipvt']|]; simpl; done.
Qed.

(** C2: on the same inputs the SIMD build and the scalar build of
    [lu_factor] return the same value and leave the same matrix and pivot
    vector, and the two builds of [lu_solve] leave the same solution, for
    every [n], arithmetic being exact; a call that goes outside a buffer
    or divides by zero in one build does so in the other. *)
Theorem simd_agrees_with_scalar :
  (forall (a : list Qc) n ipvt,
     Simd.lu_factor a n ipvt = Scalar.lu_factor a n ipvt) /\
  (forall (a : list Qc) n ipvt b,
     Simd.lu_solve a n ipvt b = Scalar.lu_solve a n ipvt b).
Proof.
  split.
  - intros a n ipvt. unfold Simd.lu_factor, Scalar.lu_factor.
    destruct (Scalar.zero_row_check a n 0 (Z.to_nat n)) as [[i|]|]; simpl;
      [done | | done].
    by rewrite simd_lu_columns_eq.
  - intros a n ipvt b.
    unfold Simd.lu_solve, Scalar.lu_solve, Simd.lu_forward, Scalar.lu_forward.
    destruct (Scalar.permute_scan ipvt b 0 (Z.to_nat n) [])
      as [[[[bi i] b1] tr]|]; simpl; [|done].
    rewrite simd_forward_eq.
    destruct (Scalar.forward a n ipvt bi i b1 tr) as [[b2 tr2]|]; simpl;
      [|done].
    apply simd_backward_eq.
Qed.

(** * The helpers of the SIMD file *)

Section PairInvariant.
Context {T : Type}.

(** Total correctness of a pair loop from an invariant. *)
Lemma for2_invariant (I : Z -> T -> Prop) (body : Z -> T -> option T) lo p s :
  I lo s ->
  (forall k s, lo <= k -> k + 1 < lo + 2 * Z.of_nat p -> I k s ->
     exists s', body k s = Some s' /\ I (k + 2) s') ->
  exists s', for2_ lo p body s = Some (lo + 2 * Z.of_nat p, s') /\
             I (lo + 2 * Z.of_nat p) s'.
Proof.
  revert lo s. induction p as [|p IH]; intros lo s H0 Hstep; simpl.
  - exists s. replace (lo + 2 * Z.of_nat 0) with lo by lia. done.
  - destruct (Hstep lo s) as (s1 & -> & H1); [lia | lia | done |]. simpl.
    destruct (IH (lo + 2) s1) as (s' & -> & HI); [done | |].
    + intros k s2 Hk Hk'. apply Hstep; lia.
    + exists s'.
      replace (lo + 2 * Z.of_nat (S p)) with (lo + 2 + 2 * Z.of_nat p) by lia.
      done.
Qed.

Lemma for_pairs_invariant (I : Z -> T -> Prop) (body : Z -> T -> option T)
    lo hi s :
  I lo s ->
  (forall k s, lo <= k -> k + 1 < hi -> I k s ->
     exists s', body k s = Some s' /\ I (k + 2) s') ->
  exists k s', for_pairs lo hi body s = Some (k, s') /\ I k s' /\
    (hi <= lo /\ k = lo \/ lo <= k <= hi /\ hi <= k + 1).
Proof.
  intros H0 Hstep. unfold for_pairs.
  set (p := Z.to_nat ((hi - lo) / 2)).
  assert (hi <= lo /\ p = O \/
          lo <= lo + 2 * Z.of_nat p <= hi /\ hi <= lo + 2 * Z.of_nat p + 1)
    as Hp.
  { destruct (Z.le_gt_cases hi lo) as [Hle|Hgt].
    - left. split; [done|]. unfold p.
      assert ((hi - lo) / 2 <= 0) by (apply Z.div_le_upper_bound; lia). lia.
    - right. assert (0 <= (hi - lo) / 2) by (apply Z.div_pos; lia).
      pose proof (Z.mul_div_le (hi - lo) 2 ltac:(lia)).
      pose proof (Z.mod_pos_bound (hi - lo) 2 ltac:(lia)).
      pose proof (Z.div_mod (hi - lo) 2 ltac:(lia)). lia. }
  destruct (for2_invariant I body lo p s H0) as (s' & Hrun & HI).
  - intros k s1 Hk Hk'. apply Hstep; [done | lia].
  - exists (lo + 2 * Z.of_nat p), s'. split; [done|]. split; [done|].
    destruct Hp as [[? ->]|?]; [left; lia | right; lia].
Qed.

End PairInvariant.

Section Exchange.
Context {F : Type}.
Implicit Types (m : list F) (k n z : Z).

Lemma load_eq_list m1 m2 :
  length m1 = length m2 -> (forall z, load m1 z = load m2 z) -> m1 = m2.
Proof.
  intros Hlen Hld. apply list_eq. intros i.
  specialize (Hld (Z.of_nat i)). unfold load in Hld.
  destruct (Z.ltb_spec (Z.of_nat i) 0); [lia|].
  by rewrite Nat2Z.id in Hld.
Qed.

(** The paired exchange of lines 52-57 is two passes of [swap_at]. *)
Lemma swap_pair_is_two_swaps m r1 r2 k :
  r1 + 1 < r2 \/ r2 + 1 < r1 ->
  (v1 ← Simd.v128_load m (r1 + k);
   v2 ← Simd.v128_load m (r2 + k);
   m ← Simd.v128_store m (r1 + k) v2;
   Simd.v128_store m (r2 + k) v1)
  = (m' ← swap_at r1 r2 k m; swap_at r1 r2 (k + 1) m').
Proof.
  intros Hapart.
  unfold Simd.v128_load, Simd.v128_store, swap_at.
  replace (r1 + (k + 1)) with (r1 + k + 1) by lia.
  replace (r2 + (k + 1)) with (r2 + k + 1) by lia.
  destruct (load m (r1 + k)) as [x0|] eqn:E1;
  destruct (load m (r1 + k + 1)) as [x1|] eqn:E2;
  destruct (load m (r2 + k)) as [y0|] eqn:E3;
  destruct (load m (r2 + k + 1)) as [y1|] eqn:E4;
  simpl;
  try (apply load_range in E1 as ?); try (apply load_range in E2 as ?);
  try (apply load_range in E3 as ?); try (apply load_range in E4 as ?);
  repeat mem_step E1 E2 E3 E4; try done.
  f_equal. f_equal. apply list_insert_insert_ne. lia.
Qed.

(** [swap_rows_simd] is the loop [for (k = 0; k < n; k++)] of [swap_at]. *)
Lemma swap_rows_simd_loop m r1 r2 n :
  n <= 1 \/ r1 + 1 < r2 \/ r2 + 1 < r1 ->
  Simd.swap_rows_simd m r1 r2 n = for_range 0 n (swap_at r1 r2) m.
Proof.
  intros Hapart. unfold Simd.swap_rows_simd, for_pairs, for_range.
  rewrite !Z.sub_0_r.
  set (p := Z.to_nat (n / 2)).
  assert ((Z.to_nat n = 2 * p + (Z.to_nat n - 2 * p))%nat /\
          0 + 2 * Z.of_nat p <= Z.max 0 n /\
          (Z.to_nat n - 2 * p <= 1)%nat /\
          (n <= 1 -> p = O)) as (Hsplit & Hp & Hr & Hsmall).
  { destruct (Z.le_gt_cases 0 n) as [Hn|Hn].
    - assert (0 <= n / 2) by (apply Z.div_pos; lia).
      pose proof (Z.mul_div_le n 2 ltac:(lia)).
      pose proof (Z.mod_pos_bound n 2 ltac:(lia)).
      pose proof (Z.div_mod n 2 ltac:(lia)). lia.
    - assert (n / 2 < 0) by (apply Z.div_lt_upper_bound; lia). lia. }
  rewrite (for2_two_steps _ (swap_at r1 r2)).
  - replace (for_ 0 (Z.to_nat n) (swap_at r1 r2) m)
      with (for_ 0 (2 * p + (Z.to_nat n - 2 * p)) (swap_at r1 r2) m)
      by (by rewrite <- Hsplit).
    rewrite for_split.
    remember (Z.to_nat n - 2 * p)%nat as r eqn:Er.
    remember (2 * p)%nat as c eqn:Ec.
    destruct (for_ 0 c (swap_at r1 r2) m) as [s|]; simpl; [|done].
    replace (0 + Z.of_nat c) with (0 + 2 * Z.of_nat p) by lia.
    destruct (Z.ltb_spec (0 + 2 * Z.of_nat p) n) as [Hlt|Hge].
    + assert (r = 1%nat) as -> by lia. simpl.
      change (swap_at r1 r2 (0 + 2 * Z.of_nat p) s
              = s' ← swap_at r1 r2 (0 + 2 * Z.of_nat p) s; Some s').
      by destruct (swap_at r1 r2 (0 + 2 * Z.of_nat p) s).
    + by assert (r = 0%nat) as -> by lia.
  - intros k s Hk Hk'. apply swap_pair_is_two_swaps.
    destruct Hapart as [Hn|?]; [|done]. specialize (Hsmall Hn). lia.
Qed.

(** What the loop of [swap_at] does to two ranges that do not meet. *)
Lemma swap_loop_exchanges m r1 r2 n :
  0 <= r1 -> 0 <= r2 -> r1 + n <= r2 \/ r2 + n <= r1 ->
  r1 + n <= Z.of_nat (length m) -> r2 + n <= Z.of_nat (length m) ->
  exists m', for_range 0 n (swap_at r1 r2) m = Some m' /\
    length m' = length m /\
    (forall k, 0 <= k < n ->
       load m' (r1 + k) = load m (r2 + k) /\
       load m' (r2 + k) = load m (r1 + k)) /\
    (forall z, ~ r1 <= z < r1 + n -> ~ r2 <= z < r2 + n ->
       load m' z = load m z).
Proof.
  intros H1 H2 Hapart Hl1 Hl2.
  destruct (Z.le_gt_cases n 0) as [Hn|Hn].
  { exists m. rewrite for_range_empty by lia. split; [done|]. split; [done|].
    split; [intros; lia | done]. }
  destruct (for_range_invariant
    (fun k0 s => length s = length m /\
       (forall k, 0 <= k < k0 ->
          load s (r1 + k) = load m (r2 + k) /\
          load s (r2 + k) = load m (r1 + k)) /\
       (forall z, ~ r1 <= z < r1 + k0 -> ~ r2 <= z < r2 + k0 ->
          load s z = load m z))
    (swap_at r1 r2) 0 n m) as (m' & Hrun & Hlen & Hsw & Hfr); [lia | | |].
  - split; [done|]. split; [intros; lia | done].
  - intros k s Hk (Hlen & Hsw & Hfr). unfold swap_at.
    assert (load s (r1 + k) = load m (r1 + k)) as Hx by (apply Hfr; lia).
    assert (load s (r2 + k) = load m (r2 + k)) as Hy by (apply Hfr; lia).
    destruct (load_in_range m (r1 + k)) as [x Hmx]; [lia|].
    destruct (load_in_range m (r2 + k)) as [y Hmy]; [lia|].
    rewrite Hx, Hmx, Hy, Hmy. simpl.
    rewrite store_in_range by lia. simpl.
    rewrite store_in_range by (rewrite length_insert; lia).
    eexists. split; [done|]. split; [by rewrite !length_insert|]. split.
    + intros k' Hk'. destruct (decide (k' = k)) as [->|Hne].
      * rewrite Hmx, Hmy. split.
        -- rewrite load_insert_ne by lia. apply load_Some. split; [lia|].
           apply list_lookup_insert_eq. lia.
        -- apply load_Some. split; [lia|].
           apply list_lookup_insert_eq. rewrite length_insert. lia.
      * rewrite !load_insert_ne by lia. apply Hsw. lia.
    + intros z Hz1 Hz2. rewrite !load_insert_ne by lia. apply Hfr; lia.
  - exists m'. done.
Qed.

End Exchange.

Section SimdHelpers.
Context {F : Type} `{Arith F}.
Implicit Types (a m : list F) (ipvt : list Z) (n i j : Z).

(** [swap_rows_simd] on two rows of a buffer that do not overlap: the
    rows change places, entry by entry, for even and for odd [n], and
    nothing else in the buffer changes. *)
Theorem swap_rows_simd_exchanges m (r1 r2 : Z) n :
  0 <= r1 -> 0 <= r2 -> r1 + n <= r2 \/ r2 + n <= r1 ->
  r1 + n <= Z.of_nat (length m) -> r2 + n <= Z.of_nat (length m) ->
  exists m', Simd.swap_rows_simd m r1 r2 n = Some m' /\
    length m' = length m /\
    (forall k, 0 <= k < n ->
       load m' (r1 + k) = load m (r2 + k) /\
       load m' (r2 + k) = load m (r1 + k)) /\
    (forall z, ~ r1 <= z < r1 + n -> ~ r2 <= z < r2 + n ->
       load m' z = load m z).
Proof.
  intros H1 H2 Hapart Hl1 Hl2.
  rewrite swap_rows_simd_loop by lia.
  by apply swap_loop_exchanges.
Qed.

(** Exchanging the same two rows twice gives the buffer back. *)
Theorem swap_rows_simd_twice m (r1 r2 : Z) n :
  0 <= r1 -> 0 <= r2 -> r1 + n <= r2 \/ r2 + n <= r1 ->
  r1 + n <= Z.of_nat (length m) -> r2 + n <= Z.of_nat (length m) ->
  exists m', Simd.swap_rows_simd m r1 r2 n = Some m' /\
             Simd.swap_rows_simd m' r1 r2 n = Some m.
Proof.
  intros H1 H2 Hapart Hl1 Hl2.
  rewrite swap_rows_simd_loop by lia.
  destruct (swap_loop_exchanges m r1 r2 n) as (m' & -> & Hlen & Hsw & Hfr);
    [done..|].
  exists m'. split; [done|].
  rewrite swap_rows_simd_loop by lia.
  destruct (swap_loop_exchanges m' r1 r2 n) as (m2 & -> & Hlen2 & Hsw2 & Hfr2);
    [done | done | done | lia | lia |].
  f_equal. apply load_eq_list; [congruence|]. intros z.
  destruct (decide (r1 <= z < r1 + n)) as [Hz1|Hz1].
  - replace z with (r1 + (z - r1)) by lia.
    destruct (Hsw2 (z - r1)) as [-> _]; [lia|].
    destruct (Hsw (z - r1)) as [_ ->]; [lia|]. done.
  - destruct (decide (r2 <= z < r2 + n)) as [Hz2|Hz2].
    + replace z with (r2 + (z - r2)) by lia.
      destruct (Hsw2 (z - r2)) as [_ ->]; [lia|].
      destruct (Hsw (z - r2)) as [-> _]; [lia|]. done.
    + rewrite Hfr2, Hfr by done. done.
Qed.

(** In [lu_factor] the SIMD exchange of rows [largestRow] and [j] is the
    scalar loop of lines 76-80, whatever the arithmetic. *)
Lemma simd_swap_rows_any a n (lr j : Z) :
  lr <> j ->
  Simd.swap_rows_simd a (lr * n) (j * n) n = Scalar.swap_rows a n lr j.
Proof.
  intros Hne. rewrite swap_rows_simd_loop; [done|].
  destruct (Z.le_gt_cases n 1) as [|Hn]; [by left|]. right.
  destruct (rows_apart n lr j 0 Hne) as [?|?]; [lia | lia | lia | lia].
Qed.

Lemma simd_upper_part_any a n j :
  Simd.upper_part a n j = Scalar.upper_part a n j.
Proof.
  apply for_ext. intros i s _.
  destruct (load s (i * n + j)) as [q|]; simpl; [|done].
  destruct (Z.ltb_spec 0 i); [done|].
  unfold Scalar.reduce. by rewrite for_range_empty by lia.
Qed.

Lemma simd_pivot_column_any a n ipvt j lr :
  Simd.pivot_column a n ipvt j lr = Scalar.pivot_column a n ipvt j lr.
Proof.
  unfold Simd.pivot_column, Scalar.pivot_column.
  destruct (decide (j ≠ lr)); [|done].
  destruct (decide (lr = -1)); [done|].
  by rewrite simd_swap_rows_any by done.
Qed.

(** Columns 0 and 1 have no pair of products to add up. *)
Lemma simd_lu_column_small a n ipvt j :
  j <= 1 -> Simd.lu_column a n ipvt j = Scalar.lu_column a n ipvt j.
Proof.
  intros Hj. unfold Simd.lu_column, Scalar.lu_column.
  rewrite simd_upper_part_any.
  destruct (Scalar.upper_part a n j) as [au|]; simpl; [|done].
  assert (Simd.lower_part au n j = Scalar.lower_part au n j) as ->.
  { apply for_ext. intros i [[s lg] lr] _.
    destruct (load s (i * n + j)) as [q|]; simpl; [|done].
    unfold Simd.reduce_lower. by destruct (Z.ltb_spec 1 j); [lia|]. }
  destruct (Scalar.lower_part au n j) as [[[a1 lg] lr]|]; simpl; [|done].
  apply simd_pivot_column_any.
Qed.

Lemma simd_lu_columns_small a n ipvt j cnt :
  j + Z.of_nat cnt <= 2 ->
  Simd.lu_columns a n ipvt j cnt = Scalar.lu_columns a n ipvt j cnt.
Proof.
  revert a ipvt j. induction cnt as [|c IH]; intros a ipvt j Hj; simpl; [done|].
  rewrite simd_lu_column_small by lia.
  destruct (Scalar.lu_column a n ipvt j) as [[r|a' ipvt']|]; simpl; [done| |done].
  apply IH. lia.
Qed.

Lemma simd_subtract_dot_small a n (b : list F) i lo hi tot :
  hi - lo < 2 ->
  Simd.subtract_dot a n b i lo hi tot = Scalar.subtract_dot a n b i lo hi tot.
Proof.
  intros Hlen. unfold Simd.subtract_dot. cbv zeta.
  by destruct (Z.leb_spec 2 (hi - lo)); [lia|].
Qed.

Lemma permute_scan_start ipvt (b : list F) i cnt tr bi i0 b1 tr1 :
  Scalar.permute_scan ipvt b i cnt tr = Some (bi, i0, b1, tr1) ->
  0 <= i -> 0 <= bi /\ i <= i0.
Proof.
  revert b i tr. induction cnt as [|c IH]; intros b i tr Hrun Hi; simpl in Hrun.
  - injection Hrun as <- <- _ _. lia.
  - destruct (Scalar.exchange ipvt b i) as [[[row swap] b2]|]; [|discriminate].
    simpl in Hrun.
    destruct (store b2 i swap) as [b3|]; [|discriminate]. simpl in Hrun.
    destruct (negb (feqb swap f0)).
    + injection Hrun as <- <- _ _. lia.
    + apply IH in Hrun; lia.
Qed.

Lemma for_down_ext_range {T} (body1 body2 : Z -> T -> option T) i cnt s :
  (forall k s, i - Z.of_nat cnt < k <= i -> body1 k s = body2 k s) ->
  for_down_ i cnt body1 s = for_down_ i cnt body2 s.
Proof.
  revert i s. induction cnt as [|c IH]; intros i s Hb; simpl; [done|].
  rewrite Hb by lia. destruct (body2 i s); simpl; [|done].
  apply IH. intros. apply Hb. lia.
Qed.

(** Up to dimension 2 no loop of the SIMD build has a pair to process:
    the two builds run the same operations in the same order, and agree
    in any arithmetic, rounding included. *)
Theorem small_builds_identical a n ipvt (b : list F) :
  n <= 2 ->
  Simd.lu_factor a n ipvt = Scalar.lu_factor a n ipvt /\
  Simd.lu_solve a n ipvt b = Scalar.lu_solve a n ipvt b.
Proof.
  intros Hn. split.
  - unfold Simd.lu_factor, Scalar.lu_factor.
    destruct (Scalar.zero_row_check a n 0 (Z.to_nat n)) as [[i|]|]; simpl;
      [done | | done].
    by rewrite simd_lu_columns_small by lia.
  - unfold Simd.lu_solve, Scalar.lu_solve, Simd.lu_forward, Scalar.lu_forward.
    destruct (Scalar.permute_scan ipvt b 0 (Z.to_nat n) [])
      as [[[[bi i] b1] tr]|] eqn:Hscan; simpl; [|done].
    apply permute_scan_start in Hscan as [Hbi Hi]; [|done].
    assert (Simd.forward a n ipvt bi i b1 tr
            = Scalar.forward a n ipvt bi i b1 tr) as ->.
    { apply for_ext. intros k [s tr1] Hk.
      destruct (Scalar.exchange ipvt s k) as [[[row tot] s1]|]; simpl; [|done].
      by rewrite simd_subtract_dot_small by lia. }
    destruct (Scalar.forward a n ipvt bi i b1 tr) as [[b2 tr2]|]; simpl;
      [|done].
    apply for_down_ext_range. intros k s Hk.
    destruct (load s k) as [tot|]; simpl; [|done].
    by rewrite simd_subtract_dot_small by lia.
Qed.

End SimdHelpers.

Section ScaleColumn.
Context {F : Type} `{Arith F}.
Implicit Types (a m : list F) (n i j : Z).

(** [scale_column_simd] multiplies each of [a[i * stride]],
    [start <= i < end], by [scale], once, and leaves every other entry of
    the buffer as it is. *)
Theorem scale_column_simd_scales m (a start end_ stride : Z) (scale : F) :
  stride <> 0 ->
  (forall i, start <= i < end_ ->
     0 <= a + i * stride < Z.of_nat (length m)) ->
  exists m', Simd.scale_column_simd m a start end_ stride scale = Some m' /\
    length m' = length m /\
    (forall i, start <= i < end_ ->
       exists x, load m (a + i * stride) = Some x /\
                 load m' (a + i * stride) = Some (fmul x scale)) /\
    (forall z, (forall i, start <= i < end_ -> z <> a + i * stride) ->
       load m' z = load m z).
Proof.
  intros Hstride Hin. unfold Simd.scale_column_simd. cbv zeta.
  destruct (Z.le_gt_cases end_ start) as [Hle|Hgt].
  { exists m. rewrite for_range_empty by lia. split; [done|]. split; [done|].
    split; [intros; lia | done]. }
  assert (forall i i', i <> i' -> a + i * stride <> a + i' * stride) as Hinj.
  { intros i i' Hne Heq. apply Hne.
    apply (Z.mul_cancel_r i i' stride); [done | lia]. }
  destruct (for_range_invariant
    (fun i0 s => length s = length m /\
       (forall i, start <= i < i0 ->
          exists x, load m (a + i * stride) = Some x /\
                    load s (a + i * stride) = Some (fmul x scale)) /\
       (forall z, (forall i, start <= i < i0 -> z <> a + i * stride) ->
          load s z = load m z))
    (fun i m => x ← load m (a + i * stride);
                store m (a + i * stride) (fmul x scale)) start end_ m)
    as (m' & Hrun & Hlen & Hsc & Hfr); [lia | | | by exists m'].
  - split; [done|]. split; [intros; lia | done].
  - intros i s Hi (Hlen & Hsc & Hfr).
    assert (load s (a + i * stride) = load m (a + i * stride)) as Hx.
    { apply Hfr. intros i' Hi'. apply Hinj. lia. }
    destruct (load_in_range m (a + i * stride)) as [x Hmx]; [by apply Hin|].
    rewrite Hx, Hmx. simpl.
    rewrite store_in_range by (rewrite Hlen; by apply Hin).
    eexists. split; [done|]. split; [by rewrite length_insert|]. split.
    + intros i' Hi'. destruct (decide (i' = i)) as [->|Hne].
      * exists x. split; [done|]. apply load_Some.
        split; [apply Hin; lia|]. apply list_lookup_insert_eq.
        rewrite Hlen. specialize (Hin i). lia.
      * destruct (Hsc i') as (x' & Hx' & Hs'); [lia|]. exists x'.
        split; [done|]. rewrite load_insert_ne; [done | apply Hin; lia |].
        apply Hinj. lia.
    + intros z Hz. rewrite load_insert_ne; [| apply Hin; lia |].
      * apply Hfr. intros. apply Hz. lia.
      * intros Heq. by apply (Hz i); [lia|].
Qed.

End ScaleColumn.

(** [dot_product_simd] returns the dot product of [a[0 .. n)] and
    [b[0 .. n)], for even and for odd [n] and, when [n <= 0], zero; it
    reads no entry at or beyond [n]. *)
Theorem dot_product_simd_sum (ma mb : list Qc) (a b n : Z) :
  0 <= a -> 0 <= b ->
  a + n <= Z.of_nat (length ma) -> b + n <= Z.of_nat (length mb) ->
  Simd.dot_product_simd ma a mb b n
  = Some (sumZ 0 n (fun i => V ma (a + i) * V mb (b + i))%Qc).
Proof.
  intros Ha Hb Hla Hlb. unfold Simd.dot_product_simd.
  set (t := fun i => (V ma (a + i) * V mb (b + i))%Qc).
  assert (forall z, 0 <= z < n -> load ma (a + z) = Some (V ma (a + z)))
    as Hma.
  { intros z Hz. apply (V_load ma (Z.of_nat (length ma))); [|lia].
    unfold vec_ok. lia. }
  assert (forall z, 0 <= z < n -> load mb (b + z) = Some (V mb (b + z)))
    as Hmb.
  { intros z Hz. apply (V_load mb (Z.of_nat (length mb))); [|lia].
    unfold vec_ok. lia. }
  destruct (for_pairs_invariant
    (fun k (s : Qc * Qc) => (s.1 + s.2)%Qc = sumZ 0 k t)
    (fun i sum =>
       va ← Simd.v128_load ma (a + i);
       vb ← Simd.v128_load mb (b + i);
       let prod := Simd.f64x2_mul va vb in
       Some (Simd.f64x2_add sum prod)) 0 n (Simd.f64x2_splat f0))
    as (k & s & Hrun & Hsum & Hk).
  - simpl. rewrite sumZ_empty by lia. ring.
  - intros k s Hk Hk' Hsum. unfold Simd.v128_load.
    rewrite (Hma k), (Hmb k) by lia.
    replace (a + k + 1) with (a + (k + 1)) by lia.
    replace (b + k + 1) with (b + (k + 1)) by lia.
    rewrite (Hma (k + 1)), (Hmb (k + 1)) by lia. simpl.
    eexists. split; [done|]. simpl.
    replace (k + 2) with (k + 1 + 1) by lia.
    rewrite !sumZ_snoc by lia. rewrite <- Hsum. unfold t. ring.
  - match goal with
    | |- ?run ≫= _ = _ =>
        replace run with (Some (k, s)) by (symmetry; exact Hrun)
    end.
    simpl. unfold Simd.f64x2_extract_lane. simpl.
    destruct (Z.ltb_spec k n) as [Hlt|Hge].
    + rewrite (Hma k), (Hmb k) by lia. simpl. f_equal.
      replace n with (k + 1) by lia. rewrite sumZ_snoc by lia.
      rewrite <- Hsum. done.
    + f_equal. rewrite Hsum.
      destruct Hk as [[? ->]|?].
      * by rewrite !sumZ_empty by lia.
      * by replace k with n by lia.
Qed.

(** * What [lu_factor] returns, for any arithmetic *)

Section ReturnValue.
Context {F : Type} `{Arith F}.
Implicit Types (a : list F) (ipvt : list Z) (n i j : Z).

Lemma lu_columns_outcome a n ipvt j cnt :
  division_guarded F -> mat_ok a n -> vec_ok ipvt n ->
  0 <= j -> j + Z.of_nat cnt <= n ->
  exists o, Scalar.lu_columns a n ipvt j cnt = Some o /\
    length (flow_matrix o) = length a /\
    length (flow_pivots o) = length ipvt /\
    match o with
    | Return r => j <= value r < j + Z.of_nat cnt /\ exit r <> Success
    | Next _ _ => True
    end.
Proof.
  intros Hdiv. revert a ipvt j.
  induction cnt as [|c IH]; intros a ipvt j Ha Hp Hj Hn.
  - by exists (Next a ipvt).
  - simpl.
    destruct (lu_column_returns a n ipvt j) as (o & Hcol & Hlena & Hlenp);
      [done | done | done | lia |].
    rewrite Hcol. simpl.
    destruct o as [r|a1 ipvt1]; simpl in *.
    + exists (Return r). split; [done|]. split; [done|]. split; [done|].
      apply lu_column_pivots in Hcol as (lr & _ & -> & Hex).
      split; [lia|]. destruct Hex as [[-> _]|[-> _]]; done.
    + destruct (IH a1 ipvt1 (j + 1)) as (o & -> & Hlena' & Hlenp' & Ho);
        [| | lia | lia |].
      * destruct Ha. split; [done | lia].
      * unfold vec_ok in *. lia.
      * exists o. split; [done|]. split; [congruence|]. split; [congruence|].
        destruct o; [|done]. split; [lia | tauto].
Qed.

(** On buffers of [n * n] and [n] entries [lu_factor] stays inside them,
    divides only by a value that has tested nonzero, and returns [-1] or
    an index in [[0, n)]; the buffers keep their sizes. *)
Theorem lu_factor_return_value a n ipvt :
  division_guarded F -> mat_ok a n -> vec_ok ipvt n ->
  exists r, Scalar.lu_factor a n ipvt = Some r /\
    length (matrix r) = length a /\ length (pivots r) = length ipvt /\
    (value r = -1 /\ exit r = Success \/
     0 <= value r < n /\ exit r <> Success).
Proof.
  intros Hdiv Ha Hp. pose proof Ha as [Hn _]. unfold Scalar.lu_factor.
  destruct (zero_row_check_spec a n 0 (Z.to_nat n)) as (z & -> & Hz);
    [done | lia | lia |]. simpl.
  destruct z as [i|]; simpl in Hz.
  { eexists. split; [done|]. simpl. split; [done|]. split; [done|].
    right. split; [lia | done]. }
  destruct (lu_columns_outcome a n ipvt 0 (Z.to_nat n))
    as (o & -> & Hlena & Hlenp & Ho); [done | done | done | lia | lia |].
  simpl. destruct o as [r|a' ipvt']; simpl in *.
  - exists r. split; [done|]. split; [done|]. split; [done|]. right.
    split; [lia | tauto].
  - eexists. split; [done|]. simpl. split; [done|]. split; [done|].
    by left.
Qed.

(** For [INT_MIN < n <= 0] no loop of either build runs: [lu_factor]
    returns [-1] and [lu_solve] returns, the buffers untouched.  The
    lower bound keeps the [n - 1] of the back substitution an [int]. *)
Theorem empty_system_untouched a n ipvt (b : list F) :
  INT_MIN < n -> n <= 0 ->
  Scalar.lu_factor a n ipvt = Some (Result Success (-1) a ipvt) /\
  Scalar.lu_solve a n ipvt b = Some b /\
  Simd.lu_factor a n ipvt = Some (Result Success (-1) a ipvt) /\
  Simd.lu_solve a n ipvt b = Some b.
Proof.
  intros _ Hn.
  unfold Scalar.lu_factor, Scalar.lu_solve, Scalar.lu_forward, Scalar.forward,
    Scalar.backward, Simd.lu_factor, Simd.lu_solve, Simd.lu_forward,
    Simd.forward, Simd.backward, for_range, for_down.
  replace (Z.to_nat n) with O by lia. simpl.
  replace (Z.to_nat (n - 0)) with O by lia. done.
Qed.

Lemma lu_column_later_pivots a n ipvt j o k :
  Scalar.lu_column a n ipvt j = Some o -> k <> j ->
  load (flow_pivots o) k = load ipvt k.
Proof.
  intros Hcol Hk. apply lu_column_pivots in Hcol as (lr & _ & Ho).
  destruct o as [r|a1 ipvt1]; simpl.
  - destruct Ho as [_ [[_ ->]|[_ Hst]]]; [done|].
    by eapply load_store_ne.
  - by eapply load_store_ne.
Qed.

(** What a failure at column [j] leaves in [ipvt]: the entries after [j]
    are never written; [ipvt[j]] itself is written before the
    zero-diagonal check, with a row of [[j, n)] whose entry of column [j],
    now [a[j][j]], tests zero, and is not written when the no-candidate
    check fails. *)
Theorem failure_leaves_later_pivots a n ipvt r :
  Scalar.lu_factor a n ipvt = Some r ->
  exit r = NoPivot \/ exit r = ZeroDiag ->
  0 <= value r < n /\
  (forall k, value r < k -> load (pivots r) k = load ipvt k) /\
  (exit r = NoPivot -> load (pivots r) (value r) = load ipvt (value r)) /\
  (exit r = ZeroDiag ->
   exists row d,
     load (pivots r) (value r) = Some row /\ value r <= row < n /\
     load (matrix r) (value r * n + value r) = Some d /\ feqb d f0 = true).
Proof.
  unfold Scalar.lu_factor. intros Hrun Hexit.
  destruct (Scalar.zero_row_check a n 0 (Z.to_nat n)) as [[i|]|];
    simpl in Hrun; [| | discriminate].
  { injection Hrun as <-. simpl in Hexit. by destruct Hexit. }
  destruct (Scalar.lu_columns a n ipvt 0 (Z.to_nat n)) as [[r'|a' ipvt']|]
    eqn:Hcols; simpl in Hrun; [| |discriminate].
  2: { injection Hrun as <-. simpl in Hexit. by destruct Hexit. }
  injection Hrun as ->.
  assert (0 <= value r < n /\
    exists aj ipvtj,
      (forall k, value r <= k -> load ipvtj k = load ipvt k) /\
      Scalar.lu_column aj n ipvtj (value r) = Some (Return r))
    as (Hv & aj & ipvtj & Hkeep & Hcol).
  { assert (forall cnt a ipvt j,
      Scalar.lu_columns a n ipvt j cnt = Some (Return r) ->
      j <= value r < j + Z.of_nat cnt /\
      exists aj ipvtj,
        (forall k, value r <= k -> load ipvtj k = load ipvt k) /\
        Scalar.lu_column aj n ipvtj (value r) = Some (Return r)) as Hind.
    { induction cnt as [|c IH]; intros a0 ipvt0 j Hrun; [discriminate|].
      simpl in Hrun.
      destruct (Scalar.lu_column a0 n ipvt0 j) as [[r1|a1 ipvt1]|] eqn:Hc;
        [| |discriminate]; simpl in Hrun.
      - injection Hrun as ->.
        pose proof Hc as (lr & _ & Hvj & _)%lu_column_pivots.
        split; [lia|]. exists a0, ipvt0. split; [done|]. by rewrite Hvj.
      - destruct (IH _ _ _ Hrun) as (Hvr & aj & ipvtj & Hkeep & Hcol).
        split; [lia|]. exists aj, ipvtj. split; [|done].
        intros k Hk. rewrite Hkeep by done.
        apply (lu_column_later_pivots _ _ _ _ _ k Hc). lia. }
    destruct (Hind _ _ _ _ Hcols) as (Hv & Hrest). split; [lia | done]. }
  split; [done|].
  split.
  { intros k Hk. rewrite <- Hkeep by lia.
    apply (lu_column_later_pivots _ _ _ _ (Return r) k Hcol). lia. }
  pose proof Hcol as (lr & Hsel & _ & Hex)%lu_column_pivots.
  split.
  - intros He. destruct Hex as [[_ ->]|[He' _]]; [|congruence].
    apply Hkeep. lia.
  - intros He. destruct Hex as [[He' _]|[_ Hst]]; [congruence|].
    unfold Scalar.lu_column in Hcol. unfold selected_pivot in Hsel.
    destruct (Scalar.upper_part aj n (value r)) as [au|]; [|discriminate].
    simpl in *.
    destruct (Scalar.lower_part au n (value r)) as [[[a1 lg] lr']|] eqn:Hlow;
      [|discriminate]. simpl in *. injection Hsel as ->.
    destruct (lower_part_frame au n (value r) a1 lg lr) as (_ & Hlr & _);
      [lia | done |].
    assert (forall a2, Scalar.finish_column a2 n ipvtj (value r) lr
                       = Some (Return r) ->
      exists d, load (matrix r) (value r * n + value r) = Some d /\
                feqb d f0 = true) as Hfin.
    { intros a2 Hf. unfold Scalar.finish_column in Hf.
      destruct (store ipvtj (value r) lr) as [ipvt1|]; [|discriminate].
      simpl in Hf.
      destruct (load a2 (value r * n + value r)) as [d|] eqn:Hd;
        [|discriminate]. simpl in Hf.
      destruct (feqb d f0) eqn:Hz.
      - injection Hf as <-. simpl. eauto.
      - destruct (decide (value r ≠ n - 1)); [|discriminate].
        destruct (fdiv f1 d); [|discriminate]. simpl in Hf.
        destruct (Scalar.scale_column a2 n (value r) f); discriminate. }
    assert (value r <= lr < n /\
      exists d, load (matrix r) (value r * n + value r) = Some d /\
                feqb d f0 = true) as (Hrow & d & Hd & Hz).
    { unfold Scalar.pivot_column in Hcol.
      destruct (decide (value r ≠ lr)) as [Hne|Heq].
      - destruct (decide (lr = -1)) as [->|Hm1].
        { injection Hcol as Hr. rewrite <- Hr in He. discriminate. }
        destruct (Scalar.swap_rows a1 n lr (value r)) as [a2|];
          [|discriminate]. simpl in Hcol. split; [lia|]. by eapply Hfin.
      - split; [lia|]. by eapply Hfin. }
    exists lr, d. split; [by eapply load_store_eq|]. done.
Qed.

End ReturnValue.

(** * The SIMD build stays inside its buffers *)

Section SimdSafety.
Context {F : Type} `{Arith F}.
Implicit Types (a : list F) (ipvt : list Z) (n i j : Z).

Lemma simd_reduce_returns a n i j lo hi q :
  mat_ok a n -> 0 <= i < n -> 0 <= j < n -> 0 <= lo -> hi <= n ->
  is_Some (Simd.reduce a n i j lo hi q).
Proof.
  intros Ha Hi Hj Hlo Hhi. unfold Simd.reduce.
  destruct (Z.le_gt_cases lo hi) as [Hle|Hgt].
  - destruct (for_range_invariant (fun _ _ => True)
      (fun k q => x ← load a (i * n + k); y ← load a (k * n + j);
                  Some (fsub q (fmul x y))) lo hi q) as (t & -> & _);
      [done | done | | done].
    intros k t Hk _.
    destruct (mat_load a n i k) as [x ->]; [done | done | lia |].
    destruct (mat_load a n k j) as [y ->]; [done | lia | done |].
    simpl. eauto.
  - by rewrite for_range_empty by lia.
Qed.

(** The pair loop of lines 134-144 reads [a[i][k2 + 1]] and
    [a[k2 + 1][j]] only while [k2 + 1 < j]. *)
Lemma simd_reduce_lower_returns a n i j q :
  mat_ok a n -> 0 <= i < n -> 0 <= j < n ->
  is_Some (Simd.reduce_lower a n i j q).
Proof.
  intros Ha Hi Hj. unfold Simd.reduce_lower.
  destruct (Z.ltb_spec 1 j); [|apply simd_reduce_returns; (done || lia)].
  destruct (for_pairs_invariant (fun _ (_ : Simd.v128) => True)
    (fun k2 sum =>
       a_ik0 ← load a (i * n + k2);
       a_ik1 ← load a (i * n + k2 + 1);
       a_kj0 ← load a (k2 * n + j);
       a_kj1 ← load a ((k2 + 1) * n + j);
       let va := Simd.f64x2_make a_ik0 a_ik1 in
       let vb := Simd.f64x2_make a_kj0 a_kj1 in
       let prod := Simd.f64x2_mul va vb in
       Some (Simd.f64x2_add sum prod)) 0 j (Simd.f64x2_splat f0))
    as (k & s & Hrun & _ & Hk); [done | |].
  - intros k s Hk Hk' _.
    destruct (mat_load a n i k) as [x0 ->]; [done | done | lia |].
    replace (i * n + k + 1) with (i * n + (k + 1)) by lia.
    destruct (mat_load a n i (k + 1)) as [x1 ->]; [done | done | lia |].
    destruct (mat_load a n k j) as [y0 ->]; [done | lia | done |].
    destruct (mat_load a n (k + 1) j) as [y1 ->]; [done | lia | done |].
    simpl. eauto.
  - match goal with
    | |- is_Some (?run ≫= _) =>
        replace run with (Some (k, s)) by (symmetry; exact Hrun)
    end.
    simpl. apply simd_reduce_returns; [done | done | done | lia | lia].
Qed.

Lemma simd_lower_part_frame a n j a' largest largestRow :
  j <= n ->
  Simd.lower_part a n j = Some (a', largest, largestRow) ->
  length a' = length a /\
  (largestRow = -1 \/ j <= largestRow < n) /\
  forall z, (forall i, j <= i < n -> z <> i * n + j) -> load a' z = load a z.
Proof.
  intros Hj Hrun. unfold Simd.lower_part in Hrun.
  apply (for_range_returned
    (fun i0 '(s, lg, lr) => length s = length a /\
       (lr = -1 \/ j <= lr < i0) /\
       forall z, (forall i, j <= i < i0 -> z <> i * n + j) ->
         load s z = load a z) _ _ _ _ _ Hrun); [lia | by auto |].
  intros i [[s lg] lr] [[s' lg'] lr'] Hi (Hlen & Hlr & Hfr) Hbody.
  destruct (load s (i * n + j)) as [q0|]; [|discriminate]. simpl in Hbody.
  destruct (Simd.reduce_lower s n i j q0) as [q|]; [|discriminate].
  simpl in Hbody.
  destruct (store s (i * n + j) q) as [s1|] eqn:Hst; [|discriminate].
  simpl in Hbody.
  assert (length s' = length a /\
    forall z, (forall i0, j <= i0 < i + 1 -> z <> i0 * n + j) ->
      load s' z = load a z) as [Hlen' Hfr'].
  { assert (s' = s1) as -> by (destruct (fgeb (fabs q) lg); congruence).
    split; [rewrite <- Hlen; by eapply store_length|].
    intros z Hz. rewrite <- Hfr by (intros; apply Hz; lia).
    eapply load_store_ne; [done|]. intros Heq. by apply (Hz i); [lia|]. }
  split; [done|]. split; [|done].
  destruct (fgeb (fabs q) lg); injection Hbody as _ _ <-; lia.
Qed.

Lemma simd_lower_part_returns a n j :
  mat_ok a n -> 0 <= j < n -> is_Some (Simd.lower_part a n j).
Proof.
  intros Ha Hj. unfold Simd.lower_part.
  destruct (for_range_invariant
    (fun _ '(s, _, _) => length s = length a)
    (fun i '(a, largest, largestRow) =>
       q ← load a (i * n + j);
       q ← Simd.reduce_lower a n i j q;
       a ← store a (i * n + j) q;
       let x := fabs q in
       if fgeb x largest then Some (a, x, i)
       else Some (a, largest, largestRow)) j n (a, f0, -1))
    as (s' & Hrun & _); [lia | done | | by exists s'].
  intros i [[s lg] lr] Hi Hlen.
  assert (mat_ok s n) as Hs by (destruct Ha; split; [done | lia]).
  destruct (mat_load s n i j) as [q0 Hq0]; [done | lia | done |].
  rewrite Hq0. simpl.
  destruct (simd_reduce_lower_returns s n i j q0) as [q ->];
    [done | lia | done |].
  simpl. rewrite store_in_range by (by apply load_range in Hq0). simpl.
  destruct (fgeb (fabs q) lg); eexists (_, _, _);
    (split; [done|]; by rewrite length_insert).
Qed.

(** Lines 71-97 of the scalar file, lines 165-187 of the SIMD file: the
    pivot row is in [[j, n)] or there is none. *)
Lemma pivot_column_outcome a n ipvt j largestRow :
  division_guarded F -> mat_ok a n -> vec_ok ipvt n -> 0 <= j < n ->
  largestRow = -1 \/ j <= largestRow < n ->
  exists o, Scalar.pivot_column a n ipvt j largestRow = Some o /\
    length (flow_matrix o) = length a /\
    length (flow_pivots o) = length ipvt /\
    match o with
    | Return r => value r = j /\ exit r <> Success
    | Next _ _ => True
    end.
Proof.
  intros Hdiv Ha Hp Hj Hlr.
  assert (forall a2, length a2 = length a ->
    exists o, Scalar.finish_column a2 n ipvt j largestRow = Some o /\
      length (flow_matrix o) = length a /\
      length (flow_pivots o) = length ipvt /\
      match o with
      | Return r => value r = j /\ exit r <> Success
      | Next _ _ => True
      end) as Hfin.
  { intros a2 Hlen2.
    assert (mat_ok a2 n) as Ha2 by (destruct Ha; split; [done | lia]).
    destruct (finish_column_returns a2 n ipvt j largestRow Hdiv Ha2 Hp Hj)
      as [o Ho].
    exists o. split; [done|].
    pose proof (finish_column_pivots _ _ _ _ _ _ Ho) as [Hst Hret].
    split; [|split; [by apply store_length in Hst|]].
    - destruct o as [r|a3 ipvt3]; simpl.
      + unfold Scalar.finish_column in Ho.
        destruct (store ipvt j largestRow); [|discriminate]. simpl in Ho.
        destruct (load a2 (j * n + j)) as [d|]; [|discriminate]. simpl in Ho.
        destruct (feqb d f0); [by injection Ho as <-|].
        destruct (decide (j ≠ n - 1)); [|discriminate].
        destruct (fdiv f1 d); [|discriminate]. simpl in Ho.
        destruct (Scalar.scale_column a2 n j f); discriminate.
      + destruct (finish_column_safe a2 n ipvt j largestRow a3 ipvt3 Hj Ho)
          as (_ & -> & _). done.
    - destruct o as [r|]; [|done]. destruct Hret as [-> ->]. done. }
  unfold Scalar.pivot_column.
  destruct (decide (j ≠ largestRow)) as [Hne|Heq]; [|by apply Hfin].
  destruct (decide (largestRow = -1)).
  - eexists. split; [done|]. simpl. done.
  - destruct (swap_rows_exchange a n largestRow j) as (a2 & Hsw & _);
      [done | lia | lia | lia |].
    rewrite Hsw. simpl.
    destruct (swap_rows_frame a n largestRow j a2) as [Hlen3 _];
      [lia | done |].
    by apply Hfin.
Qed.

Lemma simd_lu_column_outcome a n ipvt j :
  division_guarded F -> mat_ok a n -> vec_ok ipvt n -> 0 <= j < n ->
  exists o, Simd.lu_column a n ipvt j = Some o /\
    length (flow_matrix o) = length a /\
    length (flow_pivots o) = length ipvt /\
    match o with
    | Return r => value r = j /\ exit r <> Success
    | Next _ _ => True
    end.
Proof.
  intros Hdiv Ha Hp Hj. unfold Simd.lu_column.
  rewrite simd_upper_part_any.
  destruct (upper_part_returns a n j Ha Hj) as [au Hup]. rewrite Hup. simpl.
  destruct (upper_part_frame a n j au) as [Hlen1 _]; [lia | done |].
  assert (mat_ok au n) as Hau by (destruct Ha; split; [done | lia]).
  destruct (simd_lower_part_returns au n j Hau Hj) as [[[a1 lg] lr] Hlow].
  rewrite Hlow. simpl.
  destruct (simd_lower_part_frame au n j a1 lg lr) as (Hlen2 & Hlr & _);
    [lia | done |].
  assert (mat_ok a1 n) as Ha1 by (destruct Ha; split; [done | lia]).
  rewrite simd_pivot_column_any.
  destruct (pivot_column_outcome a1 n ipvt j lr) as (o & -> & Hl1 & Hl2 & Ho);
    [done..|].
  exists o. split; [done|]. split; [congruence | done].
Qed.

Lemma simd_lu_columns_outcome a n ipvt j cnt :
  division_guarded F -> mat_ok a n -> vec_ok ipvt n ->
  0 <= j -> j + Z.of_nat cnt <= n ->
  exists o, Simd.lu_columns a n ipvt j cnt = Some o /\
    length (flow_matrix o) = length a /\
    length (flow_pivots o) = length ipvt /\
    match o with
    | Return r => j <= value r < j + Z.of_nat cnt /\ exit r <> Success
    | Next _ _ => True
    end.
Proof.
  intros Hdiv. revert a ipvt j.
  induction cnt as [|c IH]; intros a ipvt j Ha Hp Hj Hn.
  - by exists (Next a ipvt).
  - simpl.
    destruct (simd_lu_column_outcome a n ipvt j)
      as (o & -> & Hlena & Hlenp & Ho); [done | done | done | lia |].
    simpl. destruct o as [r|a1 ipvt1]; simpl in *.
    + exists (Return r). split; [done|]. split; [done|]. split; [done|].
      destruct Ho as [-> ?]. split; [lia | done].
    + destruct (IH a1 ipvt1 (j + 1)) as (o & -> & Hlena' & Hlenp' & Ho');
        [| | lia | lia |].
      * destruct Ha. split; [done | lia].
      * unfold vec_ok in *. lia.
      * exists o. split; [done|]. split; [congruence|]. split; [congruence|].
        destruct o; [|done]. split; [lia | tauto].
Qed.

(** On buffers of [n * n] and [n] entries the SIMD build of [lu_factor]
    stays inside them - the pair loops, for even and for odd [n], read no
    entry beyond a row or a column -, divides only by a value that has
    tested nonzero, and returns [-1] or an index in [[0, n)]. *)
Theorem simd_lu_factor_return_value a n ipvt :
  division_guarded F -> mat_ok a n -> vec_ok ipvt n ->
  exists r, Simd.lu_factor a n ipvt = Some r /\
    length (matrix r) = length a /\ length (pivots r) = length ipvt /\
    (value r = -1 /\ exit r = Success \/
     0 <= value r < n /\ exit r <> Success).
Proof.
  intros Hdiv Ha Hp. pose proof Ha as [Hn _]. unfold Simd.lu_factor.
  destruct (zero_row_check_spec a n 0 (Z.to_nat n)) as (z & -> & Hz);
    [done | lia | lia |]. simpl.
  destruct z as [i|]; simpl in Hz.
  { eexists. split; [done|]. simpl. split; [done|]. split; [done|].
    right. split; [lia | done]. }
  destruct (simd_lu_columns_outcome a n ipvt 0 (Z.to_nat n))
    as (o & -> & Hlena & Hlenp & Ho); [done | done | done | lia | lia |].
  simpl. destruct o as [r|a' ipvt']; simpl in *.
  - exists r. split; [done|]. split; [done|]. split; [done|]. right.
    split; [lia | tauto].
  - eexists. split; [done|]. simpl. split; [done|]. split; [done|].
    by left.
Qed.


Lemma pivot_column_safe a n ipvt j largestRow a' ipvt' :
  0 <= j < n -> largestRow = -1 \/ j <= largestRow < n ->
  Scalar.pivot_column a n ipvt j largestRow = Some (Next a' ipvt') ->
  length a' = length a /\
  j <= largestRow < n /\ store ipvt j largestRow = Some ipvt' /\
  (exists d, load a' (j * n + j) = Some d /\ feqb d f0 = false) /\
  forall i, 0 <= i < j -> load a' (i * n + i) = load a (i * n + i).
Proof.
  intros Hj Hlr Hrun. unfold Scalar.pivot_column in Hrun.
  destruct (decide (j ≠ largestRow)) as [Hne|Heq].
  - destruct (decide (largestRow = -1)); [discriminate|].
    destruct (Scalar.swap_rows a n largestRow j) as [a2|] eqn:Hsw;
      [|discriminate]. simpl in Hrun.
    destruct (swap_rows_frame a n largestRow j a2) as [Hlen3 Hfr3];
      [lia | done |].
    destruct (finish_column_safe a2 n ipvt j largestRow a' ipvt' Hj Hrun)
      as (Hst & Hlen4 & Hd & Hfr4).
    split; [congruence|]. split; [lia|]. split; [done|]. split; [done|].
    intros i Hi. rewrite Hfr4 by lia. apply Hfr3.
    intros k Hk. split; apply index_ne; lia.
  - destruct (finish_column_safe a n ipvt j largestRow a' ipvt' Hj Hrun)
      as (Hst & Hlen4 & Hd & Hfr4).
    split; [done|]. split; [lia|]. done.
Qed.

Lemma simd_lu_column_safe a n ipvt j a' ipvt' :
  0 <= j < n ->
  Simd.lu_column a n ipvt j = Some (Next a' ipvt') ->
  length a' = length a /\
  (exists largestRow,
     j <= largestRow < n /\ store ipvt j largestRow = Some ipvt') /\
  (exists d, load a' (j * n + j) = Some d /\ feqb d f0 = false) /\
  forall i, 0 <= i < j -> load a' (i * n + i) = load a (i * n + i).
Proof.
  intros Hj Hrun. unfold Simd.lu_column in Hrun.
  rewrite simd_upper_part_any in Hrun.
  destruct (Scalar.upper_part a n j) as [au|] eqn:Hup; [|discriminate].
  simpl in Hrun.
  destruct (Simd.lower_part au n j) as [[[a1 lg] lr]|] eqn:Hlow;
    [|discriminate]. simpl in Hrun.
  rewrite simd_pivot_column_any in Hrun.
  destruct (upper_part_frame a n j au) as [Hlen1 Hfr1]; [lia | done |].
  destruct (simd_lower_part_frame au n j a1 lg lr) as (Hlen2 & Hlr & Hfr2);
    [lia | done |].
  destruct (pivot_column_safe a1 n ipvt j lr a' ipvt' Hj Hlr Hrun)
    as (Hlen3 & Hrow & Hst & Hd & Hfr3).
  split; [congruence|]. split; [by exists lr|]. split; [done|].
  intros i Hi. rewrite Hfr3, Hfr2, Hfr1; [done | | | lia];
    intros i' Hi'; apply index_ne; lia.
Qed.

Lemma simd_lu_columns_safe a n ipvt j cnt a' ipvt' :
  0 <= j -> j + Z.of_nat cnt <= n ->
  Simd.lu_columns a n ipvt j cnt = Some (Next a' ipvt') ->
  length a' = length a /\ length ipvt' = length ipvt /\
  (forall i, j <= i < j + Z.of_nat cnt ->
     (exists row, load ipvt' i = Some row /\ i <= row < n) /\
     (exists d, load a' (i * n + i) = Some d /\ feqb d f0 = false)) /\
  (forall i, 0 <= i < j ->
     load ipvt' i = load ipvt i /\ load a' (i * n + i) = load a (i * n + i)).
Proof.
  revert a ipvt j. induction cnt as [|c IH]; intros a ipvt j Hj Hn Hrun.
  - injection Hrun as <- <-. split; [done|]. split; [done|].
    split; [intros; lia | done].
  - simpl in Hrun.
    destruct (Simd.lu_column a n ipvt j) as [[r1|a1 ipvt1]|] eqn:Hcol;
      [discriminate | | discriminate]. simpl in Hrun.
    destruct (simd_lu_column_safe a n ipvt j a1 ipvt1)
      as (Hlen & Hrow & Hd & Hfr); [lia | done |].
    destruct Hrow as (lr & Hlr & Hst).
    destruct (IH a1 ipvt1 (j + 1)) as (Hlen' & Hlenp & Hnew & Hold);
      [lia | lia | done |].
    split; [congruence|].
    split; [rewrite Hlenp; by eapply store_length|]. split.
    + intros i Hi. destruct (decide (i = j)) as [->|Hne]; [|apply Hnew; lia].
      destruct (Hold j) as [-> ->]; [lia|]. split; [|done].
      exists lr. split; [by eapply load_store_eq | done].
    + intros i Hi. destruct (Hold i) as [-> ->]; [lia|].
      split; [eapply load_store_ne; [done | lia] | apply Hfr; lia].
Qed.

(** The pair loops of lines 230-235 and 258-263 read [a[i][jj + 1]] and
    [b[jj + 1]] only while [jj + 1] is below the end of the sum. *)
Lemma simd_subtract_dot_returns a n (b : list F) i lo hi tot :
  mat_ok a n -> vec_ok b n -> 0 <= i < n -> 0 <= lo -> hi <= n ->
  is_Some (Simd.subtract_dot a n b i lo hi tot).
Proof.
  intros Ha Hb Hi Hlo Hhi. unfold Simd.subtract_dot. cbv zeta.
  destruct (Z.leb_spec 2 (hi - lo)) as [Hlen|Hlen].
  2: { destruct (subtract_dot_total a n b i lo hi tot) as [t ->]; done. }
  destruct (for_pairs_invariant (fun _ (_ : Simd.v128) => True)
    (fun jj sum =>
       x0 ← load a (i * n + jj);
       x1 ← load a (i * n + jj + 1);
       let va := Simd.f64x2_make x0 x1 in
       vb ← Simd.v128_load b jj;
       let prod := Simd.f64x2_mul va vb in
       Some (Simd.f64x2_add sum prod)) lo hi (Simd.f64x2_splat f0))
    as (k & s & Hrun & _ & Hk); [done | |].
  - intros k s Hk Hk' _. unfold Simd.v128_load.
    destruct (mat_load a n i k) as [x0 ->]; [done | done | lia |].
    replace (i * n + k + 1) with (i * n + (k + 1)) by lia.
    destruct (mat_load a n i (k + 1)) as [x1 ->]; [done | done | lia |].
    destruct (load_in_range b k) as [y0 ->]; [unfold vec_ok in Hb; lia|].
    destruct (load_in_range b (k + 1)) as [y1 ->];
      [unfold vec_ok in Hb; lia|].
    simpl. eauto.
  - match goal with
    | |- is_Some (?run ≫= _) =>
        replace run with (Some (k, s)) by (symmetry; exact Hrun)
    end.
    simpl.
    destruct (subtract_dot_total a n b i k hi
      (fsub tot (fadd (Simd.f64x2_extract_lane s 0)
                      (Simd.f64x2_extract_lane s 1)))) as [t ->];
      [done | done | done | lia | done | done].
Qed.

(** The contract of the SIMD [lu_solve]: with pivot entries that are row
    indices and a diagonal that tests nonzero it stays inside its
    buffers and divides by no zero. *)
Lemma simd_lu_solve_returns a n ipvt (b : list F) :
  division_guarded F ->
  mat_ok a n -> pivots_in_range ipvt n -> vec_ok b n ->
  (forall i, 0 <= i < n ->
     exists d, load a (i * n + i) = Some d /\ feqb d f0 = false) ->
  exists x, Simd.lu_solve a n ipvt b = Some x /\ length x = length b.
Proof.
  intros Hdiv Ha Hp Hb Hdiag. pose proof Ha as [Hn _].
  unfold Simd.lu_solve, Simd.lu_forward.
  destruct (permute_scan_spec ipvt b n 0 (Z.to_nat n))
    as (bi & i0 & b1 & Hscan & Hlen1 & Hcase); [done | done | lia | lia |].
  change (exchanges_upto ipvt 0) with (@nil (Z * Z)) in Hscan.
  rewrite Hscan. simpl.
  assert (exists b2 tr2,
    Simd.forward a n ipvt bi i0 b1 (exchanges_upto ipvt i0) = Some (b2, tr2) /\
    length b2 = length b1) as (b2 & tr2 & Hfw & Hlen2).
  { unfold Simd.forward.
    destruct (for_range_invariant
      (fun _ '(s, _) => length s = length b1)
      (fun i '(b, tr) =>
         '(row, tot, b) ← Scalar.exchange ipvt b i;
         tot ← Simd.subtract_dot a n b i bi i tot;
         b ← store b i tot;
         Some (b, tr ++ [(i, row)])) i0 n (b1, exchanges_upto ipvt i0))
      as ([b2 tr2] & Hrun & Hlen); [lia | done | | by exists b2, tr2].
    intros i [s tr] Hi Hlen.
    assert (vec_ok s n) as Hs by (unfold vec_ok in *; lia).
    destruct (exchange_total ipvt s n i)
      as (swap & x & s2 & -> & _ & _ & _ & _ & Hlens); [done | done | lia |].
    simpl.
    assert (vec_ok s2 n) as Hs2 by (unfold vec_ok in *; lia).
    destruct (simd_subtract_dot_returns a n s2 i bi i swap) as [t ->];
      [done | done | lia | lia | lia |]. simpl.
    rewrite store_in_range by (unfold vec_ok in *; lia). simpl.
    eexists (_, _). split; [done|]. rewrite length_insert. lia. }
  rewrite Hfw. simpl. unfold Simd.backward.
  destruct (for_down_invariant (fun _ s => length s = length b2)
    (fun i b =>
       tot ← load b i;
       tot ← Simd.subtract_dot a n b i (i + 1) n tot;
       d ← load a (i * n + i);
       x ← fdiv tot d;
       store b i x) n b2) as (x & Hx & Hlenx); [done | done | |].
  - intros i s Hi Hlen.
    assert (vec_ok s n) as Hs by (unfold vec_ok in *; lia).
    destruct (load_in_range s i) as [tot ->]; [unfold vec_ok in Hs; lia|].
    simpl.
    destruct (simd_subtract_dot_returns a n s i (i + 1) n tot) as [t ->];
      [done | done | lia | lia | lia |]. simpl.
    destruct (Hdiag i Hi) as (d & -> & Hd). simpl.
    destruct (Hdiv t d Hd) as [y ->]. simpl.
    rewrite store_in_range by (unfold vec_ok in Hs; lia).
    eexists. split; [done|]. by rewrite length_insert.
  - exists x. split; [done | congruence].
Qed.

(** When the SIMD build of [lu_factor] returns [-1], every pivot entry
    satisfies [j <= ipvt[j] < n], every diagonal entry tests nonzero, and
    the SIMD build of [lu_solve] runs on any right-hand side without
    leaving a buffer and without dividing by zero. *)
Theorem simd_success_is_safe a n ipvt r :
  division_guarded F ->
  mat_ok a n -> vec_ok ipvt n ->
  Simd.lu_factor a n ipvt = Some r -> value r = -1 ->
  exit r = Success /\
  (forall j, 0 <= j < n ->
     exists row, load (pivots r) j = Some row /\ j <= row < n) /\
  (forall j, 0 <= j < n ->
     exists d, load (matrix r) (j * n + j) = Some d /\ feqb d f0 = false) /\
  (forall b, vec_ok b n ->
     exists x, Simd.lu_solve (matrix r) n (pivots r) b = Some x /\
               length x = length b).
Proof.
  intros Hdiv Ha Hp Hrun Hv. pose proof Ha as [Hn Hsize].
  unfold Simd.lu_factor in Hrun.
  destruct (zero_row_check_spec a n 0 (Z.to_nat n)) as (z & Hz & Hspec);
    [done | lia | lia |].
  rewrite Hz in Hrun. simpl in Hrun.
  destruct z as [i|].
  { injection Hrun as <-. simpl in *. lia. }
  destruct (Simd.lu_columns a n ipvt 0 (Z.to_nat n)) as [[r'|a' ipvt']|]
    eqn:Hcols; [| |discriminate]; simpl in Hrun.
  { injection Hrun as ->.
    destruct (simd_lu_columns_outcome a n ipvt 0 (Z.to_nat n))
      as (o & Ho & _ & _ & Hret); [done | done | done | lia | lia |].
    rewrite Hcols in Ho. injection Ho as <-. lia. }
  injection Hrun as <-. simpl.
  destruct (simd_lu_columns_safe a n ipvt 0 (Z.to_nat n) a' ipvt')
    as (Hlen & Hlenp & Hnew & _); [lia | lia | done |].
  assert (forall j, 0 <= j < n ->
    exists row, load ipvt' j = Some row /\ j <= row < n) as Hrows.
  { intros j Hj. apply Hnew. lia. }
  assert (forall j, 0 <= j < n ->
    exists d, load a' (j * n + j) = Some d /\ feqb d f0 = false) as Hdiag.
  { intros j Hj. apply Hnew. lia. }
  split; [done|]. split; [done|]. split; [done|].
  intros b Hb. apply simd_lu_solve_returns; [done | | | done | done].
  - split; [done | lia].
  - intros i Hi. destruct (Hrows i Hi) as (row & ? & ?). exists row.
    split; [done | lia].
Qed.

End SimdSafety.

(** * The factors, on exact arithmetic *)

(** What [lu_factor] leaves when it returns [-1]: below the diagonal the
    unit lower factor [L], on and above it the upper factor [U], with
    [L . U] the matrix it was given, rows exchanged as [ipvt] records;
    the exchanges make up a permutation of the rows. *)
Theorem lu_factor_factors (a : list Qc) n ipvt r :
  mat_ok a n -> vec_ok ipvt n ->
  Scalar.lu_factor a n ipvt = Some r -> value r = -1 ->
  (forall i, 0 <= i < n ->
     0 <= origin (pivot_at (pivots r)) (Z.to_nat n) i < n) /\
  (forall i, 0 <= i < n ->
     exists i', 0 <= i' < n /\
       origin (pivot_at (pivots r)) (Z.to_nat n) i' = i) /\
  forall i c, 0 <= i < n -> 0 <= c < n ->
    sumZ 0 n (fun k => Lf (matrix r) n i k * Uf (matrix r) n k c)%Qc
    = M a n (origin (pivot_at (pivots r)) (Z.to_nat n) i) c.
Proof.
  intros Ha Hp Hrun Hv.
  destruct (lu_factor_success a n ipvt r Ha Hp Hrun Hv)
    as (_ & _ & _ & Hpiv & Hfac).
  assert (forall c, 0 <= c < Z.of_nat (Z.to_nat n) ->
    0 <= pivot_at (pivots r) c < n) as Hrange.
  { intros c Hc. specialize (Hpiv c). lia. }
  split; [|split].
  - intros i Hi. apply origin_range; [done | lia | done].
  - intros i Hi. apply origin_onto; [done | lia | done].
  - intros i c Hi Hc. symmetry.
    by apply (factored_product
      (fun i c => M a n (origin (pivot_at (pivots r)) (Z.to_nat n) i) c)).
Qed.

(** The vector that [lu_solve] returns after a successful [lu_factor] is
    the only solution of the system. *)
Theorem lu_solve_unique (a : list Qc) n ipvt b r :
  mat_ok a n -> vec_ok ipvt n -> vec_ok b n ->
  Scalar.lu_factor a n ipvt = Some r -> value r = -1 ->
  exists x,
    Scalar.lu_solve (matrix r) n (pivots r) b = Some x /\
    forall y : list Qc,
      (forall i, 0 <= i < n ->
         sumZ 0 n (fun j => M a n i j * V y j)%Qc = V b i) ->
      forall j, 0 <= j < n -> V y j = V x j.
Proof.
  intros Ha Hp Hb Hrun Hv.
  destruct (lu_factor_success a n ipvt r Ha Hp Hrun Hv) as [_ Hdone].
  destruct (lu_solve_spec a _ n _ b Hdone Hb) as (x & Hx & _ & Hsol).
  exists x. split; [done|]. intros y Hy j Hj.
  destruct (decide (V y j = V x j)) as [|Hne]; [done|]. exfalso.
  apply (factored_not_null_vector a _ n _ Hdone).
  exists (fun c => V y c - V x c)%Qc. split.
  - exists j. split; [done|]. intros Hz. apply Hne.
    replace (V y j) with ((V y j - V x j) + V x j)%Qc by ring.
    rewrite Hz. ring.
  - intros i Hi.
    rewrite (sumZ_ext 0 n _
      (fun c => M a n i c * V y c + (-(1)) * (M a n i c * V x c))%Qc)
      by (intros; ring).
    rewrite sumZ_plus, sumZ_scale, Hy, Hsol by done. ring.
Qed.

(** One pass of the column loop, entry by entry. *)
Lemma lu_column_entries (a : list Qc) n ipvt j a' ipvt' :
  mat_ok a n -> 0 <= j < n ->
  Scalar.lu_column a n ipvt j = Some (Next a' ipvt') ->
  exists a1 lr,
    mat_ok a' n /\ j <= lr < n /\ M a1 n lr j <> 0%Qc /\
    (forall i c, 0 <= c < n -> c <> j -> M a1 n i c = M a n i c) /\
    (forall i, j <= i < n ->
       (Qcabs (M a1 n i j) <= Qcabs (M a1 n lr j))%Qc) /\
    (forall i c, 0 <= c < n -> c <> j \/ i <= j ->
       M a' n i c = M a1 n (swapped j lr i) c) /\
    (forall i, j < i < n ->
       M a' n i j = (M a1 n (swapped j lr i) j * (1 / M a1 n lr j))%Qc).
Proof.
  intros Ha Hj Hrun. unfold Scalar.lu_column in Hrun.
  destruct (upper_part_spec a n j Ha Hj) as (au & Hup & Hau & _ & Hkeep1 & _).
  rewrite Hup in Hrun. simpl in Hrun.
  destruct (lower_part_spec au n j Hau Hj)
    as (a1 & lg & lr & Hlow & Ha1 & _ & Hkeep2 & _ & Hfound).
  rewrite Hlow in Hrun. simpl in Hrun.
  destruct Hfound as [_ Hfound].
  destruct Hfound as (Hlr & Hlg & Hmax & _); [lia|].
  assert (exists a2, mat_ok a2 n /\
    (forall i c, 0 <= c < n -> M a2 n i c = M a1 n (swapped j lr i) c) /\
    Scalar.finish_column a2 n ipvt j lr = Some (Next a' ipvt'))
    as (a2 & Ha2 & Hsw & Hfin).
  { unfold Scalar.pivot_column in Hrun.
    destruct (decide (j ≠ lr)) as [Hne|Heq].
    - rewrite decide_False in Hrun by lia.
      destruct (swap_rows_spec a1 n lr j) as (a2 & Hr & Ha2 & _ & Hsw);
        [done | lia | lia | lia |].
      rewrite Hr in Hrun. simpl in Hrun. exists a2. split; [done|].
      split; [|done]. intros i c Hc. rewrite Hsw by done.
      by rewrite swapped_sym.
    - assert (lr = j) as -> by lia. exists a1. split; [done|].
      split; [|done]. intros i c _. by rewrite swapped_same. }
  assert (M a2 n j j = M a1 n lr j) as Hd.
  { rewrite Hsw by lia. unfold swapped. by rewrite decide_True. }
  unfold Scalar.finish_column in Hfin.
  destruct (store ipvt j lr) as [ipvt1|]; [|discriminate]. simpl in Hfin.
  rewrite M_load in Hfin by (done || lia). simpl in Hfin. rewrite Hd in Hfin.
  case_bool_decide as Hz; [discriminate|].
  exists a1, lr. split.
  { destruct (decide (j ≠ n - 1)).
    - rewrite decide_False in Hfin by done. simpl in Hfin.
      destruct (scale_column_spec a2 n j (1 / M a1 n lr j)%Qc)
        as (a3 & Hsc & Ha3 & _); [done | lia |].
      rewrite Hsc in Hfin. simpl in Hfin. by injection Hfin as <- _.
    - by injection Hfin as <- _. }
  split; [done|]. split; [done|]. split.
  { intros i c Hc Hne. rewrite Hkeep2, Hkeep1 by (done || by left). done. }
  split.
  { intros i Hi. rewrite <- Hlg. by apply Hmax. }
  destruct (decide (j ≠ n - 1)).
  - rewrite decide_False in Hfin by done. simpl in Hfin.
    destruct (scale_column_spec a2 n j (1 / M a1 n lr j)%Qc)
      as (a3 & Hsc & _ & _ & Hkeep3 & Hscaled); [done | lia |].
    rewrite Hsc in Hfin. simpl in Hfin. injection Hfin as <- _. split.
    + intros i c Hc Hic. rewrite Hkeep3 by done. by apply Hsw.
    + intros i Hi. rewrite Hscaled by done. by rewrite Hsw by lia.
  - injection Hfin as <- _. split; [|intros; lia].
    intros i c Hc _. by apply Hsw.
Qed.

Lemma multiplier_bounded (q p : Qc) :
  p <> 0%Qc -> (Qcabs q <= Qcabs p)%Qc -> (Qcabs (q * (1 / p)) <= 1)%Qc.
Proof.
  intros Hp Hle. rewrite Qcabs_Qcmult.
  assert ((Qcabs p * Qcabs (1 / p))%Qc = 1%Qc) as Hone.
  { rewrite <- Qcabs_Qcmult.
    replace (p * (1 / p))%Qc with 1%Qc by (by field).
    apply Qcabs_pos. by compute. }
  eapply Qcle_trans;
    [apply Qcmult_le_compat_r; [exact Hle | apply Qcabs_nonneg]|].
  rewrite Hone. apply Qcle_refl.
Qed.

Lemma lu_columns_bounded (a : list Qc) n ipvt j cnt a' ipvt' :
  mat_ok a n -> 0 <= j -> j + Z.of_nat cnt <= n ->
  (forall i c, 0 <= c < j -> c < i < n -> (Qcabs (M a n i c) <= 1)%Qc) ->
  Scalar.lu_columns a n ipvt j cnt = Some (Next a' ipvt') ->
  forall i c, 0 <= c < j + Z.of_nat cnt -> c < i < n ->
    (Qcabs (M a' n i c) <= 1)%Qc.
Proof.
  revert a ipvt j. induction cnt as [|k IH]; intros a ipvt j Ha Hj Hn Hb Hrun.
  - injection Hrun as <- _. intros i c Hc. apply Hb. lia.
  - simpl in Hrun.
    destruct (Scalar.lu_column a n ipvt j) as [[r1|a1 ipvt1]|] eqn:Hcol;
      [discriminate | | discriminate]. simpl in Hrun.
    destruct (lu_column_entries a n ipvt j a1 ipvt1 Ha ltac:(lia) Hcol)
      as (s & lr & Ha1 & Hlr & Hnz & Hkeep & Hmax & Hsw & Hsc).
    replace (j + Z.of_nat (S k)) with (j + 1 + Z.of_nat k) by lia.
    apply (IH a1 ipvt1 (j + 1)); [done | lia | lia | | done].
    intros i c Hc Hi. destruct (decide (c = j)) as [->|Hne].
    + rewrite Hsc by lia. apply multiplier_bounded; [done|].
      apply Hmax. apply swapped_above; lia.
    + rewrite Hsw, Hkeep by (lia || by left). apply Hb; [lia|].
      pose proof (swapped_above j lr i n). unfold swapped in *.
      repeat case_decide; lia.
Qed.

(** Partial pivoting at work: when [lu_factor] returns [-1], no
    multiplier - no entry of [L] below the diagonal - is larger than 1
    in absolute value. *)
Theorem multipliers_at_most_one (a : list Qc) n ipvt r :
  mat_ok a n -> vec_ok ipvt n ->
  Scalar.lu_factor a n ipvt = Some r -> value r = -1 ->
  forall i c, 0 <= c < i -> i < n ->
    (Qcabs (M (matrix r) n i c) <= 1)%Qc.
Proof.
  intros Ha Hp Hrun Hv i c Hc Hi. pose proof Ha as [Hn _].
  destruct (lu_factor_spec a n ipvt Ha Hp) as (r' & Hrun' & Hspec).
  assert (r' = r) as -> by congruence.
  unfold Scalar.lu_factor in Hrun.
  destruct (Scalar.zero_row_check a n 0 (Z.to_nat n)) as [[z|]|];
    simpl in Hrun; [| | discriminate].
  { injection Hrun as <-. simpl in *. destruct Hspec as ((? & _) & _). lia. }
  destruct (Scalar.lu_columns a n ipvt 0 (Z.to_nat n)) as [[r'|a' ipvt']|]
    eqn:Hcols; simpl in Hrun; [| |discriminate].
  { injection Hrun as ->. destruct (exit r); try done.
    - destruct Hspec as ((? & _) & _). lia.
    - destruct Hspec as (_ & ? & _). lia.
    - destruct Hspec as (_ & _ & _ & Hpiv & _).
      pose proof (lu_columns_pivots _ _ _ _ _ _ Hcols) as (Hstop & _).
      simpl in Hstop. lia. }
  injection Hrun as <-. simpl.
  apply (lu_columns_bounded a n ipvt 0 (Z.to_nat n) a' ipvt');
    [done | lia | lia | intros; lia | done | lia | lia].
Qed.

(** ** A failure of [lu_factor] exhibits a singular matrix *)

(** A triangular system with nonzero diagonal has a solution. *)
Lemma upper_solvable (a : list Qc) n j (u : Z -> Qc) :
  0 <= j ->
  (forall c, 0 <= c < j -> M a n c c <> 0%Qc) ->
  exists w : Z -> Qc,
    forall k, 0 <= k < j -> sumZ k j (fun c => M a n k c * w c)%Qc = u k.
Proof.
  intros Hj Hd.
  assert (forall m : nat, Z.of_nat m <= j ->
    exists w : Z -> Qc, forall k, j - Z.of_nat m <= k < j ->
      sumZ k j (fun c => M a n k c * w c)%Qc = u k) as Hind.
  { induction m as [|m IH]; intros Hm.
    - exists (fun _ => 0%Qc). intros; lia.
    - destruct IH as [w Hw]; [lia|].
      set (k0 := j - Z.of_nat (S m)).
      set (v0 := ((u k0 - sumZ (k0 + 1) j (fun c => M a n k0 c * w c))
                  / M a n k0 k0)%Qc).
      exists (fun c => if decide (c = k0) then v0 else w c).
      intros k Hk. destruct (decide (k = k0)) as [->|Hne].
      + rewrite sumZ_cons by lia. rewrite decide_True by done.
        rewrite (sumZ_ext (k0 + 1) j _ (fun c => (M a n k0 c * w c)%Qc)).
        * unfold v0. field. apply Hd. lia.
        * intros c Hc. by rewrite decide_False by lia.
      + rewrite <- (Hw k) by lia. apply sumZ_ext.
        intros c Hc. by rewrite decide_False by lia. }
  destruct (Hind (Z.to_nat j)) as [w Hw]; [lia|].
  exists w. intros k Hk. apply Hw. lia.
Qed.

(** Column [c] of [A] is [L] times column [c] of [U]. *)
Lemma product_column A (a : list Qc) n c :
  0 <= c < n ->
  (forall i, 0 <= i <= c -> upper_eq A a n i c) ->
  (forall i, c < i < n -> lower_eq A a n i c) ->
  forall i, 0 <= i < n ->
    A i c = sumZ 0 n (fun k => Lf a n i k * Uf a n k c)%Qc.
Proof.
  intros Hc HU HL i Hi. rewrite sum_Lf by done.
  destruct (Z.le_gt_cases i c) as [Hle|Hgt].
  - rewrite <- (HU i) by lia. unfold upper_eq, Uf at 1.
    rewrite decide_True by lia. f_equal.
    apply sumZ_ext. intros k Hk. unfold Uf. by rewrite decide_True by lia.
  - rewrite <- (HL i) by lia. unfold lower_eq, Uf at 1.
    rewrite decide_False by lia.
    rewrite (sumZ_split 0 c i) by lia. rewrite (sumZ_cons c i) by lia.
    rewrite (sumZ_zero (c + 1) i).
    + rewrite (sumZ_ext 0 c (fun k => (M a n i k * Uf a n k c)%Qc)
                            (fun k => (M a n i k * M a n k c)%Qc)).
      * unfold Uf. rewrite decide_True by lia. ring.
      * intros k Hk. unfold Uf. by rewrite decide_True by lia.
    + intros k Hk. unfold Uf. rewrite decide_False by lia. ring.
Qed.

(** When every candidate of column [j] has reduced to zero, column [j] of
    [A] is a combination of the columns before it. *)
Lemma reduced_zero_column A (a : list Qc) n j :
  reduced A a n j -> 0 <= j < n ->
  (forall i, j <= i < n -> M a n i j = 0%Qc) ->
  exists x : Z -> Qc,
    x j <> 0%Qc /\
    forall i, 0 <= i < n -> sumZ 0 n (fun c => A i c * x c)%Qc = 0%Qc.
Proof.
  intros (Ha & HU & HL & HUj & HRj & _ & Hd) Hj Hzero.
  destruct (upper_solvable a n j (fun k => M a n k j)) as [w Hw];
    [lia | done |].
  set (xh := fun c => if decide (c < j) then w c else 0%Qc).
  set (uh := fun k => if decide (k < j) then M a n k j else 0%Qc).
  assert (forall k, 0 <= k < n ->
    sumZ 0 n (fun c => Uf a n k c * xh c)%Qc = uh k) as HUx.
  { intros k Hk. rewrite sum_Uf by lia. unfold uh.
    destruct (decide (k < j)) as [Hlt|Hge].
    - rewrite (sumZ_split k j n) by lia.
      rewrite (sumZ_zero j n).
      + rewrite (sumZ_ext k j _ (fun c => (M a n k c * w c)%Qc)).
        * rewrite Hw by lia. ring.
        * intros c Hc. unfold xh. by rewrite decide_True by lia.
      + intros c Hc. unfold xh. rewrite decide_False by lia. ring.
    - apply sumZ_zero. intros c Hc. unfold xh.
      rewrite decide_False by lia. ring. }
  assert (forall i, 0 <= i < n ->
    sumZ 0 n (fun k => Lf a n i k * uh k)%Qc = A i j) as HLu.
  { intros i Hi. rewrite sum_Lf by done. unfold uh at 1.
    destruct (decide (i < j)) as [Hlt|Hge].
    - rewrite <- (HUj i) by lia. unfold upper_eq. f_equal.
      apply sumZ_ext. intros k Hk. unfold uh. by rewrite decide_True by lia.
    - rewrite <- (HRj i) by lia. unfold reduced_eq.
      rewrite Hzero by lia. f_equal.
      rewrite (sumZ_split 0 j i) by lia.
      rewrite (sumZ_zero j i).
      + rewrite (sumZ_ext 0 j _ (fun k => (M a n i k * M a n k j)%Qc));
          [ring|].
        intros k Hk. unfold uh. by rewrite decide_True by lia.
      + intros k Hk. unfold uh. rewrite decide_False by lia. ring. }
  assert (forall i, 0 <= i < n ->
    sumZ 0 n (fun c => A i c * xh c)%Qc = A i j) as HAx.
  { intros i Hi.
    rewrite (sumZ_ext 0 n _
      (fun c => sumZ 0 n (fun k => Lf a n i k * (Uf a n k c * xh c))))%Qc.
    - rewrite sumZ_exchange.
      rewrite (sumZ_ext 0 n _ (fun k => (Lf a n i k * uh k)%Qc)).
      + by apply HLu.
      + intros k Hk. simpl. rewrite sumZ_scale. f_equal. by apply HUx.
    - intros c Hc. simpl. unfold xh at 1.
      destruct (decide (c < j)) as [Hlt|Hge].
      + rewrite (product_column A a n c) by
          (done || (intros; apply HU; lia) || (intros; apply HL; lia)).
        rewrite Qcmult_comm, <- sumZ_scale. apply sumZ_ext.
        intros k _. unfold xh. rewrite decide_True by lia. ring.
      + rewrite sumZ_zero; [ring|]. intros k Hk. unfold xh.
        rewrite decide_False by lia. ring. }
  exists (fun c => xh c + (-(1)) * (if decide (c = j) then 1 else 0))%Qc.
  split.
  - unfold xh. rewrite decide_False, decide_True by lia. done.
  - intros i Hi.
    rewrite (sumZ_ext 0 n _
      (fun c => A i c * xh c
                + (-(1)) * (A i c * (if decide (c = j) then 1 else 0)))%Qc)
      by (intros; ring).
    rewrite sumZ_plus, sumZ_scale, HAx by done.
    rewrite (sumZ_single 0 n _ j) by
      (lia || (intros; rewrite decide_False by done; ring)).
    rewrite decide_True by done. ring.
Qed.

(** The state in which the column loop returns. *)
Lemma lu_columns_reach (a0 a : list Qc) n ipvt j cnt r :
  columns_done a0 n j a ipvt -> 0 <= j -> j + Z.of_nat cnt <= n ->
  Scalar.lu_columns a n ipvt j cnt = Some (Return r) ->
  exists aj ipvtj,
    j <= value r < n /\
    columns_done a0 n (value r) aj ipvtj /\
    Scalar.lu_column aj n ipvtj (value r) = Some (Return r).
Proof.
  revert a ipvt j. induction cnt as [|c IH]; intros a ipvt j Hdone Hj Hn Hrun.
  - discriminate.
  - simpl in Hrun.
    destruct (lu_column_spec a0 a n ipvt j Hdone) as (o & Hcol & Ho); [lia|].
    rewrite Hcol in Hrun. simpl in Hrun. destruct o as [r1|a1 ipvt1].
    + injection Hrun as ->. destruct Ho as (_ & Hv & _).
      exists a, ipvt. rewrite Hv. split; [lia | done].
    + destruct (IH a1 ipvt1 (j + 1) Ho) as (aj & ipvtj & Hv & Hrest);
        [lia | lia | done |].
      exists aj, ipvtj. split; [lia | done].
Qed.

Lemma failed_column_singular (a0 a : list Qc) n ipvt j r :
  columns_done a0 n j a ipvt -> 0 <= j < n ->
  Scalar.lu_column a n ipvt j = Some (Return r) ->
  null_vector a0 n.
Proof.
  intros Hdone Hj Hrun. pose proof Hdone as (Hp & Hlen & Hpiv & Hfac).
  destruct (reduce_column_spec _ a n j Hfac Hj)
    as (au & a1 & lg & lr & Hup & Hlow & Hlen1 & Hred & Hfound).
  destruct Hfound as [_ Hfound].
  destruct Hfound as (Hlr & Hlg & Hmax & _); [lia|].
  pose proof Hred as [Ha1 _].
  destruct (pivot_column_spec a1 n ipvt j lr Ha1 Hj Hlr Hp)
    as (a2 & ipvt' & _ & _ & _ & _ & Hpc).
  unfold Scalar.lu_column in Hrun. rewrite Hup in Hrun. simpl in Hrun.
  rewrite Hlow in Hrun. simpl in Hrun.
  destruct (decide (M a1 n lr j = 0%Qc)) as [Hz|Hnz].
  2: { destruct Hpc as (a' & Hpc & _). congruence. }
  destruct (reduced_zero_column _ a1 n j Hred Hj) as (x & Hxj & Hnull).
  { intros i Hi. apply Qcabs_le_0. rewrite Hz in Hlg. rewrite Hlg in Hmax.
    by apply Hmax. }
  exists x. split; [by exists j|].
  intros i Hi.
  destruct (origin_onto (pivot_at ipvt) (Z.to_nat j) n i)
    as (i' & Hi' & <-); [| lia | done |].
  { intros c Hc. specialize (Hpiv c). lia. }
  by apply Hnull.
Qed.

(** [lu_factor] returns [-1] on the nonsingular matrices and on no
    other: a zero row, or a column in which every candidate has reduced
    to zero, is a linear dependence of the matrix it was given. *)
Theorem lu_factor_succeeds_iff_nonsingular (a : list Qc) n ipvt :
  mat_ok a n -> vec_ok ipvt n ->
  exists r, Scalar.lu_factor a n ipvt = Some r /\
    (value r = -1 <-> ~ singular a n).
Proof.
  intros Ha Hp. pose proof Ha as [Hn _].
  destruct (lu_factor_spec a n ipvt Ha Hp) as (r & Hrun & Hspec).
  exists r. split; [done|]. split.
  { intros Hv. by apply (success_not_singular a n ipvt r). }
  intros Hns. destruct (decide (value r = -1)) as [|Hv]; [done|].
  exfalso. apply Hns.
  destruct (exit r) eqn:Hexit; [| done | | tauto].
  - destruct Hspec as ((Hr & Hz & _) & _). left.
    exists (fun i => if decide (i = value r) then 1 else 0)%Qc. split.
    + exists (value r). split; [lia|]. by rewrite decide_True.
    + intros c Hc. rewrite (sumZ_single 0 n _ (value r)).
      * rewrite decide_True by done. destruct (Hz c Hc) as (x & Hx & Hx0).
        unfold M. rewrite Hx. simpl in *. apply bool_decide_eq_true in Hx0.
        rewrite Hx0. ring.
      * lia.
      * intros k Hk Hne. rewrite decide_False by done. ring.
  - right. unfold Scalar.lu_factor in Hrun.
    destruct (Scalar.zero_row_check a n 0 (Z.to_nat n)) as [[z|]|];
      simpl in Hrun; [| | discriminate].
    { injection Hrun as Hr. rewrite <- Hr in Hexit. discriminate. }
    destruct (Scalar.lu_columns a n ipvt 0 (Z.to_nat n)) as [[r'|a' ipvt']|]
      eqn:Hcols; simpl in Hrun; [| |discriminate].
    2: { injection Hrun as Hr. rewrite <- Hr in Hexit. discriminate. }
    injection Hrun as ->.
    destruct (lu_columns_reach a a n ipvt 0 (Z.to_nat n) r)
      as (aj & ipvtj & Hvr & Hdone & Hcol); [ | lia | lia | done |].
    { split; [done|]. split; [done|]. split; [intros; lia|].
      split; [done|]. split; [intros; lia|]. split; [intros; lia|].
      split; [done | intros; lia]. }
    by apply (failed_column_singular a aj n ipvtj (value r) r).
Qed.

(** * What the two routines leave alone *)

Section Footprint.
Context {F : Type} `{Arith F}.
Implicit Types (a : list F) (ipvt : list Z) (n i j : Z).

Lemma beyond_matrix n i j z :
  0 <= i < n -> 0 <= j < n -> n * n <= z -> z <> i * n + j.
Proof. intros Hi Hj Hz. pose proof (index_in_range n i j Hi Hj). lia. Qed.

Lemma pivot_column_footprint a n ipvt j largestRow o :
  0 <= j < n -> largestRow = -1 \/ j <= largestRow < n ->
  Scalar.pivot_column a n ipvt j largestRow = Some o ->
  (forall z, n * n <= z -> load (flow_matrix o) z = load a z) /\
  (forall k, n <= k -> load (flow_pivots o) k = load ipvt k).
Proof.
  intros Hj Hlr Hrun.
  assert (forall a2,
    (forall z, n * n <= z -> load a2 z = load a z) ->
    Scalar.finish_column a2 n ipvt j largestRow = Some o ->
    (forall z, n * n <= z -> load (flow_matrix o) z = load a z) /\
    (forall k, n <= k -> load (flow_pivots o) k = load ipvt k)) as Hfin.
  { intros a2 Hfr Hf.
    pose proof (finish_column_pivots _ _ _ _ _ _ Hf) as [Hst _]. split.
    - unfold Scalar.finish_column in Hf.
      destruct (store ipvt j largestRow); [|discriminate]. simpl in Hf.
      destruct (load a2 (j * n + j)) as [d|]; [|discriminate]. simpl in Hf.
      destruct (feqb d f0); [by injection Hf as <-|].
      destruct (decide (j ≠ n - 1)); [|by injection Hf as <-].
      destruct (fdiv f1 d) as [mult|]; [|discriminate]. simpl in Hf.
      destruct (Scalar.scale_column a2 n j mult) as [a3|] eqn:Hsc;
        [|discriminate].
      injection Hf as <-. simpl. intros z Hz.
      destruct (scale_column_frame a2 n j mult a3) as [_ Hfr3];
        [lia | done |].
      rewrite Hfr3; [by apply Hfr|].
      intros i Hi. apply beyond_matrix; lia.
    - intros k Hk. eapply load_store_ne; [done | lia]. }
  unfold Scalar.pivot_column in Hrun.
  destruct (decide (j ≠ largestRow)); [|by apply (Hfin a)].
  destruct (decide (largestRow = -1)); [by injection Hrun as <-|].
  destruct (Scalar.swap_rows a n largestRow j) as [a2|] eqn:Hsw;
    [|discriminate]. simpl in Hrun.
  destruct (swap_rows_frame a n largestRow j a2) as [_ Hfr2]; [lia | done |].
  apply (Hfin a2); [|done]. intros z Hz. apply Hfr2.
  intros k Hk. split; apply beyond_matrix; lia.
Qed.

Lemma lu_column_footprint a n ipvt j o :
  0 <= j < n ->
  Scalar.lu_column a n ipvt j = Some o \/ Simd.lu_column a n ipvt j = Some o ->
  (forall z, n * n <= z -> load (flow_matrix o) z = load a z) /\
  (forall k, n <= k -> load (flow_pivots o) k = load ipvt k).
Proof.
  intros Hj Hrun.
  assert (exists au a1 lr,
    Scalar.upper_part a n j = Some au /\
    (forall z, n * n <= z -> load a1 z = load au z) /\
    (lr = -1 \/ j <= lr < n) /\
    Scalar.pivot_column a1 n ipvt j lr = Some o)
    as (au & a1 & lr & Hup & Hfr2 & Hlr & Hpiv).
  { destruct Hrun as [Hrun|Hrun].
    - unfold Scalar.lu_column in Hrun.
      destruct (Scalar.upper_part a n j) as [au|]; [|discriminate].
      simpl in Hrun.
      destruct (Scalar.lower_part au n j) as [[[a1 lg] lr]|] eqn:Hlow;
        [|discriminate]. simpl in Hrun.
      destruct (lower_part_frame au n j a1 lg lr) as (_ & Hlr & Hfr);
        [lia | done |].
      exists au, a1, lr. split; [done|]. split; [|done].
      intros z Hz. apply Hfr. intros i Hi. apply beyond_matrix; lia.
    - unfold Simd.lu_column in Hrun. rewrite simd_upper_part_any in Hrun.
      destruct (Scalar.upper_part a n j) as [au|]; [|discriminate].
      simpl in Hrun.
      destruct (Simd.lower_part au n j) as [[[a1 lg] lr]|] eqn:Hlow;
        [|discriminate]. simpl in Hrun.
      rewrite simd_pivot_column_any in Hrun.
      destruct (simd_lower_part_frame au n j a1 lg lr) as (_ & Hlr & Hfr);
        [lia | done |].
      exists au, a1, lr. split; [done|]. split; [|done].
      intros z Hz. apply Hfr. intros i Hi. apply beyond_matrix; lia. }
  destruct (upper_part_frame a n j au) as [_ Hfr1]; [lia | done |].
  destruct (pivot_column_footprint a1 n ipvt j lr o Hj Hlr Hpiv) as [Hm Hp].
  split; [|done]. intros z Hz. rewrite Hm, Hfr2 by done. apply Hfr1.
  intros i Hi. apply beyond_matrix; lia.
Qed.

Lemma lu_columns_footprint
    (column : list F -> Z -> list Z -> Z -> option (flow F))
    (columns : list F -> Z -> list Z -> Z -> nat -> option (flow F)) n :
  (forall a ipvt j cnt,
     columns a n ipvt j (S cnt)
     = o ← column a n ipvt j;
       match o with
       | Return r => Some (Return r)
       | Next a ipvt => columns a n ipvt (j + 1) cnt
       end) ->
  (forall a ipvt j, columns a n ipvt j O = Some (Next a ipvt)) ->
  (forall a ipvt j o, 0 <= j < n -> column a n ipvt j = Some o ->
     (forall z, n * n <= z -> load (flow_matrix o) z = load a z) /\
     (forall k, n <= k -> load (flow_pivots o) k = load ipvt k)) ->
  forall cnt a ipvt j o,
    0 <= j -> j + Z.of_nat cnt <= Z.max 0 n ->
    columns a n ipvt j cnt = Some o ->
    (forall z, n * n <= z -> load (flow_matrix o) z = load a z) /\
    (forall k, n <= k -> load (flow_pivots o) k = load ipvt k).
Proof.
  intros Hstep Hend Hcol.
  induction cnt as [|c IH]; intros a ipvt j o Hj Hn Hrun.
  - rewrite Hend in Hrun. by injection Hrun as <-.
  - rewrite Hstep in Hrun.
    destruct (column a n ipvt j) as [[r1|a1 ipvt1]|] eqn:Hc;
      [| |discriminate]; simpl in Hrun.
    + injection Hrun as <-. apply (Hcol a ipvt j); [lia | done].
    + destruct (Hcol a ipvt j (Next a1 ipvt1)) as [Hm1 Hp1]; [lia | done |].
      destruct (IH a1 ipvt1 (j + 1) o) as [Hm Hp]; [lia | lia | done |].
      split.
      * intros z Hz. rewrite Hm by done. by apply Hm1.
      * intros k Hk. rewrite Hp by done. by apply Hp1.
Qed.

(** Either build of [lu_factor] writes only [a[0 .. n * n)] and
    [ipvt[0 .. n)]: whatever lies beyond in the two buffers is as it
    was, on every return. *)
Theorem lu_factor_writes_inside a n ipvt r :
  Scalar.lu_factor a n ipvt = Some r \/ Simd.lu_factor a n ipvt = Some r ->
  (forall z, n * n <= z -> load (matrix r) z = load a z) /\
  (forall k, n <= k -> load (pivots r) k = load ipvt k).
Proof.
  intros Hrun.
  assert (exists columns : list F -> Z -> list Z -> Z -> nat -> option (flow F),
    (r = Result Success (-1) a ipvt \/
     (exists i, r = Result ZeroRow i a ipvt) \/
     exists o, columns a n ipvt 0 (Z.to_nat n) = Some o /\
       matrix r = flow_matrix o /\ pivots r = flow_pivots o) /\
    forall cnt a ipvt j o,
      0 <= j -> j + Z.of_nat cnt <= Z.max 0 n ->
      columns a n ipvt j cnt = Some o ->
      (forall z, n * n <= z -> load (flow_matrix o) z = load a z) /\
      (forall k, n <= k -> load (flow_pivots o) k = load ipvt k))
    as (columns & Hcase & Hfoot).
  { destruct Hrun as [Hrun|Hrun].
    - exists Scalar.lu_columns. split.
      + unfold Scalar.lu_factor in Hrun.
        destruct (Scalar.zero_row_check a n 0 (Z.to_nat n)) as [[i|]|];
          simpl in Hrun; [| | discriminate].
        { injection Hrun as <-. right. left. by exists i. }
        destruct (Scalar.lu_columns a n ipvt 0 (Z.to_nat n)) as [o|];
          [|discriminate]. simpl in Hrun. right. right. exists o.
        split; [done|]. by destruct o; injection Hrun as <-.
      + apply (lu_columns_footprint Scalar.lu_column); [done | done |].
        intros a0 ipvt0 j0 o0 Hj0 Hc. apply (lu_column_footprint a0 n ipvt0 j0);
          [done | by left].
    - exists Simd.lu_columns. split.
      + unfold Simd.lu_factor in Hrun.
        destruct (Scalar.zero_row_check a n 0 (Z.to_nat n)) as [[i|]|];
          simpl in Hrun; [| | discriminate].
        { injection Hrun as <-. right. left. by exists i. }
        destruct (Simd.lu_columns a n ipvt 0 (Z.to_nat n)) as [o|];
          [|discriminate]. simpl in Hrun. right. right. exists o.
        split; [done|]. by destruct o; injection Hrun as <-.
      + apply (lu_columns_footprint Simd.lu_column); [done | done |].
        intros a0 ipvt0 j0 o0 Hj0 Hc. apply (lu_column_footprint a0 n ipvt0 j0);
          [done | by right]. }
  destruct Hcase as [->|[[i ->]|(o & Hcols & -> & ->)]]; [done | done |].
  apply (Hfoot (Z.to_nat n) a ipvt 0 o); [lia | lia | done].
Qed.

End Footprint.

Section SolveContract.
Context {F : Type} `{Arith F}.
Implicit Types (a b : list F) (ipvt : list Z) (n i j : Z).

Lemma for_down_preserves {T} (P : T -> Prop) (body : Z -> T -> option T)
    i cnt s s' :
  for_down_ i cnt body s = Some s' ->
  P s ->
  (forall k s s', i - Z.of_nat cnt < k <= i -> P s ->
     body k s = Some s' -> P s') ->
  P s'.
Proof.
  revert i s. induction cnt as [|c IH]; intros i s Hrun H0 Hstep;
    simpl in Hrun.
  - by injection Hrun as <-.
  - destruct (body i s) as [s1|] eqn:Hb; [|discriminate]. simpl in Hrun.
    apply (IH (i - 1) s1); [done | |].
    + apply (Hstep i s); [lia | done | done].
    + intros k s2 s3 Hk. apply Hstep. lia.
Qed.

Lemma exchange_footprint ipvt b n i row swap b' :
  pivots_in_range ipvt n -> 0 <= i < n ->
  Scalar.exchange ipvt b i = Some (row, swap, b') ->
  forall k, n <= k -> load b' k = load b k.
Proof.
  intros Hp Hi Hrun k Hk. unfold Scalar.exchange in Hrun.
  destruct (Hp i Hi) as (row' & Hrow & Hrange). rewrite Hrow in Hrun.
  simpl in Hrun.
  destruct (load b row') as [sw|]; [|discriminate]. simpl in Hrun.
  destruct (load b i) as [x|]; [|discriminate]. simpl in Hrun.
  destruct (store b row' x) as [b1|] eqn:Hst; [|discriminate].
  injection Hrun as _ _ <-. eapply load_store_ne; [done | lia].
Qed.

Lemma permute_scan_footprint ipvt b n i cnt tr bi i0 b1 tr1 :
  pivots_in_range ipvt n -> 0 <= i -> i + Z.of_nat cnt <= n ->
  Scalar.permute_scan ipvt b i cnt tr = Some (bi, i0, b1, tr1) ->
  forall k, n <= k -> load b1 k = load b k.
Proof.
  intros Hp. revert b i tr.
  induction cnt as [|c IH]; intros b i tr Hi Hn Hrun k Hk; simpl in Hrun.
  - by injection Hrun as _ _ <- _.
  - destruct (Scalar.exchange ipvt b i) as [[[row swap] b2]|] eqn:Hex;
      [|discriminate]. simpl in Hrun.
    destruct (store b2 i swap) as [b3|] eqn:Hst; [|discriminate].
    simpl in Hrun.
    assert (load b3 k = load b k) as Hb3.
    { rewrite (load_store_ne _ _ _ _ k Hst) by lia.
      apply (exchange_footprint ipvt b n i row swap b2); [done | lia | done | done]. }
    destruct (negb (feqb swap f0)).
    + by injection Hrun as _ _ <- _.
    + rewrite <- Hb3. apply (IH b3 (i + 1) _ ltac:(lia) ltac:(lia) Hrun k Hk).
Qed.

(** The forward substitution of either build, [sub] being its sum. *)
Lemma forward_footprint (sub : list F -> Z -> F -> option F)
    ipvt n i0 b tr b' tr' :
  pivots_in_range ipvt n -> 0 <= i0 ->
  for_range i0 n (fun i '(b, tr) =>
    '(row, tot, b) ← Scalar.exchange ipvt b i;
    tot ← sub b i tot;
    b ← store b i tot;
    Some (b, tr ++ [(i, row)])) (b, tr) = Some (b', tr') ->
  forall k, n <= k -> load b' k = load b k.
Proof.
  intros Hp Hi0 Hrun k Hk.
  destruct (Z.le_gt_cases i0 n) as [Hle|Hgt].
  2: { rewrite for_range_empty in Hrun by lia. by injection Hrun as <- _. }
  apply (for_range_returned
    (fun _ '(s, _) => load s k = load b k) _ _ _ _ _ Hrun); [done | done |].
  intros i [s tr1] [s' tr1'] Hi Hs Hbody.
  destruct (Scalar.exchange ipvt s i) as [[[row tot] s1]|] eqn:Hex;
    [|discriminate]. simpl in Hbody.
  destruct (sub s1 i tot) as [t|]; [|discriminate]. simpl in Hbody.
  destruct (store s1 i t) as [s2|] eqn:Hst; [|discriminate].
  injection Hbody as <- _. rewrite <- Hs.
  rewrite (load_store_ne _ _ _ _ k Hst) by lia.
  apply (exchange_footprint ipvt s n i row tot s1); [done | lia | done | done].
Qed.

(** The back substitution of either build, [sub] being its sum. *)
Lemma backward_footprint (sub : list F -> Z -> F -> option F) a n b b' :
  for_down n (fun i b =>
    tot ← load b i;
    tot ← sub b i tot;
    d ← load a (i * n + i);
    x ← fdiv tot d;
    store b i x) b = Some b' ->
  forall k, n <= k -> load b' k = load b k.
Proof.
  intros Hrun k Hk. unfold for_down in Hrun.
  apply (for_down_preserves (fun s => load s k = load b k) _ _ _ _ _ Hrun);
    [done|].
  intros i s s' Hi Hs Hbody.
  destruct (load s i) as [tot|]; [|discriminate]. simpl in Hbody.
  destruct (sub s i tot) as [t|]; [|discriminate]. simpl in Hbody.
  destruct (load a (i * n + i)) as [d|]; [|discriminate]. simpl in Hbody.
  destruct (fdiv t d) as [x|]; [|discriminate]. simpl in Hbody.
  rewrite <- Hs. eapply load_store_ne; [done | lia].
Qed.

Lemma lu_solve_footprint a n ipvt b x :
  pivots_in_range ipvt n ->
  Scalar.lu_solve a n ipvt b = Some x \/ Simd.lu_solve a n ipvt b = Some x ->
  forall k, n <= k -> load x k = load b k.
Proof.
  intros Hp Hrun k Hk.
  assert (exists bi i0 b1 tr b2,
    Scalar.permute_scan ipvt b 0 (Z.to_nat n) [] = Some (bi, i0, b1, tr) /\
    load b2 k = load b1 k /\ load x k = load b2 k)
    as (bi & i0 & b1 & tr & b2 & Hscan & H2 & H3).
  { destruct Hrun as [Hrun|Hrun].
    - unfold Scalar.lu_solve, Scalar.lu_forward in Hrun.
      destruct (Scalar.permute_scan ipvt b 0 (Z.to_nat n) [])
        as [[[[bi i0] b1] tr]|] eqn:Hscan; [|discriminate]. simpl in Hrun.
      destruct (Scalar.forward a n ipvt bi i0 b1 tr) as [[b2 tr2]|] eqn:Hfw;
        [|discriminate]. simpl in Hrun.
      exists bi, i0, b1, tr, b2. split; [done|].
      apply permute_scan_start in Hscan as Hst; [|done]. split.
      + apply (forward_footprint
                 (fun b i tot => Scalar.subtract_dot a n b i bi i tot)
                 ipvt n i0 b1 tr b2 tr2); [done | lia | done | done].
      + apply (backward_footprint
                 (fun b i tot => Scalar.subtract_dot a n b i (i + 1) n tot)
                 a n b2 x); done.
    - unfold Simd.lu_solve, Simd.lu_forward in Hrun.
      destruct (Scalar.permute_scan ipvt b 0 (Z.to_nat n) [])
        as [[[[bi i0] b1] tr]|] eqn:Hscan; [|discriminate]. simpl in Hrun.
      destruct (Simd.forward a n ipvt bi i0 b1 tr) as [[b2 tr2]|] eqn:Hfw;
        [|discriminate]. simpl in Hrun.
      exists bi, i0, b1, tr, b2. split; [done|].
      apply permute_scan_start in Hscan as Hst; [|done]. split.
      + apply (forward_footprint
                 (fun b i tot => Simd.subtract_dot a n b i bi i tot)
                 ipvt n i0 b1 tr b2 tr2); [done | lia | done | done].
      + apply (backward_footprint
                 (fun b i tot => Simd.subtract_dot a n b i (i + 1) n tot)
                 a n b2 x); done. }
  rewrite H3, H2.
  destruct (Z.le_gt_cases 0 n).
  - apply (permute_scan_footprint ipvt b n 0 (Z.to_nat n) [] bi i0 b1 tr);
      [done | lia | lia | done | done].
  - replace (Z.to_nat n) with O in Hscan by lia. simpl in Hscan.
    by injection Hscan as _ _ <- _.
Qed.

(** The contract of [lu_solve], in either build: given pivot entries that
    are row indices and a diagonal that tests nonzero - whether or not
    they come from [lu_factor] - it stays inside its buffers, divides by
    no zero, and writes [b[0 .. n)] only. *)
Theorem lu_solve_contract a n ipvt b :
  division_guarded F ->
  mat_ok a n -> pivots_in_range ipvt n -> vec_ok b n ->
  (forall i, 0 <= i < n ->
     exists d, load a (i * n + i) = Some d /\ feqb d f0 = false) ->
  (exists x, Scalar.lu_solve a n ipvt b = Some x /\ length x = length b /\
     forall k, n <= k -> load x k = load b k) /\
  (exists x, Simd.lu_solve a n ipvt b = Some x /\ length x = length b /\
     forall k, n <= k -> load x k = load b k).
Proof.
  intros Hdiv Ha Hp Hb Hdiag. pose proof Ha as [Hn _]. split.
  - destruct (permute_scan_spec ipvt b n 0 (Z.to_nat n))
      as (bi & i0 & b1 & Hscan & Hlen1 & Hcase); [done | done | lia | lia |].
    change (exchanges_upto ipvt 0) with (@nil (Z * Z)) in Hscan.
    destruct (forward_spec a n ipvt bi i0 b1) as (b2 & Hfw & Hlen2);
      [done | done | unfold vec_ok in *; lia | lia | lia |].
    destruct (backward_total a n b2 Hdiv Ha) as (x & Hx & Hlenx);
      [unfold vec_ok in *; lia | done |].
    assert (Scalar.lu_solve a n ipvt b = Some x) as Hrun.
    { unfold Scalar.lu_solve, Scalar.lu_forward. rewrite Hscan. simpl.
      rewrite Hfw. done. }
    exists x. split; [done|]. split; [congruence|].
    apply (lu_solve_footprint a n ipvt b x Hp). by left.
  - destruct (simd_lu_solve_returns a n ipvt b Hdiv Ha Hp Hb Hdiag)
      as (x & Hrun & Hlen).
    exists x. split; [done|]. split; [done|].
    apply (lu_solve_footprint a n ipvt b x Hp). by right.
Qed.

End SolveContract.

(** * [ipvt] is an output of [lu_factor] *)

Section PivotsOutput.
Context {F : Type} `{Arith F}.
Implicit Types (a : list F) (ipvt : list Z) (n i j : Z).

Lemma finish_column_indep a n ipvt1 ipvt2 j lr o1 :
  length ipvt1 = length ipvt2 ->
  (forall k, 0 <= k < j -> load ipvt1 k = load ipvt2 k) ->
  Scalar.finish_column a n ipvt1 j lr = Some o1 ->
  exists o2, Scalar.finish_column a n ipvt2 j lr = Some o2 /\
    same_but_pivots o1 o2 /\
    length (flow_pivots o1) = length (flow_pivots o2) /\
    (forall r, o1 = Return r -> exit r <> Success) /\
    forall k, 0 <= k < columns_reached o1 (j + 1) ->
      load (flow_pivots o1) k = load (flow_pivots o2) k.
Proof.
  intros Hlen Hagree Hrun. unfold Scalar.finish_column in *.
  destruct (store ipvt1 j lr) as [p1|] eqn:Hst1; [|discriminate].
  simpl in Hrun.
  pose proof Hst1 as [Hj _]%store_Some.
  assert (store ipvt2 j lr = Some (<[Z.to_nat j := lr]> ipvt2)) as Hst2
    by (apply store_in_range; lia).
  rewrite Hst2. simpl.
  assert (length p1 = length (<[Z.to_nat j := lr]> ipvt2)) as Hlen'.
  { rewrite (store_length _ _ _ _ Hst1), (store_length _ _ _ _ Hst2). done. }
  assert (forall k, 0 <= k < j + 1 ->
    load p1 k = load (<[Z.to_nat j := lr]> ipvt2) k) as Hagree'.
  { intros k Hk. destruct (decide (k = j)) as [->|Hne].
    - by rewrite (load_store_eq _ _ _ _ Hst1), (load_store_eq _ _ _ _ Hst2).
    - rewrite (load_store_ne _ _ _ _ k Hst1), (load_store_ne _ _ _ _ k Hst2)
        by done. apply Hagree. lia. }
  destruct (load a (j * n + j)) as [d|]; [|discriminate]. simpl in *.
  destruct (feqb d f0).
  { injection Hrun as <-. eexists. split; [done|]. simpl.
    split; [done|]. split; [done|]. split; [by intros r [= <-]|].
    intros k Hk. apply Hagree'. lia. }
  destruct (decide (j ≠ n - 1)).
  - destruct (fdiv f1 d) as [mult|]; [|discriminate]. simpl in *.
    destruct (Scalar.scale_column a n j mult) as [a1|]; [|discriminate].
    simpl in *. injection Hrun as <-. eexists. split; [done|]. simpl.
    split; [done|]. split; [done|]. split; [done | done].
  - injection Hrun as <-. eexists. split; [done|]. simpl.
    split; [done|]. split; [done|]. split; [done | done].
Qed.

Lemma pivot_column_indep a n ipvt1 ipvt2 j lr o1 :
  length ipvt1 = length ipvt2 ->
  (forall k, 0 <= k < j -> load ipvt1 k = load ipvt2 k) ->
  Scalar.pivot_column a n ipvt1 j lr = Some o1 ->
  exists o2, Scalar.pivot_column a n ipvt2 j lr = Some o2 /\
    same_but_pivots o1 o2 /\
    length (flow_pivots o1) = length (flow_pivots o2) /\
    (forall r, o1 = Return r -> exit r <> Success) /\
    forall k, 0 <= k < columns_reached o1 (j + 1) ->
      load (flow_pivots o1) k = load (flow_pivots o2) k.
Proof.
  intros Hlen Hagree Hrun. unfold Scalar.pivot_column in *.
  destruct (decide (j ≠ lr)); [|by apply (finish_column_indep a n ipvt1)].
  destruct (decide (lr = -1)).
  { injection Hrun as <-. eexists. split; [done|]. simpl.
    split; [done|]. split; [done|]. split; [by intros r [= <-]|]. done. }
  destruct (Scalar.swap_rows a n lr j) as [a1|]; [|discriminate].
  simpl in *. by apply (finish_column_indep a1 n ipvt1).
Qed.

Lemma lu_column_indep a n ipvt1 ipvt2 j o1 :
  length ipvt1 = length ipvt2 ->
  (forall k, 0 <= k < j -> load ipvt1 k = load ipvt2 k) ->
  (Scalar.lu_column a n ipvt1 j = Some o1 ->
   exists o2, Scalar.lu_column a n ipvt2 j = Some o2 /\
     same_but_pivots o1 o2 /\
     length (flow_pivots o1) = length (flow_pivots o2) /\
     (forall r, o1 = Return r -> exit r <> Success) /\
     forall k, 0 <= k < columns_reached o1 (j + 1) ->
       load (flow_pivots o1) k = load (flow_pivots o2) k) /\
  (Simd.lu_column a n ipvt1 j = Some o1 ->
   exists o2, Simd.lu_column a n ipvt2 j = Some o2 /\
     same_but_pivots o1 o2 /\
     length (flow_pivots o1) = length (flow_pivots o2) /\
     (forall r, o1 = Return r -> exit r <> Success) /\
     forall k, 0 <= k < columns_reached o1 (j + 1) ->
       load (flow_pivots o1) k = load (flow_pivots o2) k).
Proof.
  intros Hlen Hagree. split; intros Hrun.
  - unfold Scalar.lu_column in *.
    destruct (Scalar.upper_part a n j) as [au|]; [|discriminate].
    simpl in *.
    destruct (Scalar.lower_part au n j) as [[[a1 lg] lr]|]; [|discriminate].
    simpl in *. by apply (pivot_column_indep a1 n ipvt1).
  - unfold Simd.lu_column in *.
    destruct (Simd.upper_part a n j) as [au|]; [|discriminate].
    simpl in *.
    destruct (Simd.lower_part au n j) as [[[a1 lg] lr]|]; [|discriminate].
    simpl in *. rewrite simd_pivot_column_any in *.
    by apply (pivot_column_indep a1 n ipvt1).
Qed.

Lemma lu_columns_indep
    (column : list F -> Z -> list Z -> Z -> option (flow F))
    (columns : list F -> Z -> list Z -> Z -> nat -> option (flow F)) n :
  (forall a ipvt j cnt,
     columns a n ipvt j (S cnt)
     = o ← column a n ipvt j;
       match o with
       | Return r => Some (Return r)
       | Next a ipvt => columns a n ipvt (j + 1) cnt
       end) ->
  (forall a ipvt j, columns a n ipvt j O = Some (Next a ipvt)) ->
  (forall a ipvt1 ipvt2 j o1,
     length ipvt1 = length ipvt2 ->
     (forall k, 0 <= k < j -> load ipvt1 k = load ipvt2 k) ->
     column a n ipvt1 j = Some o1 ->
     exists o2, column a n ipvt2 j = Some o2 /\
       same_but_pivots o1 o2 /\
       length (flow_pivots o1) = length (flow_pivots o2) /\
       (forall r, o1 = Return r -> exit r <> Success) /\
       forall k, 0 <= k < columns_reached o1 (j + 1) ->
         load (flow_pivots o1) k = load (flow_pivots o2) k) ->
  forall cnt a ipvt1 ipvt2 j o1,
    length ipvt1 = length ipvt2 ->
    (forall k, 0 <= k < j -> load ipvt1 k = load ipvt2 k) ->
    columns a n ipvt1 j cnt = Some o1 ->
    exists o2, columns a n ipvt2 j cnt = Some o2 /\
      same_but_pivots o1 o2 /\
      (forall r, o1 = Return r -> exit r <> Success) /\
      forall k, 0 <= k < columns_reached o1 (j + Z.of_nat cnt) ->
        load (flow_pivots o1) k = load (flow_pivots o2) k.
Proof.
  intros Hstep Hend Hcol.
  induction cnt as [|c IH]; intros a ipvt1 ipvt2 j o1 Hlen Hagree Hrun.
  - rewrite Hend in Hrun. injection Hrun as <-. rewrite Hend.
    eexists. split; [done|]. split; [done|]. split; [done|]. simpl.
    intros k Hk. apply Hagree. lia.
  - rewrite Hstep in Hrun. rewrite Hstep.
    destruct (column a n ipvt1 j) as [o|] eqn:Hc; [|discriminate].
    simpl in Hrun.
    destruct (Hcol a ipvt1 ipvt2 j o Hlen Hagree Hc)
      as (o2 & -> & Hsame & Hlen' & Hfail & Hagree').
    simpl. destruct o as [r1|a1 p1], o2 as [r2|a2 p2]; simpl in Hsame;
      try done.
    + injection Hrun as <-. eexists. split; [done|]. split; [done|].
      split; [done | done].
    + subst a2. simpl in Hlen', Hagree'.
      destruct (IH a1 p1 p2 (j + 1) o1 Hlen' Hagree' Hrun)
        as (o2 & Ho2 & Hsame2 & Hfail2 & Hagree2).
      exists o2. split; [done|]. split; [done|]. split; [done|].
      intros k Hk.
      apply Hagree2.
      replace (j + 1 + Z.of_nat c) with (j + Z.of_nat (S c)) by lia. done.
Qed.

(** [lu_factor] never reads [ipvt], in either build: run on the same
    matrix with another pivot buffer of the same length, it returns from
    the same statement with the same value and the same matrix, and the
    two pivot buffers agree on every column it completed. *)
Theorem pivots_are_output_only a n ipvt1 ipvt2 :
  length ipvt1 = length ipvt2 ->
  (forall r1, Scalar.lu_factor a n ipvt1 = Some r1 ->
     exists r2, Scalar.lu_factor a n ipvt2 = Some r2 /\
       exit r2 = exit r1 /\ value r2 = value r1 /\ matrix r2 = matrix r1 /\
       forall k, column_completed r1 n k ->
         load (pivots r2) k = load (pivots r1) k) /\
  (forall r1, Simd.lu_factor a n ipvt1 = Some r1 ->
     exists r2, Simd.lu_factor a n ipvt2 = Some r2 /\
       exit r2 = exit r1 /\ value r2 = value r1 /\ matrix r2 = matrix r1 /\
       forall k, column_completed r1 n k ->
         load (pivots r2) k = load (pivots r1) k).
Proof.
  intros Hlen.
  assert (forall columns : list F -> Z -> list Z -> Z -> nat -> option (flow F),
    (forall cnt a ipvt1 ipvt2 j o1,
      length ipvt1 = length ipvt2 ->
      (forall k, 0 <= k < j -> load ipvt1 k = load ipvt2 k) ->
      columns a n ipvt1 j cnt = Some o1 ->
      exists o2, columns a n ipvt2 j cnt = Some o2 /\
        same_but_pivots o1 o2 /\
        (forall r, o1 = Return r -> exit r <> Success) /\
        forall k, 0 <= k < columns_reached o1 (j + Z.of_nat cnt) ->
          load (flow_pivots o1) k = load (flow_pivots o2) k) ->
    forall r1,
      (z ← Scalar.zero_row_check a n 0 (Z.to_nat n);
       match z with
       | Some i => Some (Result ZeroRow i a ipvt1)
       | None =>
           o ← columns a n ipvt1 0 (Z.to_nat n);
           match o with
           | Return r => Some r
           | Next a ipvt => Some (Result Success (-1) a ipvt)
           end
       end) = Some r1 ->
      exists r2,
        (z ← Scalar.zero_row_check a n 0 (Z.to_nat n);
         match z with
         | Some i => Some (Result ZeroRow i a ipvt2)
         | None =>
             o ← columns a n ipvt2 0 (Z.to_nat n);
             match o with
             | Return r => Some r
             | Next a ipvt => Some (Result Success (-1) a ipvt)
             end
         end) = Some r2 /\
        exit r2 = exit r1 /\ value r2 = value r1 /\ matrix r2 = matrix r1 /\
        forall k, column_completed r1 n k ->
          load (pivots r2) k = load (pivots r1) k) as Hboth.
  { intros columns Hcols r1 Hrun.
    destruct (Scalar.zero_row_check a n 0 (Z.to_nat n)) as [[i|]|];
      simpl in *; [| | discriminate].
    { injection Hrun as <-. eexists. split; [done|]. simpl.
      split; [done|]. split; [done|]. split; [done|].
      intros k Hk. by unfold column_completed in Hk. }
    destruct (columns a n ipvt1 0 (Z.to_nat n)) as [o1|] eqn:Hc;
      [|discriminate]. simpl in Hrun.
    destruct (Hcols (Z.to_nat n) a ipvt1 ipvt2 0 o1 Hlen) as
      (o2 & -> & Hsame & Hfail & Hagree); [intros k Hk; lia | done |].
    simpl. destruct o1 as [r|a1 p1], o2 as [r2|a2 p2]; simpl in Hsame;
      try done; injection Hrun as <-.
    - destruct Hsame as (He & Hv & Hm). eexists. split; [done|].
      split; [done|]. split; [done|]. split; [done|].
      intros k Hk. symmetry. apply Hagree. simpl.
      specialize (Hfail r eq_refl). unfold column_completed in Hk.
      destruct (exit r); (done || lia).
    - subst a2. eexists. split; [done|]. simpl.
      split; [done|]. split; [done|]. split; [done|].
      intros k Hk. symmetry. apply Hagree. simpl.
      unfold column_completed in Hk. simpl in Hk. lia. }
  split.
  - apply (Hboth Scalar.lu_columns).
    apply (lu_columns_indep Scalar.lu_column); [done | done |].
    intros a0 p1 p2 j o1 Hl Hag. by apply lu_column_indep.
  - apply (Hboth Simd.lu_columns).
    apply (lu_columns_indep Simd.lu_column); [done | done |].
    intros a0 p1 p2 j o1 Hl Hag. by apply lu_column_indep.
Qed.

End PivotsOutput.

(** * Concrete runs *)

(** The scenario of the specification: row 1 is the pivot of column 0 and
    the solution of [[4 3; 6 3]] x = [1; 1] is [0; 1/3]. *)
Example lu_2x2_scenario :
  (r ← Scalar.lu_factor a_2x2 2 [0; 0];
   x ← Scalar.lu_solve (matrix r) 2 (pivots r) (map qc [1; 1]);
   Some (value r, pivots r, map this x))
  = Some (-1, [1; 1], [0; 1 # 3]%Q).
Proof. vm_compute. reflexivity. Qed.

(** The scenario of the specification: the identity is factored without
    exchange and [lu_solve] leaves [b] unchanged. *)
Example lu_identity_scenario :
  (r ← Scalar.lu_factor (map qc [1; 0; 0; 0; 1; 0; 0; 0; 1]) 3 [7; 7; 7];
   x ← Scalar.lu_solve (matrix r) 3 (pivots r) (map qc [5; -2; 9]);
   Some (value r, pivots r, map this x))
  = Some (-1, [0; 1; 2], [5; -2; 9]%Q).
Proof. vm_compute. reflexivity. Qed.

(** In binary64 the two builds need not agree to the last bit: the SIMD
    build adds the two products before it subtracts them. *)
Example simd_rounds_differently :
  (r ← Scalar.lu_factor
         [2; 0; 0x1p-53; 0; 2; 0x1p-53; 1; 1; 1]%float 3 [0; 0; 0];
   load (matrix r) 8) = Some 1%float /\
  (r ← Simd.lu_factor
         [2; 0; 0x1p-53; 0; 2; 0x1p-53; 1; 1; 1]%float 3 [0; 0; 0];
   load (matrix r) 8) = Some 0x1.fffffffffffffp-1%float.
Proof. split; vm_compute; reflexivity. Qed.

(** C2 does not survive rounding: the two builds need not return the
    same value.  On this matrix the last pivot is [2^-53] in the scalar
    build, which returns [-1], and [0] in the SIMD build, which returns
    [2]. *)
Example simd_returns_differently :
  value <$> Scalar.lu_factor
    [2; 0; 0x1p-53; 0; 2; 0x1.fffffffffffffp0; 1; 1; 1]%float 3 [0; 0; 0]
  = Some (-1) /\
  value <$> Simd.lu_factor
    [2; 0; 0x1p-53; 0; 2; 0x1.fffffffffffffp0; 1; 1; 1]%float 3 [0; 0; 0]
  = Some 2.
Proof. split; vm_compute; reflexivity. Qed.

(** ** The theorems at concrete inputs *)

Ltac decide_closed := apply (bool_decide_unpack _); vm_compute; exact I.

Ltac buffer_ok :=
  first [ split; [lia | vm_compute; discriminate]
        | unfold vec_ok; vm_compute; discriminate ].

(** In [[1 2 0; 0 0 0; 0 0 0]] rows 1 and 2 are zero; row 1 is reported. *)
Lemma lu_factor_zero_row_witness :
  Scalar.lu_factor (F := float) [1; 2; 0; 0; 0; 0; 0; 0; 0]%float 3 [7; 8; 9]
  = Some (Result ZeroRow 1 [1; 2; 0; 0; 0; 0; 0; 0; 0]%float [7; 8; 9]).
Proof.
  apply (lu_factor_zero_row (F := float)).
  - split; simpl; lia.
  - lia.
  - intros j Hj.
    assert (j = 0 \/ j = 1 \/ j = 2) as [E | [E | E]] by lia; subst j;
      (eexists; split; [reflexivity | vm_compute; reflexivity]).
  - intros i Hi Hz. assert (i = 0) as -> by lia.
    destruct (Hz 0) as (x & Hx & Hx0); [lia|].
    injection Hx as <-. vm_compute in Hx0. discriminate.
Defined.

Lemma lu_solve_solves_witness :
  exists r x,
    Scalar.lu_factor a_2x2 2 [0; 0] = Some r /\ value r = -1 /\
    Scalar.lu_solve (matrix r) 2 (pivots r) (map qc [1; 1]) = Some x /\
    vec_ok x 2 /\
    forall i, 0 <= i < 2 ->
      sumZ 0 2 (fun j => M a_2x2 2 i j * V x j)%Qc = V (map qc [1; 1]) i.
Proof.
  destruct (Scalar.lu_factor a_2x2 2 [0; 0]) as [r|] eqn:E;
    [|vm_compute in E; discriminate].
  assert (value r = -1) as Hv
    by (vm_compute in E; injection E as <-; reflexivity).
  destruct (lu_solve_solves a_2x2 2 [0; 0] (map qc [1; 1]) r)
    as (x & Hx & Hok & Hsol); [buffer_ok | buffer_ok | buffer_ok | exact E | exact Hv |].
  exists r, x. auto.
Defined.

(** [[4 3; 6 3]] in binary64. *)
Lemma lu_factor_success_is_safe_witness :
  exists r,
    Scalar.lu_factor [4; 3; 6; 3]%float 2 [0; 0] = Some r /\ value r = -1 /\
    exit r = Success /\
    (forall j, 0 <= j < 2 ->
       exists row, load (pivots r) j = Some row /\ j <= row < 2) /\
    (forall j, 0 <= j < 2 ->
       exists d, load (matrix r) (j * 2 + j) = Some d /\ feqb d f0 = false) /\
    (forall b, vec_ok b 2 ->
       exists x, Scalar.lu_solve (matrix r) 2 (pivots r) b = Some x /\
                 length x = length b).
Proof.
  destruct (Scalar.lu_factor [4; 3; 6; 3]%float 2 [0; 0]) as [r|] eqn:E;
    [|vm_compute in E; discriminate].
  assert (value r = -1) as Hv
    by (vm_compute in E; injection E as <-; reflexivity).
  exists r. split; [reflexivity|]. split; [exact Hv|].
  apply (lu_factor_success_is_safe (F := float) [4; 3; 6; 3]%float 2 [0; 0] r);
    [ intros x d _; eexists; reflexivity
    | buffer_ok | buffer_ok | exact E | exact Hv ].
Defined.

Lemma twin_rows_singular : singular a_twin 2.
Proof.
  left. exists (fun i => if decide (i = 0) then 1%Qc else (-1)%Qc). split.
  - exists 0. split; [lia | decide_closed].
  - intros c Hc. assert (c = 0 \/ c = 1) as [E | E] by lia; subst c;
      decide_closed.
Qed.

Lemma twin_rows_not_zero i : 0 <= i < 2 -> ~ zero_row a_twin 2 i.
Proof.
  intros Hi Hz. destruct (Hz 0) as (x & Hx & Hx0); [lia|].
  assert (i = 0 \/ i = 1) as [E | E] by lia; subst i;
    vm_compute in Hx; injection Hx as <-; vm_compute in Hx0; discriminate.
Qed.

Lemma singular_fails_at_first_pivotless_column_witness :
  exists r,
    Scalar.lu_factor a_twin 2 [0; 0] = Some r /\
    exit r = ZeroDiag /\ value r <> -1 /\ 0 <= value r < 2 /\
    (forall i, value r <= i < 2 -> M (matrix r) 2 i (value r) = 0%Qc) /\
    (forall c, 0 <= c < value r -> M (matrix r) 2 c c <> 0%Qc).
Proof.
  apply (singular_fails_at_first_pivotless_column a_twin 2 [0; 0]);
    [buffer_ok | buffer_ok | exact twin_rows_not_zero | exact twin_rows_singular].
Defined.

(** Column 1 of [[1 1; 1 1]] in binary64, after column 0. *)
Lemma zero_candidates_fail_at_diagonal_witness :
  exists au a1 largest largestRow,
    Scalar.upper_part [1; 1; 1; 1]%float 2 1 = Some au /\
    Scalar.lower_part au 2 1 = Some (a1, largest, largestRow) /\
    largestRow = 2 - 1 /\
    exists a2 ipvt',
      store [1; 0] 1 (2 - 1) = Some ipvt' /\
      Scalar.lu_factor [1; 1; 1; 1]%float 2 [0; 0]
      = Some (Result ZeroDiag 1 a2 ipvt').
Proof.
  destruct (Scalar.upper_part [1; 1; 1; 1]%float 2 1) as [au|] eqn:Eu;
    [|vm_compute in Eu; discriminate].
  destruct (Scalar.lower_part au 2 1) as [[[a1 lg] lr]|] eqn:El.
  2: { exfalso. vm_compute in Eu. injection Eu as <-.
       vm_compute in El. discriminate. }
  exists au, a1, lg, lr. split; [reflexivity|]. split; [exact El|].
  apply (zero_candidates_fail_at_diagonal (F := float)
           [1; 1; 1; 1]%float 2 [0; 0] 1 [1; 1; 1; 1]%float [1; 0]
           au a1 lg lr);
    [buffer_ok | buffer_ok | lia | | vm_compute; reflexivity
    | exact Eu | exact El |].
  - intros i Hi Hz. destruct (Hz 0) as (x & Hx & Hx0); [lia|].
    assert (i = 0 \/ i = 1) as [E | E] by lia; subst i;
      vm_compute in Hx; injection Hx as <-; vm_compute in Hx0; discriminate.
  - intros i Hi. assert (i = 1) as -> by lia.
    vm_compute in Eu. injection Eu as <-.
    vm_compute in El. injection El as <- _ _.
    eexists. split; reflexivity.
Defined.

(** In column 0 of [a_tie] rows 0 and 1 tie, and row 1 is selected. *)
Lemma pivot_search_takes_last_largest_witness :
  exists a' largest largestRow,
    Scalar.lower_part a_tie 2 0 = Some (a', largest, largestRow) /\
    largestRow = 1 /\ largest = 2%float /\
    (forall i1 i2 q1 q2, 0 <= i1 < i2 -> i2 < 2 ->
       load a' (i1 * 2 + 0) = Some q1 -> load a' (i2 * 2 + 0) = Some q2 ->
       fabs q1 = fabs q2 -> fgeb (fabs q2) (fabs q2) = true ->
       largestRow <> i1).
Proof.
  destruct (Scalar.lower_part a_tie 2 0) as [[[a' lg] lr]|] eqn:E;
    [|vm_compute in E; discriminate].
  exists a', lg, lr. split; [reflexivity|].
  split; [vm_compute in E; injection E as _ _ <-; reflexivity|].
  split; [vm_compute in E; injection E as _ <- _; reflexivity|].
  apply (pivot_search_takes_last_largest (F := float) a_tie 2 0 a' lg lr);
    [lia | exact E].
Defined.

(** [[2 1; 1 1]] in binary64: no exchange in either column. *)
Lemma lu_factor_records_pivot_witness :
  exists aj ipvtj largestRow ipvt',
    Scalar.lu_columns [2; 1; 1; 1]%float 2 [7; 7] 0 (Z.to_nat 1)
      = Some (Next aj ipvtj) /\
    selected_pivot aj 2 1 = Some largestRow /\
    store ipvtj 1 largestRow = Some ipvt' /\
    load [0; 1] 1 = Some largestRow /\
    (largestRow = 1 -> load [0; 1] 1 = Some 1).
Proof.
  apply (lu_factor_records_pivot (F := float) [2; 1; 1; 1]%float 2 [7; 7]
           (Result Success (-1) [2; 1; 0.5; 0.5]%float [0; 1]) 1).
  - vm_compute. reflexivity.
  - unfold column_completed. simpl. lia.
Defined.


Lemma no_pivot_only_without_candidates_witness :
  exists r,
    Scalar.lu_factor a_subnormal 2 [0; 0] = Some r /\ exit r = NoPivot /\
    0 <= value r < 2 /\ no_candidate (matrix r) 2 (value r) 2.
Proof.
  destruct (Scalar.lu_factor a_subnormal 2 [0; 0]) as [r|] eqn:E;
    [|vm_compute in E; discriminate].
  assert (exit r = NoPivot) as Hexit
    by (vm_compute in E; injection E as <-; reflexivity).
  exists r. split; [reflexivity|]. split; [exact Hexit|].
  apply (no_pivot_only_without_candidates (F := float) a_subnormal 2 [0; 0] r);
    [left; exact E | exact Hexit].
Defined.

(** ** The further properties at concrete inputs *)

(** Rows 0 and 1 of a 2 x 3 matrix, followed by one more entry. *)
Lemma swap_rows_simd_exchanges_witness :
  exists m',
    Simd.swap_rows_simd [1; 2; 3; 4; 5; 6; 7]%float 0 3 3 = Some m' /\
    length m' = length [1; 2; 3; 4; 5; 6; 7]%float /\
    (forall k, 0 <= k < 3 ->
       load m' (0 + k) = load [1; 2; 3; 4; 5; 6; 7]%float (3 + k) /\
       load m' (3 + k) = load [1; 2; 3; 4; 5; 6; 7]%float (0 + k)) /\
    (forall z, ~ 0 <= z < 0 + 3 -> ~ 3 <= z < 3 + 3 ->
       load m' z = load [1; 2; 3; 4; 5; 6; 7]%float z).
Proof.
  apply (swap_rows_simd_exchanges (F := float)); simpl; lia.
Defined.

Lemma swap_rows_simd_twice_witness :
  exists m',
    Simd.swap_rows_simd [1; 2; 3; 4; 5; 6; 7]%float 0 3 3 = Some m' /\
    Simd.swap_rows_simd m' 0 3 3 = Some [1; 2; 3; 4; 5; 6; 7]%float.
Proof.
  apply (swap_rows_simd_twice (F := float)); simpl; lia.
Defined.

(** Factors of [[4 3; 6 3]] and the right-hand side [1; 1] in binary64. *)
Lemma small_builds_identical_witness :
  Simd.lu_factor [6; 3; 0.5; 1]%float 2 [1; 1]
  = Scalar.lu_factor [6; 3; 0.5; 1]%float 2 [1; 1] /\
  Simd.lu_solve [6; 3; 0.5; 1]%float 2 [1; 1] [1; 1]%float
  = Scalar.lu_solve [6; 3; 0.5; 1]%float 2 [1; 1] [1; 1]%float.
Proof.
  apply (small_builds_identical (F := float)). lia.
Defined.

(** Column 1 of a 3 x 3 matrix below its first row, halved. *)
Lemma scale_column_simd_scales_witness :
  exists m',
    Simd.scale_column_simd [1; 2; 3; 4; 5; 6; 7; 8; 9]%float 1 1 3 3
      0.5%float = Some m' /\
    length m' = length [1; 2; 3; 4; 5; 6; 7; 8; 9]%float /\
    (forall i, 1 <= i < 3 ->
       exists x,
         load [1; 2; 3; 4; 5; 6; 7; 8; 9]%float (1 + i * 3) = Some x /\
         load m' (1 + i * 3) = Some (fmul x 0.5%float)) /\
    (forall z, (forall i, 1 <= i < 3 -> z <> 1 + i * 3) ->
       load m' z = load [1; 2; 3; 4; 5; 6; 7; 8; 9]%float z).
Proof.
  apply (scale_column_simd_scales (F := float)); [lia|].
  intros i Hi. simpl. lia.
Defined.

(** [1 2 3] . [4 5 6], one pair and one remaining product. *)
Lemma dot_product_simd_sum_witness :
  Simd.dot_product_simd (map qc [1; 2; 3]) 0 (map qc [4; 5; 6]) 0 3
  = Some (sumZ 0 3 (fun i =>
            Qcmult (V (map qc [1; 2; 3]) (0 + i))
                   (V (map qc [4; 5; 6]) (0 + i)))).
Proof.
  apply dot_product_simd_sum; simpl; lia.
Defined.

(** [[2 1 1; 4 3 3; 8 7 9]] in binary64. *)
Lemma lu_factor_return_value_witness :
  exists r,
    Scalar.lu_factor [2; 1; 1; 4; 3; 3; 8; 7; 9]%float 3 [0; 0; 0] = Some r /\
    length (matrix r) = length [2; 1; 1; 4; 3; 3; 8; 7; 9]%float /\
    length (pivots r) = length [0; 0; 0] /\
    (value r = -1 /\ exit r = Success \/
     0 <= value r < 3 /\ exit r <> Success).
Proof.
  apply (lu_factor_return_value (F := float));
    [intros x d _; eexists; reflexivity | buffer_ok | buffer_ok].
Defined.

(** Dimension 0, with buffers that hold entries all the same. *)
Lemma empty_system_untouched_witness :
  Scalar.lu_factor [5]%float 0 [7] = Some (Result Success (-1) [5]%float [7]) /\
  Scalar.lu_solve [5]%float 0 [7] [3]%float = Some [3]%float /\
  Simd.lu_factor [5]%float 0 [7] = Some (Result Success (-1) [5]%float [7]) /\
  Simd.lu_solve [5]%float 0 [7] [3]%float = Some [3]%float.
Proof.
  apply (empty_system_untouched (F := float)); [unfold INT_MIN; lia | lia].
Defined.

(** In [[1 1 1; 1 1 2; 1 1 3]] every candidate of column 1 reduces to
    zero: [ipvt[1]] is written and [ipvt[2]] is not. *)
Lemma failure_leaves_later_pivots_witness :
  exists r,
    Scalar.lu_factor [1; 1; 1; 1; 1; 2; 1; 1; 3]%float 3 [7; 8; 9] = Some r /\
    exit r = ZeroDiag /\
    0 <= value r < 3 /\
    (forall k, value r < k -> load (pivots r) k = load [7; 8; 9] k) /\
    (exit r = NoPivot ->
     load (pivots r) (value r) = load [7; 8; 9] (value r)) /\
    (exit r = ZeroDiag ->
     exists row d,
       load (pivots r) (value r) = Some row /\ value r <= row < 3 /\
       load (matrix r) (value r * 3 + value r) = Some d /\
       feqb d f0 = true).
Proof.
  destruct (Scalar.lu_factor [1; 1; 1; 1; 1; 2; 1; 1; 3]%float 3 [7; 8; 9])
    as [r|] eqn:E; [|vm_compute in E; discriminate].
  assert (exit r = ZeroDiag) as Hexit
    by (vm_compute in E; injection E as <-; reflexivity).
  exists r. split; [reflexivity|]. split; [exact Hexit|].
  apply (failure_leaves_later_pivots (F := float)
           [1; 1; 1; 1; 1; 2; 1; 1; 3]%float 3 [7; 8; 9] r);
    [exact E | right; exact Hexit].
Defined.

Lemma simd_lu_factor_return_value_witness :
  exists r,
    Simd.lu_factor [2; 1; 1; 4; 3; 3; 8; 7; 9]%float 3 [0; 0; 0] = Some r /\
    length (matrix r) = length [2; 1; 1; 4; 3; 3; 8; 7; 9]%float /\
    length (pivots r) = length [0; 0; 0] /\
    (value r = -1 /\ exit r = Success \/
     0 <= value r < 3 /\ exit r <> Success).
Proof.
  apply (simd_lu_factor_return_value (F := float));
    [intros x d _; eexists; reflexivity | buffer_ok | buffer_ok].
Defined.

Lemma simd_success_is_safe_witness :
  exists r,
    Simd.lu_factor [2; 1; 1; 4; 3; 3; 8; 7; 9]%float 3 [0; 0; 0] = Some r /\
    value r = -1 /\ exit r = Success /\
    (forall j, 0 <= j < 3 ->
       exists row, load (pivots r) j = Some row /\ j <= row < 3) /\
    (forall j, 0 <= j < 3 ->
       exists d, load (matrix r) (j * 3 + j) = Some d /\ feqb d f0 = false) /\
    (forall b, vec_ok b 3 ->
       exists x, Simd.lu_solve (matrix r) 3 (pivots r) b = Some x /\
                 length x = length b).
Proof.
  destruct (Simd.lu_factor [2; 1; 1; 4; 3; 3; 8; 7; 9]%float 3 [0; 0; 0])
    as [r|] eqn:E; [|vm_compute in E; discriminate].
  assert (value r = -1) as Hv
    by (vm_compute in E; injection E as <-; reflexivity).
  exists r. split; [reflexivity|]. split; [exact Hv|].
  apply (simd_success_is_safe (F := float)
           [2; 1; 1; 4; 3; 3; 8; 7; 9]%float 3 [0; 0; 0] r);
    [ intros x d _; eexists; reflexivity
    | buffer_ok | buffer_ok | exact E | exact Hv ].
Defined.

Lemma lu_factor_factors_witness :
  exists r,
    Scalar.lu_factor a_2x2 2 [0; 0] = Some r /\ value r = -1 /\
    (forall i, 0 <= i < 2 ->
       0 <= origin (pivot_at (pivots r)) (Z.to_nat 2) i < 2) /\
    (forall i, 0 <= i < 2 ->
       exists i', 0 <= i' < 2 /\
         origin (pivot_at (pivots r)) (Z.to_nat 2) i' = i) /\
    forall i c, 0 <= i < 2 -> 0 <= c < 2 ->
      sumZ 0 2 (fun k => Lf (matrix r) 2 i k * Uf (matrix r) 2 k c)%Qc
      = M a_2x2 2 (origin (pivot_at (pivots r)) (Z.to_nat 2) i) c.
Proof.
  destruct (Scalar.lu_factor a_2x2 2 [0; 0]) as [r|] eqn:E;
    [|vm_compute in E; discriminate].
  assert (value r = -1) as Hv
    by (vm_compute in E; injection E as <-; reflexivity).
  exists r. split; [reflexivity|]. split; [exact Hv|].
  apply (lu_factor_factors a_2x2 2 [0; 0] r);
    [buffer_ok | buffer_ok | exact E | exact Hv].
Defined.

Lemma lu_solve_unique_witness :
  exists r x,
    Scalar.lu_factor a_2x2 2 [0; 0] = Some r /\ value r = -1 /\
    Scalar.lu_solve (matrix r) 2 (pivots r) (map qc [1; 1]) = Some x /\
    forall y : list Qc,
      (forall i, 0 <= i < 2 ->
         sumZ 0 2 (fun j => M a_2x2 2 i j * V y j)%Qc
         = V (map qc [1; 1]) i) ->
      forall j, 0 <= j < 2 -> V y j = V x j.
Proof.
  destruct (Scalar.lu_factor a_2x2 2 [0; 0]) as [r|] eqn:E;
    [|vm_compute in E; discriminate].
  assert (value r = -1) as Hv
    by (vm_compute in E; injection E as <-; reflexivity).
  destruct (lu_solve_unique a_2x2 2 [0; 0] (map qc [1; 1]) r)
    as (x & Hx & Huniq);
    [buffer_ok | buffer_ok | buffer_ok | exact E | exact Hv |].
  exists r, x. auto.
Defined.

Lemma multipliers_at_most_one_witness :
  exists r,
    Scalar.lu_factor a_2x2 2 [0; 0] = Some r /\ value r = -1 /\
    forall i c, 0 <= c < i -> i < 2 ->
      (Qcabs (M (matrix r) 2 i c) <= 1)%Qc.
Proof.
  destruct (Scalar.lu_factor a_2x2 2 [0; 0]) as [r|] eqn:E;
    [|vm_compute in E; discriminate].
  assert (value r = -1) as Hv
    by (vm_compute in E; injection E as <-; reflexivity).
  exists r. split; [reflexivity|]. split; [exact Hv|].
  apply (multipliers_at_most_one a_2x2 2 [0; 0] r);
    [buffer_ok | buffer_ok | exact E | exact Hv].
Defined.

Lemma lu_factor_succeeds_iff_nonsingular_witness :
  exists r,
    Scalar.lu_factor a_twin 2 [0; 0] = Some r /\
    (value r = -1 <-> ~ singular a_twin 2).
Proof.
  apply (lu_factor_succeeds_iff_nonsingular a_twin 2 [0; 0]);
    [buffer_ok | buffer_ok].
Defined.

(** [[4 3; 6 3]] in buffers that go on after the matrix and the pivots. *)
Lemma lu_factor_writes_inside_witness :
  exists r,
    Simd.lu_factor [4; 3; 6; 3; 99]%float 2 [0; 0; 77] = Some r /\
    (forall z, 2 * 2 <= z ->
       load (matrix r) z = load [4; 3; 6; 3; 99]%float z) /\
    (forall k, 2 <= k -> load (pivots r) k = load [0; 0; 77] k).
Proof.
  destruct (Simd.lu_factor [4; 3; 6; 3; 99]%float 2 [0; 0; 77])
    as [r|] eqn:E; [|vm_compute in E; discriminate].
  exists r. split; [reflexivity|].
  apply (lu_factor_writes_inside (F := float)
           [4; 3; 6; 3; 99]%float 2 [0; 0; 77] r).
  right. exact E.
Defined.

(** Factors and pivots written by hand, and a right-hand side in a buffer
    that goes on after it. *)
Lemma lu_solve_contract_witness :
  (exists x,
     Scalar.lu_solve [6; 3; 0.5; 1]%float 2 [1; 0] [0; 3; 42]%float = Some x /\
     length x = length [0; 3; 42]%float /\
     forall k, 2 <= k -> load x k = load [0; 3; 42]%float k) /\
  (exists x,
     Simd.lu_solve [6; 3; 0.5; 1]%float 2 [1; 0] [0; 3; 42]%float = Some x /\
     length x = length [0; 3; 42]%float /\
     forall k, 2 <= k -> load x k = load [0; 3; 42]%float k).
Proof.
  apply (lu_solve_contract (F := float)).
  - intros x d _. eexists. reflexivity.
  - buffer_ok.
  - intros i Hi. assert (i = 0 \/ i = 1) as [E | E] by lia; subst i;
      (eexists; split; [reflexivity | lia]).
  - buffer_ok.
  - intros i Hi. assert (i = 0 \/ i = 1) as [E | E] by lia; subst i;
      (eexists; split; [reflexivity | vm_compute; reflexivity]).
Defined.

(** [[4 3; 6 3]] in binary64, with two pivot buffers. *)
Lemma pivots_are_output_only_witness :
  (forall r1, Scalar.lu_factor [4; 3; 6; 3]%float 2 [0; 0] = Some r1 ->
     exists r2, Scalar.lu_factor [4; 3; 6; 3]%float 2 [7; 9] = Some r2 /\
       exit r2 = exit r1 /\ value r2 = value r1 /\ matrix r2 = matrix r1 /\
       forall k, column_completed r1 2 k ->
         load (pivots r2) k = load (pivots r1) k) /\
  (forall r1, Simd.lu_factor [4; 3; 6; 3]%float 2 [0; 0] = Some r1 ->
     exists r2, Simd.lu_factor [4; 3; 6; 3]%float 2 [7; 9] = Some r2 /\
       exit r2 = exit r1 /\ value r2 = value r1 /\ matrix r2 = matrix r1 /\
       forall k, column_completed r1 2 k ->
         load (pivots r2) k = load (pivots r1) k).
Proof.
  apply (pivots_are_output_only (F := float)). reflexivity.
Defined.

(** ** Where the code parts from the specification *)

(** C1 does not survive rounding.  [[49 1; 49 1]] has two identical
    rows, so [A x] has two equal entries whatever [x] is; in binary64
    [lu_factor] returns [-1] on it and [lu_solve] turns [b = [1; 2]] into
    an [x] with [A x = [1; 1]].  And on the 1 x 1 matrix [[2^-1000]], as
    well conditioned as a matrix can be, [b = [2^1000]] gives
    [x = [infinity]]. *)
Lemma binary64_solution_misses_rhs :
  load [49; 1; 49; 1]%float 0 = load [49; 1; 49; 1]%float 2 /\
  load [49; 1; 49; 1]%float 1 = load [49; 1; 49; 1]%float 3 /\
  (r ← Scalar.lu_factor [49; 1; 49; 1]%float 2 [0; 0];
   x ← Scalar.lu_solve (matrix r) 2 (pivots r) [1; 2]%float;
   Some (value r, x))
  = Some (-1, [0x1.4e5e0a72f0539p+47; -9007199254740990]%float) /\
  (49 * 0x1.4e5e0a72f0539p+47 + 1 * -9007199254740990 = 1)%float /\
  (r ← Scalar.lu_factor [0x1p-1000]%float 1 [0];
   x ← Scalar.lu_solve (matrix r) 1 (pivots r) [0x1p+1000]%float;
   Some (value r, x))
  = Some (-1, [infinity]).
Proof. repeat split; vm_compute; reflexivity. Qed.

(** C4 does not survive rounding: in binary64 [[49 1; 49 1]], whose two
    rows are identical and nonzero, is factored with the pivots [49] and
    [2^-53] and [lu_factor] returns [-1]. *)
Lemma binary64_factors_twin_rows :
  load [49; 1; 49; 1]%float 0 = load [49; 1; 49; 1]%float 2 /\
  load [49; 1; 49; 1]%float 1 = load [49; 1; 49; 1]%float 3 /\
  Scalar.lu_factor [49; 1; 49; 1]%float 2 [0; 0]
  = Some (Result Success (-1)
            [49; 1; 0x1.fffffffffffffp-1; 0x1p-53]%float [1; 1]).
Proof. repeat split; vm_compute; reflexivity. Qed.

(** C5 does not hold: in [[1 1; 1 1]] the only candidate of column 1
    reduces to zero, the pivot search registers it ([largestRow = 1], not
    [-1]), [ipvt[1]] is written, and [lu_factor] returns 1 from the
    zero-diagonal check, not from the no-candidate check. *)
Lemma zero_candidate_is_registered :
  Scalar.lu_columns [1; 1; 1; 1]%float 2 [0; 0] 0 1
    = Some (Next [1; 1; 1; 1]%float [1; 0]) /\
  Scalar.upper_part [1; 1; 1; 1]%float 2 1 = Some [1; 1; 1; 1]%float /\
  Scalar.lower_part [1; 1; 1; 1]%float 2 1
    = Some ([1; 1; 1; 0]%float, 0%float, 1) /\
  Scalar.lu_factor [1; 1; 1; 1]%float 2 [0; 0]
    = Some (Result ZeroDiag 1 [1; 1; 1; 0]%float [1; 1]).
Proof. repeat split; vm_compute; reflexivity. Qed.

(** C10 does not hold: on [[2^-1074 1; 0 1]], which holds no NaN, both
    builds of [lu_factor] return 1 from the [largestRow == -1] branch: the
    multiplier [0 * (1 / 2^-1074)] is [0 * infinity], a NaN. *)
Lemma no_pivot_reached_without_nan :
  Forall (fun x => PrimFloat.eqb x x = true) a_subnormal /\
  exit <$> Scalar.lu_factor a_subnormal 2 [0; 0] = Some NoPivot /\
  value <$> Scalar.lu_factor a_subnormal 2 [0; 0] = Some 1 /\
  exit <$> Simd.lu_factor a_subnormal 2 [0; 0] = Some NoPivot /\
  value <$> Simd.lu_factor a_subnormal 2 [0; 0] = Some 1.
Proof.
  split; [repeat constructor|]. repeat split; vm_compute; reflexivity.
Qed.
